(** * Primitive operations of the Nix expression evaluator (libexpr/primops.cc)

    A shallow embedding of the primitives of [src/libexpr/primops.cc] that
    deal with derivations, string contexts, paths and lazy lists, and the
    properties of them that the specification states.

    In this revision of the file the evaluator is being ported from terms
    ([Expr]) to values ([Value]): [import], [head], [tail], [map] and
    [toString] work on values, while the derivation primitives,
    [pathExists] and [readFile] still work on terms and stand between
    [#if 0] and [#endif]. Both groups are modelled as they are written.

    Conventions.
    - A C++ function that may throw returns in the monad [M S], a state and
      exception monad: the state survives a throw, as the evaluator state
      and the store do in the C++ program.
    - [std::map<string,V>] and [std::set<string>] are key-sorted lists
      ([StdMap], [StdSet]): the primitives iterate over them in key order.
      The derivation-hash cache [drvHashes] is only ever indexed, and is a
      [gmap].
    - Functions that the file calls but that live in other translation
      units (the hash library, the store, the evaluator proper) are the
      methods of the classes [HashLib], [DrvStore], [Store], [Evaluator]
      and [Forcer]; every theorem holds for all their implementations
      unless it names a hypothesis on them. They run on their own part of
      the state ([ext]); an attribute whose evaluation runs the derivation
      constructor again is, in this model, a call of the evaluator like
      any other.
    - [startNest], [printMsg] and [debug] only write to the log and are
      left out; [warnOnce] is kept. *)

From stdpp Require Import gmap strings list fin_maps.
From Stdlib Require Import String Ascii.
From Stdlib Require OrderedTypeEx Sorted.
Open Scope string_scope.

(** ** Exceptions and results *)

(** The exception classes thrown in this file: [Error] is the base class,
    [EvalError] and [TypeError] derive from it. [AssertionFailed] stands
    for a failed [assert] (the process aborts), [StoreError] for whatever
    a store or file-system call throws, [StdException] for an exception of
    the C++ library. *)
Inductive ErrorKind : Type :=
  | Error | EvalError | TypeError | AssertionFailed | StoreError | StdException.

#[global] Instance ErrorKind_eq_dec : EqDecision ErrorKind.
Proof. solve_decision. Defined.

Record Exn : Type := mkExn { kind : ErrorKind; prefix_ : string; msg : string }.

#[global] Instance Exn_eq_dec : EqDecision Exn.
Proof. solve_decision. Defined.

Definition mkError (k : ErrorKind) (m : string) : Exn := mkExn k "" m.

(** The line feed in the C++ format strings. *)
Definition nl : string := String (ascii_of_nat 10) EmptyString.

(** [e.addPrefix(fs)]: the new prefix goes in front of the old one. *)
Definition addPrefix (fs : string) (e : Exn) : Exn :=
  mkExn (kind e) (fs ++ prefix_ e) (msg e).

Inductive Res (A : Type) : Type :=
  | Ok (a : A)
  | Throw (e : Exn)
  | OutOfFuel.
Arguments Ok {A} a.
Arguments Throw {A} e.
Arguments OutOfFuel {A}.

#[global] Instance Res_ret : MRet Res := fun A a => Ok a.
#[global] Instance Res_bind : MBind Res := fun A B f r =>
  match r with
  | Ok a => f a
  | Throw e => Throw e
  | OutOfFuel => OutOfFuel
  end.

(** State and exception monad. *)
Definition M (S A : Type) : Type := S -> Res A * S.

#[global] Instance M_ret {S} : MRet (M S) := fun A a s => (Ok a, s).
#[global] Instance M_bind {S} : MBind (M S) := fun A B f m s =>
  match m s with
  | (Ok a, s') => f a s'
  | (Throw e, s') => (Throw e, s')
  | (OutOfFuel, s') => (OutOfFuel, s')
  end.

Definition throw {S A} (e : Exn) : M S A := fun s => (Throw e, s).
Definition outOfFuel {S A} : M S A := fun s => (OutOfFuel, s).
Definition getState {S} : M S S := fun s => (Ok s, s).
Definition modifyState {S} (f : S -> S) : M S unit := fun s => (Ok tt, f s).
Definition liftRes {S A} (r : Res A) : M S A := fun s => (r, s).

(** [try { m } catch (Error & e) { e.addPrefix(...); throw; }] *)
Definition withPrefix {S A} (f : Exn -> Exn) (m : M S A) : M S A := fun s =>
  match m s with
  | (Throw e, s') => (Throw (f e), s')
  | r => r
  end.

(** ** Ordered containers *)

Abbreviation Path := string.

(** [std::map<string,V>]: an association list sorted by key. *)
Module StdMap.
Definition t (V : Type) : Type := list (string * V).

(** [m[k] = v] *)
Fixpoint set {V} (k : string) (v : V) (m : t V) : t V :=
  match m with
  | [] => [(k, v)]
  | (k', v') :: rest =>
      match String.compare k k' with
      | Lt => (k, v) :: (k', v') :: rest
      | Eq => (k, v) :: rest
      | Gt => (k', v') :: set k v rest
      end
  end.

(** [m.find(k)] *)
Fixpoint get {V} (k : string) (m : t V) : option V :=
  match m with
  | [] => None
  | (k', v') :: rest => if String.eqb k k' then Some v' else get k rest
  end.

Definition keys {V} (m : t V) : list string := map fst m.
End StdMap.

(** [std::set<string>]: a sorted list without duplicates. *)
Module StdSet.
Definition t : Type := list string.

Fixpoint insert (k : string) (s : t) : t :=
  match s with
  | [] => [k]
  | k' :: rest =>
      match String.compare k k' with
      | Lt => k :: k' :: rest
      | Eq => k' :: rest
      | Gt => k' :: insert k rest
      end
  end.

Definition singleton (k : string) : t := [k].
Definition empty (s : t) : bool := match s with [] => true | _ => false end.
Definition union (a b : t) : t := fold_right insert b a.
End StdSet.

Abbreviation PathSet := StdSet.t.
Abbreviation StringSet := StdSet.t.

(** ** Hashes (hash.hh) *)

Inductive HashType : Type := htUnknown | htMD5 | htSHA1 | htSHA256.

#[global] Instance HashType_eq_dec : EqDecision HashType.
Proof. solve_decision. Defined.

Record Hash : Type := mkHash {
  htype : HashType;          (* [type] *)
  hashSize : nat;
  hbytes : list nat          (* [hash], one number per byte *)
}.

#[global] Instance Hash_eq_dec : EqDecision Hash.
Proof. solve_decision. Defined.

(** [Hash()], the value a fresh [std::map] slot is initialised with. *)
Definition Hash_default : Hash := mkHash htUnknown 0 [].

(** The hash library: functions of libutil/hash.cc used by the primitives. *)
Class HashLib : Type := {
  hashString : HashType -> string -> Hash;
  printHash : Hash -> string;
  parseHashType : string -> HashType;
  (** [Hash h(ht)]: a zero hash of type [ht], with its [hashSize]. *)
  Hash_of_type : HashType -> Hash;
  hashLength32 : Hash -> nat;
  parseHash : HashType -> string -> Res Hash;
  parseHash32 : HashType -> string -> Res Hash
}.

(** ** Derivations (derivations.hh) *)

Record DerivationOutput : Type := mkDerivationOutput {
  path : Path;
  hashAlgo : string;
  hash : string
}.

Abbreviation DerivationOutputs := (StdMap.t DerivationOutput).
Abbreviation DerivationInputs := (StdMap.t StdSet.t).
Abbreviation StringPairs := (StdMap.t string).

Record Derivation : Type := mkDerivation {
  outputs : DerivationOutputs;
  inputDrvs : DerivationInputs;
  inputSrcs : PathSet;
  platform : string;
  builder : Path;
  args : list string;
  env : StringPairs
}.

Definition set_inputDrvs (drv : Derivation) (i : DerivationInputs) : Derivation :=
  mkDerivation (outputs drv) i (inputSrcs drv) (platform drv) (builder drv)
    (args drv) (env drv).

(** The part of the store (store-api.hh, derivations.hh, misc.hh) that the
    derivation hasher reads. The store is a snapshot here: hashing never
    writes to it. *)
Class DrvStore : Type := {
  ATerm : Type;
  unparseDerivation : Derivation -> ATerm;
  hashTerm : ATerm -> Hash;
  derivationFromPath : Path -> Res Derivation
}.

(** ** The derivation hasher *)

(** [isFixedOutput]; [&&] short-circuits, so [begin()] is only
    dereferenced when there is exactly one output. *)
Definition isFixedOutput (drv : Derivation) : bool :=
  Nat.eqb (List.length (outputs drv)) 1 &&
  match outputs drv with
  | (first, second) :: _ =>
      String.eqb first "out" && negb (String.eqb (hash second) "")
  | [] => false
  end.

Section Hasher.
Context `{HashLib} `{DrvStore}.

(** [state.drvHashes[p]]: [operator[]] of [std::map] creates the slot,
    holding [Hash()], when the key is absent. *)
Definition drvHashes_index (p : Path) : M (gmap string Hash) Hash := fun st =>
  match st !! p with
  | Some h => (Ok h, st)
  | None => (Ok Hash_default, <[p := Hash_default]> st)
  end.

(** [state.drvHashes[p] = h] *)
Definition drvHashes_assign (p : Path) (h : Hash) : M (gmap string Hash) unit :=
  modifyState (fun st => <[p := h]> st).

(** The [foreach] loop over [drv.inputDrvs] of [hashDerivationModulo];
    [self] is the recursive call. *)
Fixpoint hashInputs (self : Derivation -> M (gmap string Hash) Hash)
    (inputs : list (Path * StringSet)) (inputs2 : DerivationInputs)
    : M (gmap string Hash) DerivationInputs :=
  match inputs with
  | [] => mret inputs2
  | (first, second) :: rest =>
      h ← drvHashes_index first;
      h ← (if decide (htype h = htUnknown) then
             drv2 ← liftRes (derivationFromPath first);
             h ← self drv2;
             _ ← drvHashes_assign first h;
             mret h
           else mret h);
      hashInputs self rest (StdMap.set (printHash h) second inputs2)
  end.

(** [hashDerivationModulo(state, drv)]. The recursion follows the store's
    dependency graph, so it is bounded by [fuel]. *)
Fixpoint hashDerivationModulo (fuel : nat) (drv : Derivation)
    : M (gmap string Hash) Hash :=
  match fuel with
  | O => outOfFuel
  | S fuel' =>
      if isFixedOutput drv then
        match outputs drv with
        | (_, i) :: _ =>
            mret (hashString htSHA256
                    ("fixed:out:" ++ hashAlgo i ++ ":" ++ hash i ++ ":" ++ path i))
        | [] => mret Hash_default (* not reached: [isFixedOutput] holds *)
        end
      else
        inputs2 ← hashInputs (hashDerivationModulo fuel') (inputDrvs drv) [];
        mret (hashTerm (unparseDerivation (set_inputDrvs drv inputs2)))
  end.

(** The hash-modulo in the words of the specification, as a function of
    the input closure of the derivation alone: there is no cache, each
    input derivation is loaded and hashed again at every reference. *)
Fixpoint hashInputs_spec (self : Derivation -> Res Hash)
    (inputs : list (Path * StringSet)) (inputs2 : DerivationInputs)
    : Res DerivationInputs :=
  match inputs with
  | [] => Ok inputs2
  | (first, second) :: rest =>
      drv2 ← derivationFromPath first;
      h ← self drv2;
      hashInputs_spec self rest (StdMap.set (printHash h) second inputs2)
  end.

Fixpoint hashDerivationModulo_spec (fuel : nat) (drv : Derivation) : Res Hash :=
  match fuel with
  | O => OutOfFuel
  | S fuel' =>
      if isFixedOutput drv then
        match outputs drv with
        | (_, i) :: _ =>
            Ok (hashString htSHA256
                  ("fixed:out:" ++ hashAlgo i ++ ":" ++ hash i ++ ":" ++ path i))
        | [] => Ok Hash_default
        end
      else
        inputs2 ← hashInputs_spec (hashDerivationModulo_spec fuel') (inputDrvs drv) [];
        Ok (hashTerm (unparseDerivation (set_inputDrvs drv inputs2)))
  end.

(** A cache is correct when each of its entries that counts as present
    (type other than [htUnknown]) is the hash that [hashDerivationModulo]
    computes, from an empty cache, for the derivation stored at its key. *)
Definition cache_ok (st : gmap string Hash) : Prop :=
  forall p h, st !! p = Some h -> htype h <> htUnknown ->
    exists drv n st', derivationFromPath p = Ok drv /\
                      hashDerivationModulo n drv ∅ = (Ok h, st').

(** The same, measured against the definition without cache. *)
Definition cache_ok_spec (st : gmap string Hash) : Prop :=
  forall p h, st !! p = Some h -> htype h <> htUnknown ->
    exists drv n, derivationFromPath p = Ok drv /\
                  hashDerivationModulo_spec n drv = Ok h.

(** [inputs] with the key of each entry replaced by the printed form of
    the hash at the same position of [hs]; entries are added in key order,
    as [inputs2[printHash(h)] = i->second] does. *)
Definition replaceKeys (inputs : list (Path * StringSet)) (hs : list Hash)
    (inputs2 : DerivationInputs) : DerivationInputs :=
  fold_left (fun acc ih => StdMap.set (printHash ih.2) ih.1.2 acc)
            (zip inputs hs) inputs2.

(** The derivations whose hash can be computed from the store: those whose
    input closure, cut at fixed-output derivations, is finite and wholly
    loadable. *)
Inductive hashable : Derivation -> Prop :=
  | hashable_fixed drv :
      isFixedOutput drv = true -> hashable drv
  | hashable_inputs drv :
      (forall q, q ∈ StdMap.keys (inputDrvs drv) ->
                 exists drv2, derivationFromPath q = Ok drv2) ->
      (forall q drv2, q ∈ StdMap.keys (inputDrvs drv) ->
                      derivationFromPath q = Ok drv2 -> hashable drv2) ->
      hashable drv.
End Hasher.


(** ** Expressions and values *)

Inductive Pos : Type :=
  | NoPos                                   (* [makeNoPos()] *)
  | PosAt (file : string) (line column : nat).

#[local] Unset Elimination Schemes.
(** Expressions of the term-based evaluator, as far as the primitives
    build or take them apart; every other form of expression is [Other]. *)
Inductive Expr : Type :=
  | Str (s : string) (context : PathSet)
  | Bool (b : bool)
  | List (es : list Expr)
  | Attrs (bindings : list (string * (Expr * Pos)))
  | Other (code : string).
#[local] Set Elimination Schemes.

Definition makeStr (s : string) (context : PathSet) : Expr := Str s context.
Definition makeBool (b : bool) : Expr := Bool b.
Definition makeAttrs (bindings : list (string * (Expr * Pos))) : Expr :=
  Attrs bindings.
Definition makeAttrRHS (e : Expr) (pos : Pos) : Expr * Pos := (e, pos).
Definition matchList (e : Expr) : option (list Expr) :=
  match e with List es => Some es | _ => None end.

(** [ATermMap], a hash table keyed by attribute name: a list of bindings
    with distinct keys, in the order the table's iterator yields them. *)
Module ATermMap.
Definition t : Type := list (string * (Expr * Pos)).

Fixpoint get (k : string) (m : t) : option (Expr * Pos) :=
  match m with
  | [] => None
  | (k', rhs) :: rest => if String.eqb k k' then Some rhs else get k rest
  end.

Fixpoint set (k : string) (rhs : Expr * Pos) (m : t) : t :=
  match m with
  | [] => [(k, rhs)]
  | (k', rhs') :: rest =>
      if String.eqb k k' then (k, rhs) :: rest else (k', rhs') :: set k rhs rest
  end.
End ATermMap.

Definition addr : Type := nat.

(** Values of the new evaluator ([struct Value] of eval.hh). A list value
    holds the address of its first element and its length; an application
    thunk holds the addresses of the function and of the argument. *)
Inductive Value : Type :=
  | VNull
  | VInt (n : Z)
  | VBool (b : bool)
  | VString (s : string) (context : PathSet)
  | VPath (p : string)
  | VList (elems : addr) (length : nat)
  | VLambda (code : string)
  | VThunk (code : string)
  | VApp (left right : addr)
  | VBlackhole.

#[global] Instance Value_eq_dec : EqDecision Value.
Proof. solve_decision. Defined.

(** Modelled from the spec: [mkString] is defined in eval.hh, outside this
    file. It is given the text only; a string made from text alone is a
    literal, and the context of a literal is empty. *)
Definition mkString (s : string) : Value := VString s [].

(** The text and the context of a string-valued attribute of an attribute
    set. *)
Definition stringAttr (name : string) (v : Expr) : option (string * PathSet) :=
  match v with
  | Attrs bindings =>
      match ATermMap.get name bindings with
      | Some (Str s c, _) => Some (s, c)
      | _ => None
      end
  | _ => None
  end.

(** ** The world *)

(** Calls into the store and the file system, as a trace records them. *)
Inductive Event : Type :=
  | EvIsValidPath (p : Path) (valid : bool)
  | EvBuildDerivations (ps : PathSet)
  | EvEvalFile (p : Path)
  | EvPathExists (p : Path)
  | EvReadFile (p : Path).

#[global] Instance Event_eq_dec : EqDecision Event.
Proof. solve_decision. Defined.

(** The state the primitives run in. [ext] is the state owned by the
    collaborators (store contents, file system, the evaluator's own
    caches); the other fields are owned by this file: the hash cache of
    [EvalState], the static flag [haveWarned] of [prim_derivationStrict],
    the warnings printed, and a ghost trace of the calls made to the store
    and the file system. *)
Record World (X : Type) : Type := mkWorld {
  ext : X;
  drvHashes : gmap string Hash;
  haveWarned : bool;
  stderr : list string;
  trace : list Event
}.
Arguments mkWorld {X}.
Arguments ext {X}.
Arguments drvHashes {X}.
Arguments haveWarned {X}.
Arguments stderr {X}.
Arguments trace {X}.

Definition set_ext {X} (w : World X) (x : X) : World X :=
  mkWorld x (drvHashes w) (haveWarned w) (stderr w) (trace w).

(** Run a collaborator on its part of the world. *)
Definition liftExt {X A} (m : M X A) : M (World X) A := fun w =>
  let (r, x) := m (ext w) in (r, set_ext w x).

(** Run the hasher on the cache. *)
Definition liftHashes {X A} (m : M (gmap string Hash) A) : M (World X) A := fun w =>
  let (r, c) := m (drvHashes w) in
  (r, mkWorld (ext w) c (haveWarned w) (stderr w) (trace w)).

Definition addEvent {X} (ev : Event) (w : World X) : World X :=
  mkWorld (ext w) (drvHashes w) (haveWarned w) (stderr w) (trace w ++ [ev]).

Definition logEvent {X} (ev : Event) : M (World X) unit :=
  modifyState (addEvent ev).

(** The world after [warnOnce(haveWarned, f)]. *)
Definition warned {X} (f : string) (w : World X) : World X :=
  if haveWarned w then w
  else mkWorld (ext w) (drvHashes w) true (stderr w ++ ["warning: " ++ f]) (trace w).

(** Modelled from the spec: [warnOnce] is defined in libutil, outside this
    file; "warn-once" is taken to mean that the message is printed unless
    the flag handed in is already set, and that the flag is then set. *)
Definition warnOnce {X} (f : string) : M (World X) unit := fun w =>
  (Ok tt, warned f w).

(** ** Collaborators *)

(** The store and the file system, as the primitives call them. The
    functions that compute a path or test its form are pure; those that
    read or change the store run on the external state [X]. *)
Class Store (X : Type) : Type := {
  isStorePath : Path -> bool;
  isDerivation : string -> bool;
  drvExtension : string;
  checkStoreName : string -> Res unit;
  makeFixedOutputPath : bool -> HashType -> Hash -> string -> Path;
  makeStorePath : string -> Hash -> string -> Path;
  isValidPath : Path -> M X bool;
  buildDerivations : PathSet -> M X unit;
  computeFSClosure : Path -> M X PathSet;
  writeDerivation : Derivation -> string -> M X Path;
  pathExists : Path -> M X bool;
  readFile : Path -> M X string
}.

(** The evaluator proper (eval.cc). [coerceToString] and [coerceToPath]
    return the text together with the paths they add to the caller's
    context set. *)
Class Evaluator (X : Type) : Type := {
  showPos : Pos -> string;
  evalExpr : Expr -> M X Expr;
  evalStringNoCtx : Expr -> M X string;
  coerceToString : Expr -> bool -> bool -> M X (string * PathSet);
  coerceToPath : Expr -> M X (Path * PathSet);
  flattenList : Expr -> M X (list Expr);
  (** the members of [EvalState] that work on values *)
  EvalState_coerceToString : Value -> bool -> bool -> M X (string * PathSet);
  EvalState_coerceToPath : Value -> M X (Path * PathSet);
  EvalState_evalFile : Path -> M X Value
}.


(** ** The derivation constructor *)

(** The local variables of [prim_derivationStrict]. *)
Record Locals : Type := mkLocals {
  drv : Derivation;
  context : PathSet;
  outputHash : string;
  outputHashAlgo : string;
  outputHashRecursive : bool;
  drvName : string
}.

Definition Derivation_empty : Derivation := mkDerivation [] [] [] "" "" [] [].

Definition set_drv (l : Locals) (d : Derivation) : Locals :=
  mkLocals d (context l) (outputHash l) (outputHashAlgo l)
    (outputHashRecursive l) (drvName l).
Definition add_context (l : Locals) (c : PathSet) : Locals :=
  mkLocals (drv l) (StdSet.union c (context l)) (outputHash l) (outputHashAlgo l)
    (outputHashRecursive l) (drvName l).

(** [drv.args.push_back(s)] *)
Definition push_arg (s : string) (d : Derivation) : Derivation :=
  mkDerivation (outputs d) (inputDrvs d) (inputSrcs d) (platform d) (builder d)
    (args d ++ [s]) (env d).
(** [drv.env[key] = s] *)
Definition set_env (key s : string) (d : Derivation) : Derivation :=
  mkDerivation (outputs d) (inputDrvs d) (inputSrcs d) (platform d) (builder d)
    (args d) (StdMap.set key s (env d)).
Definition set_builder (s : string) (d : Derivation) : Derivation :=
  mkDerivation (outputs d) (inputDrvs d) (inputSrcs d) (platform d) s
    (args d) (env d).
Definition set_platform (s : string) (d : Derivation) : Derivation :=
  mkDerivation (outputs d) (inputDrvs d) (inputSrcs d) s (builder d)
    (args d) (env d).
(** [drv.outputs[name] = o] *)
Definition set_output (name : string) (o : DerivationOutput) (d : Derivation)
    : Derivation :=
  mkDerivation (StdMap.set name o (outputs d)) (inputDrvs d) (inputSrcs d)
    (platform d) (builder d) (args d) (env d).
(** [drv.inputSrcs.insert(p)] *)
Definition add_inputSrc (p : Path) (d : Derivation) : Derivation :=
  mkDerivation (outputs d) (inputDrvs d) (StdSet.insert p (inputSrcs d))
    (platform d) (builder d) (args d) (env d).
(** [drv.inputDrvs[p] = singleton<StringSet>("out")] *)
Definition add_inputDrv (p : Path) (d : Derivation) : Derivation :=
  mkDerivation (outputs d) (StdMap.set p (StdSet.singleton "out") (inputDrvs d))
    (inputSrcs d) (platform d) (builder d) (args d) (env d).

(** [catch (Error & e)] sees the exceptions of class [Error] and of its
    subclasses; it sees neither a failed assertion nor an exception of the
    C++ library. *)
Definition catchable (e : Exn) : bool :=
  match kind e with
  | AssertionFailed | StdException => false
  | _ => true
  end.

(** [path.at(0)], which throws [std::out_of_range] on the empty string. *)
Definition at0 {S} (p : string) : M S ascii :=
  match p with
  | String c _ => mret c
  | EmptyString => throw (mkError StdException "basic_string::at")
  end.

(** [string(path, 1)] *)
Definition drop1 (p : string) : string :=
  match p with String _ rest => rest | EmptyString => EmptyString end.

Section Constructor.
Context {X : Type} `{HashLib} `{DrvStore} `{Store X} `{Evaluator X}.

(** [queryAllAttrs(e, attrs, true)]: the bindings of an attribute set,
    a [TypeError] for any other expression. *)
Definition queryAllAttrs (e : Expr) : M (World X) ATermMap.t :=
  match e with
  | Attrs bindings => mret bindings
  | _ => throw (mkError TypeError "value is not an attribute set")
  end.

(** The loop [for (ATermIterator i(es); i; ++i)] over the elements of
    [args]. *)
Fixpoint coerceArgs (es : list Expr) (l : Locals) : M (World X) Locals :=
  match es with
  | [] => mret l
  | i :: rest =>
      '(s, c) ← liftExt (coerceToString i true true);
      coerceArgs rest (set_drv (add_context l c) (push_arg s (drv l)))
  end.

(** The branch [if (key == "args")]. *)
Definition processArgs (value : Expr) (l : Locals) : M (World X) Locals :=
  value ← liftExt (evalExpr value);
  es ← match matchList value with
       | Some es => mret es
       | None =>
           _ ← warnOnce "the `args' attribute should evaluate to a list";
           liftExt (flattenList value)
       end;
  coerceArgs es l.

(** The [else] branch: every other attribute goes to the environment. *)
Definition processEnv (key : string) (value : Expr) (l : Locals)
    : M (World X) Locals :=
  '(s, c) ← liftExt (coerceToString value true true);
  let l := set_drv (add_context l c) (set_env key s (drv l)) in
  if String.eqb key "builder" then mret (set_drv l (set_builder s (drv l)))
  else if String.eqb key "system" then mret (set_drv l (set_platform s (drv l)))
  else if String.eqb key "name" then
    mret (mkLocals (drv l) (context l) (outputHash l) (outputHashAlgo l)
            (outputHashRecursive l) s)
  else if String.eqb key "outputHash" then
    mret (mkLocals (drv l) (context l) s (outputHashAlgo l)
            (outputHashRecursive l) (drvName l))
  else if String.eqb key "outputHashAlgo" then
    mret (mkLocals (drv l) (context l) (outputHash l) s
            (outputHashRecursive l) (drvName l))
  else if String.eqb key "outputHashMode" then
    if String.eqb s "recursive" then
      mret (mkLocals (drv l) (context l) (outputHash l) (outputHashAlgo l)
              true (drvName l))
    else if String.eqb s "flat" then
      mret (mkLocals (drv l) (context l) (outputHash l) (outputHashAlgo l)
              false (drvName l))
    else throw (mkError EvalError
                  ("invalid value `" ++ s ++ "' for `outputHashMode' attribute"))
  else mret l.

(** The body of the loop over the attributes, with its [try ... catch]. *)
Definition processAttr (posDrvName : Pos) (binding : string * (Expr * Pos))
    (l : Locals) : M (World X) Locals :=
  let '(key, (value, pos)) := binding in
  withPrefix
    (fun e =>
       if catchable e then
         addPrefix ("while instantiating the derivation named `" ++ drvName l
                    ++ "' at " ++ showPos posDrvName ++ ":" ++ nl)
           (addPrefix ("while evaluating the derivation attribute `" ++ key
                       ++ "' at " ++ showPos pos ++ ":" ++ nl) e)
       else e)
    (if String.eqb key "args" then processArgs value l
     else processEnv key value l).

Fixpoint processAttrs (posDrvName : Pos) (attrs : ATermMap.t) (l : Locals)
    : M (World X) Locals :=
  match attrs with
  | [] => mret l
  | i :: rest =>
      l ← processAttr posDrvName i l;
      processAttrs posDrvName rest l
  end.

(** The inner loop over the closure of a path marked with [=]. *)
Definition addClosure (refs : PathSet) (d : Derivation) : Derivation :=
  fold_left (fun d j =>
               let d := add_inputSrc j d in
               if isDerivation j then add_inputDrv j d else d)
            refs d.

(** The body of the loop over the context. *)
Definition processContextPath (path : Path) (d : Derivation)
    : M (World X) Derivation :=
  c ← at0 path;
  '(path, d) ← (if Ascii.eqb c "=" then
                  let path := drop1 path in
                  refs ← liftExt (computeFSClosure path);
                  mret (path, addClosure refs d)
                else mret (path, d));
  c ← at0 path;
  let '(path, useDrvAsSrc) :=
    if Ascii.eqb c "~" then (drop1 path, true) else (path, false) in
  if negb (isStorePath path) then
    throw (mkError AssertionFailed "isStorePath(path)")
  else if negb useDrvAsSrc && isDerivation path then mret (add_inputDrv path d)
  else mret (add_inputSrc path d).

Fixpoint processContext (paths : PathSet) (d : Derivation)
    : M (World X) Derivation :=
  match paths with
  | [] => mret d
  | i :: rest => d ← processContextPath i d; processContext rest d
  end.

(** The block [if (outputHash == "") ... else ...]: the output path (empty
    when no hash was given) and the normalised hash and algorithm. *)
Definition checkOutputHash (l : Locals) : M (World X) (Path * string * string) :=
  if String.eqb (outputHash l) "" then mret ("", "", outputHash l)
  else
    let ht := parseHashType (outputHashAlgo l) in
    if decide (ht = htUnknown) then
      throw (mkError EvalError
               ("unknown hash algorithm `" ++ outputHashAlgo l ++ "'"))
    else
      let h := Hash_of_type ht in
      h ← (if Nat.eqb (String.length (outputHash l)) (hashSize h * 2) then
             liftRes (parseHash ht (outputHash l))
           else if Nat.eqb (String.length (outputHash l)) (hashLength32 h) then
             liftRes (parseHash32 ht (outputHash l))
           else
             throw (mkError Error
                      ("hash `" ++ outputHash l ++ "' has wrong length for hash type `"
                       ++ outputHashAlgo l ++ "'")));
      let outPath := makeFixedOutputPath (outputHashRecursive l) ht h (drvName l) in
      mret (outPath,
            if outputHashRecursive l then "r:" ++ outputHashAlgo l
            else outputHashAlgo l,
            printHash h).

(** Everything after the loop over the attributes. *)
Definition instantiate (fuel : nat) (l : Locals) : M (World X) Expr :=
  d ← processContext (context l) (drv l);
  if String.eqb (builder d) "" then
    throw (mkError EvalError "required attribute `builder' missing")
  else if String.eqb (platform d) "" then
    throw (mkError EvalError "required attribute `system' missing")
  else
    '(outPath, outputHashAlgo, outputHash) ← checkOutputHash l;
    _ ← liftRes (checkStoreName (drvName l));
    if isDerivation (drvName l) then
      throw (mkError EvalError
               ("derivation names are not allowed to end in `" ++ drvExtension ++ "'"))
    else
      let d := set_env "out" "" d in
      let d := set_output "out" (mkDerivationOutput "" outputHashAlgo outputHash) d in
      outPath ← (if String.eqb outPath "" then
                   h ← liftHashes (hashDerivationModulo fuel d);
                   mret (makeStorePath "output:out" h (drvName l))
                 else mret outPath);
      let d := set_env "out" outPath d in
      let d := set_output "out" (mkDerivationOutput outPath outputHashAlgo outputHash) d in
      drvPath ← liftExt (writeDerivation d (drvName l));
      h ← liftHashes (hashDerivationModulo fuel d);
      _ ← liftHashes (drvHashes_assign drvPath h);
      let outAttrs : ATermMap.t := [] in
      let outAttrs := ATermMap.set "outPath"
        (makeAttrRHS (makeStr outPath (StdSet.singleton drvPath)) NoPos) outAttrs in
      let outAttrs := ATermMap.set "drvPath"
        (makeAttrRHS (makeStr drvPath (StdSet.singleton ("=" ++ drvPath))) NoPos)
        outAttrs in
      mret (makeAttrs outAttrs).

(** The strings and contexts that the elements of a list coerce to, from
    left to right. *)
Fixpoint coerceList (es : list Expr) : M X (list (string * PathSet)) :=
  match es with
  | [] => mret []
  | i :: rest =>
      sc ← coerceToString i true true;
      scs ← coerceList rest;
      mret (sc :: scs)
  end.

(** The local variables that decide the output path of a derivation with
    a declared hash. *)
Definition controls (l : Locals) : string * string * bool * string :=
  (outputHash l, outputHashAlgo l, outputHashRecursive l, drvName l).

Definition controlKeys : list string :=
  ["name"; "outputHash"; "outputHashAlgo"; "outputHashMode"].

(** [prim_derivationStrict]; [fuel] bounds the hasher's recursion. *)
Definition prim_derivationStrict (fuel : nat) (args0 : Expr) : M (World X) Expr :=
  e ← liftExt (evalExpr args0);
  attrs ← queryAllAttrs e;
  match ATermMap.get "name" attrs with
  | None => throw (mkError EvalError "required attribute `name' missing")
  | Some (eDrvName, posDrvName) =>
      drvName ← withPrefix
        (fun e =>
           if catchable e then
             addPrefix ("while evaluating the derivation attribute `name' at "
                        ++ showPos posDrvName ++ ":" ++ nl) e
           else e)
        (liftExt (evalStringNoCtx eDrvName));
      l ← processAttrs posDrvName attrs
            (mkLocals Derivation_empty [] "" "" false drvName);
      instantiate fuel l
  end.

(** The state of the process after a sequence of calls of the
    constructor; what a call returns or throws is left to the caller. *)
Fixpoint runCalls (calls : list (nat * Expr)) (w : World X) : World X :=
  match calls with
  | [] => w
  | (fuel, args0) :: rest => runCalls rest (prim_derivationStrict fuel args0 w).2
  end.

Definition argsWarning : string :=
  "warning: the `args' attribute should evaluate to a list".

(** At most one warning about [args] has been printed, and none while the
    flag is clear. *)
Definition warnedOnce (w : World X) : Prop :=
  count_occ string_dec (stderr w) argsWarning <= (if haveWarned w then 1 else 0).

(** [m] keeps it so, whatever it returns or throws. *)
Definition keepsWarnedOnce {A} (m : M (World X) A) : Prop :=
  forall w r w', warnedOnce w -> m w = (r, w') -> warnedOnce w'.

End Constructor.


(** ** Import, paths and strings *)

Section Primitives.
Context {X : Type} `{Store X} `{Evaluator X}.

(** The loop of [prim_import] over the context of the imported path. *)
Fixpoint importContext (path : Path) (context : PathSet) : M (World X) unit :=
  match context with
  | [] => mret tt
  | i :: rest =>
      if negb (isStorePath i) then
        throw (mkError AssertionFailed "isStorePath(*i)")
      else
        valid ← liftExt (isValidPath i);
        _ ← logEvent (EvIsValidPath i valid);
        if negb valid then
          throw (mkError EvalError
                   ("cannot import `" ++ path ++ "', since path `" ++ i
                    ++ "' is not valid"))
        else
          _ ← (if isDerivation i then
                 _ ← logEvent (EvBuildDerivations (StdSet.singleton i));
                 liftExt (buildDerivations (StdSet.singleton i))
               else mret tt);
          importContext path rest
  end.

Definition prim_import (args0 : Value) : M (World X) Value :=
  '(path, context) ← liftExt (EvalState_coerceToPath args0);
  _ ← importContext path context;
  _ ← logEvent (EvEvalFile path);
  liftExt (EvalState_evalFile path).

Definition prim_pathExists (args0 : Expr) : M (World X) Expr :=
  '(path, context) ← liftExt (coerceToPath args0);
  if negb (StdSet.empty context) then
    throw (mkError EvalError ("string `" ++ path ++ "' cannot refer to other paths"))
  else
    _ ← logEvent (EvPathExists path);
    b ← liftExt (pathExists path);
    mret (makeBool b).

Definition prim_readFile (args0 : Expr) : M (World X) Expr :=
  '(path, context) ← liftExt (coerceToPath args0);
  if negb (StdSet.empty context) then
    throw (mkError EvalError ("string `" ++ path ++ "' cannot refer to other paths"))
  else
    _ ← logEvent (EvReadFile path);
    s ← liftExt (readFile path);
    mret (makeStr s []).

(** [prim_toString]: the context collected by the coercion is a local
    variable that is not used again. *)
Definition prim_toString (args0 : Value) : M (World X) Value :=
  '(s, context) ← liftExt (EvalState_coerceToString args0 true false);
  mret (mkString s).

End Primitives.

(** ** Lists *)

(** The memory that holds the values: cells by address, and the first
    address not yet handed out. The elements of a list are [length]
    consecutive cells. *)
Record Heap : Type := mkHeap {
  cells : gmap addr Value;
  brk : addr
}.

(** The heap together with a ghost record of the addresses that
    [forceValue] was called on. *)
Record Memory : Type := mkMemory {
  heap : Heap;
  forced : list addr
}.

(** [EvalState::forceValue], which evaluates the thunk in a cell in place. *)
Class Forcer : Type := {
  forceValue : addr -> M Heap unit
}.

Definition readCell (a : addr) : M Memory Value := fun m =>
  match cells (heap m) !! a with
  | Some v => (Ok v, m)
  | None => (Throw (mkError StdException "invalid address"), m)
  end.

Definition writeCell (a : addr) (v : Value) : M Memory unit :=
  modifyState (fun m =>
    mkMemory (mkHeap (<[a := v]> (cells (heap m))) (brk (heap m))) (forced m)).

(** The fields [list.elems] and [list.length] of the cell at [a]. *)
Definition readList (a : addr) : M Memory (addr * nat) :=
  v ← readCell a;
  match v with
  | VList elems length => mret (elems, length)
  | _ => throw (mkError StdException "not a list")
  end.

Section Lists.
Context `{Forcer}.

Definition EvalState_forceValue (a : addr) : M Memory unit := fun m =>
  let (r, h) := forceValue a (heap m) in
  (r, mkMemory h (forced m ++ [a])).

(** Modelled from the spec: [forceList] is a member of [EvalState] defined
    outside this file; it forces the value and fails with a [TypeError]
    if the result is not a list. *)
Definition EvalState_forceList (a : addr) : M Memory unit :=
  _ ← EvalState_forceValue a;
  v ← readCell a;
  match v with
  | VList _ _ => mret tt
  | _ => throw (mkError TypeError "list expected")
  end.

(** Modelled from the spec: [forceFunction] forces the value and fails
    with a [TypeError] if the result is not a function. *)
Definition EvalState_forceFunction (a : addr) : M Memory unit :=
  _ ← EvalState_forceValue a;
  v ← readCell a;
  match v with
  | VLambda _ => mret tt
  | _ => throw (mkError TypeError "function expected")
  end.

(** Modelled from the spec: [mkList(v, length)] makes [v] a list of
    [length] fresh, consecutive cells. *)
Definition EvalState_mkList (v : addr) (length : nat) : M Memory unit := fun m =>
  let h := heap m in
  (Ok tt, mkMemory (mkHeap (<[v := VList (brk h) length]> (cells h))
                           (brk h + length))
                   (forced m)).

Definition prim_head (args0 v : addr) : M Memory unit :=
  _ ← EvalState_forceList args0;
  '(elems, length) ← readList args0;
  if Nat.eqb length 0 then
    throw (mkError Error "`head' called on an empty list")
  else
    _ ← EvalState_forceValue (elems + 0);
    '(elems, _) ← readList args0;
    x ← readCell (elems + 0);
    writeCell v x.

(** The loop of [prim_tail], [count] steps from index [n]. The bound
    [v.list.length] is read once, before the loop: the body writes to the
    fresh cells of the result only. *)
Fixpoint tailLoop (args0 v : addr) (count n : nat) : M Memory unit :=
  match count with
  | O => mret tt
  | S count' =>
      '(velems, _) ← readList v;
      '(elems, _) ← readList args0;
      x ← readCell (elems + (n + 1));
      _ ← writeCell (velems + n) x;
      tailLoop args0 v count' (n + 1)
  end.

Definition prim_tail (args0 v : addr) : M Memory unit :=
  _ ← EvalState_forceList args0;
  '(_, length) ← readList args0;
  if Nat.eqb length 0 then
    throw (mkError Error "`tail' called on an empty list")
  else
    _ ← EvalState_mkList v (length - 1);
    '(_, vlength) ← readList v;
    tailLoop args0 v vlength 0.

(** The loop of [prim_map]. *)
Fixpoint mapLoop (args0 args1 v : addr) (count n : nat) : M Memory unit :=
  match count with
  | O => mret tt
  | S count' =>
      '(velems, _) ← readList v;
      '(elems, _) ← readList args1;
      _ ← writeCell (velems + n) (VApp args0 (elems + n));
      mapLoop args0 args1 v count' (n + 1)
  end.

Definition prim_map (args0 args1 v : addr) : M Memory unit :=
  _ ← EvalState_forceFunction args0;
  _ ← EvalState_forceList args1;
  '(_, length) ← readList args1;
  _ ← EvalState_mkList v length;
  '(_, vlength) ← readList v;
  mapLoop args0 args1 v vlength 0.

(** [forceValue] works in place: it rewrites the cell it is given and
    no other cell that exists. *)
Definition forcesInPlace : Prop :=
  forall a h h', forceValue a h = (Ok tt, h') ->
    forall b, b <> a -> cells h' !! b = cells h !! b.

(** [forceValue] rewrites the cell it is given and may allocate cells,
    but it keeps every other cell that exists. *)
Definition keepsOtherCells : Prop :=
  forall a h h', forceValue a h = (Ok tt, h') ->
    brk h <= brk h'
    /\ forall b, b <> a -> b < brk h -> cells h' !! b = cells h !! b.

End Lists.


(** ** A small instance of the collaborators

    A store with three derivations, a hash library whose "hash" is the
    text itself, and an evaluator for expressions that are already values.
    The theorems below hold for every instance; this one serves to run the
    primitives on concrete inputs. *)
Module Sample.

Definition bytes_of (s : string) : list nat :=
  map nat_of_ascii (list_ascii_of_string s).
Definition text_of (bs : list nat) : string :=
  string_of_list_ascii (map ascii_of_nat bs).

Definition sizeOf (ht : HashType) : nat :=
  match ht with htUnknown => 0 | htMD5 => 16 | htSHA1 => 20 | htSHA256 => 32 end.

Definition typeName (ht : HashType) : string :=
  match ht with
  | htUnknown => "" | htMD5 => "md5" | htSHA1 => "sha1" | htSHA256 => "sha256"
  end.

#[global] Instance hashLib : HashLib := {|
  hashString ht s := mkHash ht (sizeOf ht) (bytes_of s);
  printHash h := text_of (hbytes h);
  parseHashType s :=
    if String.eqb s "md5" then htMD5
    else if String.eqb s "sha1" then htSHA1
    else if String.eqb s "sha256" then htSHA256
    else htUnknown;
  Hash_of_type ht := mkHash ht (sizeOf ht) (repeat 0 (sizeOf ht));
  hashLength32 h := (hashSize h * 8 - 1) / 5 + 1;
  parseHash ht s := Ok (mkHash ht (sizeOf ht) (bytes_of s));
  parseHash32 ht s := Ok (mkHash ht (sizeOf ht) (bytes_of s))
|}.

Definition unparse (d : Derivation) : string :=
  "Derive(" ++ String.concat "," (map fst (outputs d)) ++ ";"
  ++ String.concat "," (map fst (inputDrvs d)) ++ ";"
  ++ platform d ++ ";" ++ builder d ++ ";"
  ++ String.concat "," (args d) ++ ")".

(** A fetch with a declared hash, the same fetch through another builder,
    and a package that depends on the first. *)
Definition fetch : Derivation :=
  mkDerivation [("out", mkDerivationOutput "/nix/store/src" "sha256" "abcd")]
    [] [] "x86_64-linux" "/bin/curl" ["http://a"] [].
Definition fetch' : Derivation :=
  mkDerivation [("out", mkDerivationOutput "/nix/store/src" "sha256" "abcd")]
    [] [] "x86_64-linux" "/bin/wget" ["http://b"; "-q"] [("k", "v")].
Definition pkg : Derivation :=
  mkDerivation [("out", mkDerivationOutput "" "" "")]
    [("/nix/store/fetch.drv", ["out"])] [] "x86_64-linux" "/bin/sh" [] [].

#[global] Instance drvStore : DrvStore := {|
  ATerm := string;
  unparseDerivation := unparse;
  hashTerm t := mkHash htSHA256 32 (bytes_of t);
  derivationFromPath p :=
    if String.eqb p "/nix/store/fetch.drv" then Ok fetch
    else if String.eqb p "/nix/store/pkg.drv" then Ok pkg
    else Throw (mkError StoreError ("cannot read `" ++ p ++ "'"))
|}.

Definition hasSuffix (s suffix : string) : bool :=
  String.eqb
    (String.substring (String.length s - String.length suffix)
                      (String.length suffix) s)
    suffix
  && Nat.leb (String.length suffix) (String.length s).

(** The external state: the valid paths and the files of the file
    system. Building a derivation leaves the set of valid paths as it
    is. *)
Record Ext : Type := mkExt {
  validPaths : list Path;
  files : list (Path * string)
}.

Definition lookupFile (p : Path) (fs : list (Path * string)) : option string :=
  snd <$> List.find (fun f => String.eqb p (fst f)) fs.

#[global] Instance store : Store Ext := {|
  isStorePath p := String.prefix "/nix/store/" p;
  isDerivation s := hasSuffix s ".drv";
  drvExtension := ".drv";
  checkStoreName name :=
    if String.eqb name "" then Throw (mkError Error "empty store name")
    else Ok tt;
  makeFixedOutputPath recursive ht h name :=
    "/nix/store/" ++ typeName ht ++ "-" ++ text_of (hbytes h) ++ "-" ++ name;
  makeStorePath type h name := "/nix/store/" ++ type ++ "-" ++ name;
  isValidPath p := fun x =>
    (Ok (existsb (String.eqb p) (validPaths x)), x);
  buildDerivations ps := fun x => (Ok tt, x);
  computeFSClosure p := fun x => (Ok [p], x);
  writeDerivation d name := fun x =>
    let p := "/nix/store/" ++ name ++ ".drv" in
    (Ok p, mkExt (p :: validPaths x) (files x));
  pathExists p := fun x =>
    (Ok (match lookupFile p (files x) with Some _ => true | None => false end), x);
  readFile p := fun x =>
    match lookupFile p (files x) with
    | Some s => (Ok s, x)
    | None => (Throw (mkError StoreError ("opening file `" ++ p ++ "'")), x)
    end
|}.

Definition notAString {A} : M Ext A :=
  throw (mkError TypeError "cannot coerce this value to a string").

#[global] Instance evaluator : Evaluator Ext := {|
  showPos pos :=
    match pos with NoPos => "undefined position" | PosAt f _ _ => f end;
  evalExpr e := mret e;
  evalStringNoCtx e :=
    match e with Str s [] => mret s | _ => notAString end;
  coerceToString e coerceMore copyToStore :=
    match e with Str s c => mret (s, c) | _ => notAString end;
  coerceToPath e :=
    match e with Str s c => mret (s, c) | _ => notAString end;
  flattenList e :=
    match e with List es => mret es | _ => mret [e] end;
  EvalState_coerceToString v coerceMore copyToStore :=
    match v with
    | VString s c => mret (s, c)
    | VPath p => mret (p, [])
    | _ => notAString
    end;
  EvalState_coerceToPath v :=
    match v with
    | VString s c => mret (s, c)
    | VPath p => mret (p, [])
    | _ => notAString
    end;
  EvalState_evalFile p := mret VNull
|}.

(** A forcer whose thunks evaluate to the length of their code. *)
#[global] Instance forcer : Forcer := {|
  forceValue a := fun h =>
    match cells h !! a with
    | Some (VThunk code) =>
        (Ok tt, mkHeap (<[a := VInt (Z.of_nat (String.length code))]> (cells h))
                       (brk h))
    | Some VBlackhole => (Throw (mkError Error "infinite recursion encountered"), h)
    | Some _ => (Ok tt, h)
    | None => (Throw (mkError StdException "invalid address"), h)
    end
|}.

Definition world0 : World Ext :=
  mkWorld (mkExt ["/nix/store/fetch.drv"] [("/etc/motd", "hello")]) ∅ false [] [].

(** A function in cell 0, the list of three thunks (for 1, 2 and 3) in
    cell 1, with its elements in cells 2 to 4, and a cell for a result. *)
Definition memory0 : Memory :=
  mkMemory
    (mkHeap (list_to_map [(0, VLambda "x: x"); (1, VList 2 3);
                          (2, VThunk "a"); (3, VThunk "bb"); (4, VThunk "ccc");
                          (5, VNull)])
            6)
    [].

(** The same with an empty list in cell 1. *)
Definition memoryNil : Memory :=
  mkMemory (mkHeap (list_to_map [(0, VLambda "x: x"); (1, VList 2 0); (5, VNull)]) 6) [].

Definition binding (k : string) (e : Expr) : string * (Expr * Pos) :=
  (k, (e, NoPos)).

(** [{ name = "x"; builder = "/bin/sh"; system = "x86_64-linux"; }] with
    some further attributes. *)
Definition drvAttrs (more : list (string * (Expr * Pos))) : Expr :=
  Attrs ([binding "name" (Str "x" []);
          binding "builder" (Str "/bin/sh" []);
          binding "system" (Str "x86_64-linux" [])] ++ more).

End Sample.


(** ** Further primitives on terms *)

(** More of the evaluator proper (eval.cc), for the primitives below. *)
Class TermEvaluator (X : Type) : Type := {
  evalList : Expr -> M X (list Expr);
  (** the string and the paths added to the caller's context *)
  evalString : Expr -> M X (string * PathSet);
  evalInt : Expr -> M X Z
}.

(** More of the store, for [prim_toFile]; [readOnlyMode] is the global
    flag of globals.hh. *)
Class TextStore (X : Type) : Type := {
  readOnlyMode : bool;
  computeStorePathForText : string -> string -> PathSet -> Path;
  addTextToStore : string -> string -> PathSet -> M X Path
}.

Definition makeList (es : list Expr) : Expr := List es.

(** [if (p.at(0) == '=') p = "~" + string(p, 1)], for a path that is not
    empty. *)
Definition discardOutput (p : Path) : Path :=
  match p with
  | String c rest => if Ascii.eqb c "=" then String "~" rest else p
  | EmptyString => p
  end.

(** [if (path.at(0) == '=') path = string(path, 1)], likewise. *)
Definition stripEq (p : Path) : Path :=
  match p with
  | String c rest => if Ascii.eqb c "=" then rest else p
  | EmptyString => p
  end.

(** The path that the context loop of the constructor adds to the inputs
    for a path of the context: [=] is taken off first, then [~]. *)
Definition contextTarget (p : Path) : Path :=
  match stripEq p with
  | String c rest => if Ascii.eqb c "~" then rest else String c rest
  | EmptyString => EmptyString
  end.

(** [std::string(s, pos, n)] with [n] converted from [int]: it throws
    [std::out_of_range] when [pos] is beyond the end; a negative [n]
    becomes a huge unsigned number, so the copy runs to the end. *)
Definition string_sub (s : string) (pos : nat) (n : Z) : Res string :=
  if Nat.ltb (String.length s) pos then
    Throw (mkError StdException "basic_string::basic_string")
  else
    let rest := String.length s - pos in
    Ok (String.substring pos
          (if Z.ltb n 0 then rest else Nat.min (Z.to_nat n) rest) s).

(** [attrs.remove(k)] of [ATermMap]. *)
Definition ATermMap_remove (k : string) (m : ATermMap.t) : ATermMap.t :=
  List.filter (fun b => negb (String.eqb k b.1)) m.

Section TermPrimitives.
Context {X : Type} `{Store X} `{Evaluator X} `{TermEvaluator X} `{TextStore X}.

(** The loop of [prim_unsafeDiscardOutputDependency]. *)
Fixpoint discardLoop (context context2 : PathSet) : M (World X) PathSet :=
  match context with
  | [] => mret context2
  | i :: rest =>
      c ← at0 i;
      let p := if Ascii.eqb c "=" then "~" ++ drop1 i else i in
      discardLoop rest (StdSet.insert p context2)
  end.

Definition prim_unsafeDiscardOutputDependency (args0 : Expr) : M (World X) Expr :=
  '(s, context) ← liftExt (coerceToString args0 false true);
  context2 ← discardLoop context [];
  mret (makeStr s context2).

(** The loop of [prim_toFile] over the context of the contents. *)
Fixpoint toFileRefs (name : string) (context refs : PathSet) : M (World X) PathSet :=
  match context with
  | [] => mret refs
  | i :: rest =>
      c ← at0 i;
      let path := if Ascii.eqb c "=" then drop1 i else i in
      if isDerivation path then
        throw (mkError EvalError
                 ("in `toFile': the file `" ++ name
                  ++ "' cannot refer to derivation outputs"))
      else toFileRefs name rest (StdSet.insert path refs)
  end.

Definition prim_toFile (args0 args1 : Expr) : M (World X) Expr :=
  name ← liftExt (evalStringNoCtx args0);
  '(contents, context) ← liftExt (evalString args1);
  refs ← toFileRefs name context [];
  storePath ← (if readOnlyMode then mret (computeStorePathForText name contents refs)
               else liftExt (addTextToStore name contents refs));
  mret (makeStr storePath (StdSet.singleton storePath)).

Definition prim_substring (args0 args1 args2 : Expr) : M (World X) Expr :=
  start ← liftExt (evalInt args0);
  len ← liftExt (evalInt args1);
  '(s, context) ← liftExt (coerceToString args2 false true);
  if Z.ltb start 0 then
    throw (mkError EvalError "negative start position in `substring'")
  else
    sub ← liftRes (string_sub s (Z.to_nat start) len);
    mret (makeStr sub context).

(** The names of [prim_attrNames]: the keys, put into a [StringSet].
    (Here [queryAllAttrs] is called without positions; the keys are the
    same.) *)
Definition attrNameSet (attrs : ATermMap.t) : StringSet :=
  fold_left (fun names b => StdSet.insert b.1 names) attrs [].

Definition prim_attrNames (args0 : Expr) : M (World X) Expr :=
  e ← liftExt (evalExpr args0);
  attrs ← queryAllAttrs e;
  let names := attrNameSet attrs in
  (* the set is walked from its greatest element down, each name put in
     front of the list *)
  let list := fold_left (fun list i => makeStr i [] :: list) (rev names) [] in
  mret (makeList list).

(** The loop of [prim_removeAttrs]. *)
Fixpoint removeLoop (list : list Expr) (attrs : ATermMap.t) : M (World X) ATermMap.t :=
  match list with
  | [] => mret attrs
  | i :: rest =>
      k ← liftExt (evalStringNoCtx i);
      removeLoop rest (ATermMap_remove k attrs)
  end.

Definition prim_removeAttrs (args0 args1 : Expr) : M (World X) Expr :=
  e ← liftExt (evalExpr args0);
  attrs ← queryAllAttrs e;
  list ← liftExt (evalList args1);
  attrs ← removeLoop list attrs;
  mret (makeAttrs attrs).

(** The loop of [prim_intersectAttrs]. *)
Definition intersectLoop (as1 as2 : ATermMap.t) : ATermMap.t :=
  fold_left (fun res i =>
               match ATermMap.get i.1 as1 with
               | Some _ => ATermMap.set i.1 i.2 res
               | None => res
               end)
            as2 [].

Definition prim_intersectAttrs (args0 args1 : Expr) : M (World X) Expr :=
  e1 ← liftExt (evalExpr args0);
  as1 ← queryAllAttrs e1;
  e2 ← liftExt (evalExpr args1);
  as2 ← queryAllAttrs e2;
  mret (makeAttrs (intersectLoop as1 as2)).

(** The names that the elements of a list evaluate to, from left to
    right. *)
Fixpoint evalNames (es : list Expr) : M X (list string) :=
  match es with
  | [] => mret []
  | i :: rest =>
      k ← evalStringNoCtx i;
      ks ← evalNames rest;
      mret (k :: ks)
  end.

End TermPrimitives.

(** The entries of known type of [st] are entries of [st']. *)
Definition keepsKnown (st st' : gmap string Hash) : Prop :=
  forall p h, st !! p = Some h -> htype h <> htUnknown -> st' !! p = Some h.

(** [d'] is [d] with more inputs: the other fields are the same, and
    no input source or input derivation of [d] is missing from [d']. *)
Definition extendsInputs (d d' : Derivation) : Prop :=
  outputs d' = outputs d /\ platform d' = platform d /\ builder d' = builder d
  /\ args d' = args d /\ env d' = env d
  /\ (forall q, q ∈ inputSrcs d -> q ∈ inputSrcs d')
  /\ (forall q, q ∈ StdMap.keys (inputDrvs d) -> q ∈ StdMap.keys (inputDrvs d')).

(** Strictly ascending in the order of [std::string]. *)
Definition ascending (l : list string) : Prop :=
  Sorted.StronglySorted (fun a b => String.compare a b = Lt) l.

(** The sample instance, continued. *)
Module SampleTerms.

#[global] Instance termEvaluator : TermEvaluator Sample.Ext := {|
  evalList e :=
    match e with
    | List es => mret es
    | _ => throw (mkError TypeError "list expected")
    end;
  evalString e :=
    match e with Str s c => mret (s, c) | _ => Sample.notAString end;
  (* integers in unary: [Other "xxx"] is 3 and [Other "-x"] is -1 *)
  evalInt e :=
    match e with
    | Other (String "-" code) => mret (- Z.of_nat (String.length code))%Z
    | Other code => mret (Z.of_nat (String.length code))
    | _ => throw (mkError TypeError "integer expected")
    end
|}.

#[global] Instance textStore : TextStore Sample.Ext := {|
  readOnlyMode := true;
  computeStorePathForText name contents refs := "/nix/store/text-" ++ name;
  addTextToStore name contents refs := fun x =>
    let p := "/nix/store/text-" ++ name in
    (Ok p, Sample.mkExt (p :: Sample.validPaths x) (Sample.files x))
|}.

End SampleTerms.


(** ** What a call of the constructor goes through

    Names for the stages of [prim_derivationStrict], to state what a call
    returns in terms of the call itself. *)

Section ConstructorStages.
Context {X : Type} `{HashLib} `{DrvStore} `{Store X} `{Evaluator X}.

(** The call of the constructor on [args0] in the world [w] has evaluated
    its argument to an attribute set, has found and evaluated [name], and
    has left the loop over the attributes with the local variables [l], in
    the world [w1]. *)
Definition attributesDone (args0 : Expr) (w : World X) (l : Locals) (w1 : World X)
    : Prop :=
  exists attrs x1 eDrvName posDrvName drvName0 x2,
    evalExpr args0 (ext w) = (Ok (Attrs attrs), x1)
    /\ ATermMap.get "name" attrs = Some (eDrvName, posDrvName)
    /\ evalStringNoCtx eDrvName x1 = (Ok drvName0, x2)
    /\ processAttrs posDrvName attrs
         (mkLocals Derivation_empty [] "" "" false drvName0) (set_ext w x2)
       = (Ok l, w1).

(** The derivation [d] with the output "out" and the environment variable
    "out" given: with an empty path it is the masked derivation, with the
    output path the final one. *)
Definition withOut (d : Derivation) (outPath outputHashAlgo outputHash : string)
    : Derivation :=
  mkDerivation
    (StdMap.set "out" (mkDerivationOutput outPath outputHashAlgo outputHash) (outputs d))
    (inputDrvs d) (inputSrcs d) (platform d) (builder d) (args d)
    (StdMap.set "out" outPath (env d)).

(** The value [e] is coerced to the string [s] in whatever state the
    evaluator is. *)
Definition coercesTo (e : Expr) (s : string) : Prop :=
  forall x, exists c x', coerceToString e true true x = (Ok (s, c), x').

(** The attribute set binds [key] to a value that is coerced to [s]. *)
Definition supplies (attrs : ATermMap.t) (key s : string) : Prop :=
  exists e p, (key, (e, p)) ∈ attrs /\ coercesTo e s.

(** The local variable that the attribute [key] sets, read back as the
    string that sets it so. *)
Definition controlOf (key : string) (l : Locals) : string :=
  if String.eqb key "name" then drvName l
  else if String.eqb key "outputHash" then outputHash l
  else if String.eqb key "outputHashAlgo" then outputHashAlgo l
  else if String.eqb key "outputHashMode" then
    (if outputHashRecursive l then "recursive" else "flat")
  else "".

End ConstructorStages.

(** ** The walk of [import] over a context, in terms of the store *)

Section ImportStages.
Context {X : Type} `{Store X}.

(** [contextWalk ps x x'] holds when, from the store state [x], every path
    of [ps] in turn is a store path, is answered to be valid by
    [isValidPath], and, if it is a derivation, is then built by
    [buildDerivations] without an exception; [x'] is the state after the
    last of these calls. *)
Inductive contextWalk : list Path -> X -> X -> Prop :=
  | contextWalk_nil x : contextWalk [] x x
  | contextWalk_cons i rest x x1 x2 x3 :
      isStorePath i = true ->
      isValidPath i x = (Ok true, x1) ->
      (if isDerivation i
       then buildDerivations (StdSet.singleton i) x1 = (Ok tt, x2)
       else x2 = x1) ->
      contextWalk rest x2 x3 ->
      contextWalk (i :: rest) x x3.

End ImportStages.

(** The sample instance, continued: a store in which every build fails,
    and a forcer that allocates. *)
Module SampleMore.

Definition brokenBuilds : Store Sample.Ext := {|
  isStorePath := @isStorePath _ Sample.store;
  isDerivation := @isDerivation _ Sample.store;
  drvExtension := @drvExtension _ Sample.store;
  checkStoreName := @checkStoreName _ Sample.store;
  makeFixedOutputPath := @makeFixedOutputPath _ Sample.store;
  makeStorePath := @makeStorePath _ Sample.store;
  isValidPath := @isValidPath _ Sample.store;
  buildDerivations ps := throw (mkError Error "build failed");
  computeFSClosure := @computeFSClosure _ Sample.store;
  writeDerivation := @writeDerivation _ Sample.store;
  pathExists := @pathExists _ Sample.store;
  readFile := @readFile _ Sample.store
|}.

(** A forcer whose thunks evaluate to a list of one element, a thunk with
    the same code, in a cell that it allocates. *)
Definition lazyLists : Forcer := {|
  forceValue a := fun h =>
    match cells h !! a with
    | Some (VThunk code) =>
        (Ok tt, mkHeap (<[brk h := VThunk code]> (<[a := VList (brk h) 1]> (cells h)))
                       (brk h + 1))
    | Some VBlackhole => (Throw (mkError Error "infinite recursion encountered"), h)
    | Some _ => (Ok tt, h)
    | None => (Throw (mkError StdException "invalid address"), h)
    end
|}.

(** A list that is not evaluated yet in cell 1, another thunk in cell 3,
    and a cell for a result. *)
Definition memoryThunk : Memory :=
  mkMemory
    (mkHeap (list_to_map [(1, VThunk "l"); (3, VThunk "other"); (5, VNull)]) 6)
    [].

End SampleMore.

(** * Properties *)

(** ** Monad laws used below *)

Lemma Res_bind_Ok {A B} (r : Res A) (f : A -> Res B) (b : B) :
  r ≫= f = Ok b -> exists a, r = Ok a /\ f a = Ok b.
Proof. destruct r; simpl; intros Hr; try discriminate; eauto. Qed.

Lemma M_bind_Ok {S A B} (m : M S A) (f : A -> M S B) (s s' : S) (b : B) :
  (m ≫= f) s = (Ok b, s') ->
  exists a s1, m s = (Ok a, s1) /\ f a s1 = (Ok b, s').
Proof.
  unfold mbind, M_bind. destruct (m s) as [[a| |] s1]; intros Hm;
    try discriminate; eauto.
Qed.

Lemma M_bind_run {S A B} (m : M S A) (f : A -> M S B) (s s1 : S) (a : A) :
  m s = (Ok a, s1) -> (m ≫= f) s = f a s1.
Proof. unfold mbind, M_bind. intros ->. reflexivity. Qed.

Lemma M_bind_assoc {S A B C} (m : M S A) (f : A -> M S B) (g : B -> M S C) (s : S) :
  ((m ≫= f) ≫= g) s = (m ≫= (fun a => f a ≫= g)) s.
Proof. unfold mbind, M_bind. destruct (m s) as [[a| |] s1]; reflexivity. Qed.

(** ** The derivation hasher *)

Section HasherProperties.
Context `{HashLib} `{DrvStore}.

(** [isFixedOutput] says: exactly one output, named "out", with a
    non-empty hash. *)
Lemma isFixedOutput_spec (drv : Derivation) :
  isFixedOutput drv = true <->
  exists o, outputs drv = [("out", o)] /\ hash o <> "".
Proof.
  unfold isFixedOutput. split.
  - destruct (outputs drv) as [|[k o] [|? ?]]; simpl; try discriminate.
    intros Hb. apply andb_true_iff in Hb as [Hk Hh].
    apply String.eqb_eq in Hk as ->. exists o. split; [reflexivity|].
    intros Hne. rewrite Hne in Hh. discriminate.
  - intros (o & -> & Hne). simpl.
    destruct (String.eqb_spec (hash o) ""); [contradiction | reflexivity].
Qed.

Lemma hashDerivationModulo_fixed (drv : Derivation) (o : DerivationOutput) fuel st :
  outputs drv = [("out", o)] -> hash o <> "" ->
  hashDerivationModulo (S fuel) drv st =
    (Ok (hashString htSHA256
           ("fixed:out:" ++ hashAlgo o ++ ":" ++ hash o ++ ":" ++ path o)), st).
Proof.
  intros Ho Hne.
  assert (Hfix : isFixedOutput drv = true) by (apply isFixedOutput_spec; eauto).
  simpl. rewrite Hfix, Ho. reflexivity.
Qed.

(** C1. A fixed-output derivation (one output, "out", with a non-empty
    hash) hashes to sha256 of "fixed:out:<hashAlgo>:<hash>:<path>", the
    cache untouched; so two fixed-output derivations whose outputs agree
    on hashAlgo, hash and path have the same hash, whatever their builder,
    arguments, environment and inputs, and whatever the cache holds. *)
Theorem hashDerivationModulo_fixed_output :
  forall (d1 d2 : Derivation) (o1 o2 : DerivationOutput),
    outputs d1 = [("out", o1)] -> hash o1 <> "" ->
    outputs d2 = [("out", o2)] ->
    hashAlgo o1 = hashAlgo o2 -> hash o1 = hash o2 -> path o1 = path o2 ->
    forall fuel1 fuel2 st1 st2,
      hashDerivationModulo (S fuel1) d1 st1 =
        (Ok (hashString htSHA256
               ("fixed:out:" ++ hashAlgo o1 ++ ":" ++ hash o1 ++ ":" ++ path o1)), st1)
      /\ fst (hashDerivationModulo (S fuel1) d1 st1) =
         fst (hashDerivationModulo (S fuel2) d2 st2).
Proof.
  intros d1 d2 o1 o2 H1 Hne H2 Ha Hh Hp fuel1 fuel2 st1 st2.
  rewrite (hashDerivationModulo_fixed d1 o1) by assumption.
  rewrite (hashDerivationModulo_fixed d2 o2) by (try assumption; congruence).
  split; [reflexivity|]. simpl. congruence.
Qed.

(** *** Fuel *)

Lemma hashInputs_spec_mono (self self' : Derivation -> Res Hash) :
  (forall d h, self d = Ok h -> self' d = Ok h) ->
  forall inputs acc r,
    hashInputs_spec self inputs acc = Ok r ->
    hashInputs_spec self' inputs acc = Ok r.
Proof.
  intros Hsub inputs. induction inputs as [|[p outs] rest IH]; intros acc r; simpl.
  - auto.
  - intros Hr. apply Res_bind_Ok in Hr as (d & -> & Hr).
    apply Res_bind_Ok in Hr as (h & Hh & Hr). simpl.
    rewrite (Hsub _ _ Hh). simpl. auto.
Qed.

Lemma hashDerivationModulo_spec_eq n d :
  hashDerivationModulo_spec (S n) d =
    if isFixedOutput d then
      match outputs d with
      | (_, i) :: _ =>
          Ok (hashString htSHA256
                ("fixed:out:" ++ hashAlgo i ++ ":" ++ hash i ++ ":" ++ path i))
      | [] => Ok Hash_default
      end
    else
      inputs2 ← hashInputs_spec (hashDerivationModulo_spec n) (inputDrvs d) [];
      Ok (hashTerm (unparseDerivation (set_inputDrvs d inputs2))).
Proof. reflexivity. Qed.

Lemma hashDerivationModulo_eq n d :
  hashDerivationModulo (S n) d =
    if isFixedOutput d then
      match outputs d with
      | (_, i) :: _ =>
          mret (hashString htSHA256
                  ("fixed:out:" ++ hashAlgo i ++ ":" ++ hash i ++ ":" ++ path i))
      | [] => mret Hash_default
      end
    else
      inputs2 ← hashInputs (hashDerivationModulo n) (inputDrvs d) [];
      mret (hashTerm (unparseDerivation (set_inputDrvs d inputs2))).
Proof. reflexivity. Qed.

Lemma hashDerivationModulo_spec_S n :
  forall d h, hashDerivationModulo_spec n d = Ok h ->
              hashDerivationModulo_spec (S n) d = Ok h.
Proof.
  induction n as [|n IH]; intros d h; [discriminate|].
  rewrite (hashDerivationModulo_spec_eq n), (hashDerivationModulo_spec_eq (S n)).
  destruct (isFixedOutput d); [auto|].
  intros Hn. apply Res_bind_Ok in Hn as (i2 & Hi & Hn).
  rewrite (hashInputs_spec_mono _ _ IH _ _ _ Hi). exact Hn.
Qed.

Lemma hashDerivationModulo_spec_mono n m d h :
  n <= m -> hashDerivationModulo_spec n d = Ok h ->
  hashDerivationModulo_spec m d = Ok h.
Proof.
  induction 1 as [|m Hle IH]; [auto|].
  intros Hn. apply hashDerivationModulo_spec_S. auto.
Qed.

Lemma hashDerivationModulo_spec_det n m d h h' :
  hashDerivationModulo_spec n d = Ok h ->
  hashDerivationModulo_spec m d = Ok h' -> h = h'.
Proof.
  intros Hn Hm.
  apply (hashDerivationModulo_spec_mono n (Nat.max n m)) in Hn; [|lia].
  apply (hashDerivationModulo_spec_mono m (Nat.max n m)) in Hm; [|lia].
  congruence.
Qed.


(** *** The cache is an optimisation *)

Lemma cache_ok_spec_empty : cache_ok_spec ∅.
Proof. intros p h Hp. rewrite lookup_empty in Hp. discriminate. Qed.

Lemma cache_ok_spec_insert st p h :
  cache_ok_spec st ->
  (htype h <> htUnknown ->
   exists drv n, derivationFromPath p = Ok drv /\
                 hashDerivationModulo_spec n drv = Ok h) ->
  cache_ok_spec (<[p := h]> st).
Proof.
  intros Hst Hh q h' Hq Hty. destruct (decide (p = q)) as [->|Hne].
  - rewrite lookup_insert_eq in Hq. injection Hq as <-. auto.
  - rewrite lookup_insert_ne in Hq by assumption. eauto.
Qed.

(** One step of the loop: the hash used for input [p] is the hash-modulo
    of the derivation stored at [p], from the cache or computed. *)
Lemma hashInputs_step_complete (self : Derivation -> M (gmap string Hash) Hash)
    n p drv2 h st :
  (forall d h st, cache_ok_spec st -> hashDerivationModulo_spec n d = Ok h ->
     exists st', self d st = (Ok h, st') /\ cache_ok_spec st') ->
  cache_ok_spec st ->
  derivationFromPath p = Ok drv2 ->
  hashDerivationModulo_spec n drv2 = Ok h ->
  exists st',
    (h0 ← drvHashes_index p;
     if decide (htype h0 = htUnknown) then
       drv2 ← liftRes (derivationFromPath p);
       h ← self drv2;
       _ ← drvHashes_assign p h;
       mret h
     else mret h0) st = (Ok h, st') /\ cache_ok_spec st'.
Proof.
  intros Hself Hst Hp Hh.
  assert (Hmiss : forall st0, cache_ok_spec st0 ->
    exists st',
      (drv2 ← liftRes (derivationFromPath p);
       h ← self drv2;
       _ ← drvHashes_assign p h;
       mret h) st0 = (Ok h, st') /\ cache_ok_spec st').
  { intros st0 Hst0. destruct (Hself _ _ _ Hst0 Hh) as (st1 & Hrun & Hst1).
    exists (<[p := h]> st1). split.
    - unfold mbind, M_bind, liftRes. rewrite Hp, Hrun. reflexivity.
    - apply cache_ok_spec_insert; eauto. }
  unfold mbind at 1, M_bind at 1, drvHashes_index.
  destruct (st !! p) as [h0|] eqn:Hlook.
  - destruct (decide (htype h0 = htUnknown)) as [Hty|Hty]; [auto|].
    destruct (Hst _ _ Hlook Hty) as (d & m & Hd & Hm).
    assert (d = drv2) by congruence. subst d.
    rewrite (hashDerivationModulo_spec_det _ _ _ _ _ Hm Hh).
    exists st. auto.
  - simpl. apply Hmiss. apply cache_ok_spec_insert; [assumption|].
    intros Hty. contradiction Hty. reflexivity.
Qed.

Lemma hashInputs_complete (self : Derivation -> M (gmap string Hash) Hash) n :
  (forall d h st, cache_ok_spec st -> hashDerivationModulo_spec n d = Ok h ->
     exists st', self d st = (Ok h, st') /\ cache_ok_spec st') ->
  forall inputs acc r st,
    cache_ok_spec st ->
    hashInputs_spec (hashDerivationModulo_spec n) inputs acc = Ok r ->
    exists st', hashInputs self inputs acc st = (Ok r, st') /\ cache_ok_spec st'.
Proof.
  intros Hself inputs.
  induction inputs as [|[p outs] rest IH]; intros acc r st Hst; simpl.
  - intros [= <-]. eauto.
  - intros Hr. apply Res_bind_Ok in Hr as (d & Hd & Hr).
    apply Res_bind_Ok in Hr as (h & Hh & Hr).
    destruct (hashInputs_step_complete self n p d h st Hself Hst Hd Hh)
      as (st1 & Hstep & Hst1).
    destruct (IH _ _ _ Hst1 Hr) as (st2 & Hrest & Hst2).
    exists st2. split; [|assumption].
    rewrite <- Hrest.
    rewrite <- (M_bind_run _
      (fun h => hashInputs self rest (StdMap.set (printHash h) outs acc)) _ _ _ Hstep).
    symmetry. apply M_bind_assoc.
Qed.

Lemma hashDerivationModulo_complete n :
  forall d h st, cache_ok_spec st -> hashDerivationModulo_spec n d = Ok h ->
    exists st', hashDerivationModulo n d st = (Ok h, st') /\ cache_ok_spec st'.
Proof.
  induction n as [|n IH]; intros d h st Hst; [discriminate|].
  rewrite hashDerivationModulo_spec_eq, hashDerivationModulo_eq.
  destruct (isFixedOutput d).
  - destruct (outputs d) as [|[k o] ?]; intros [= <-]; eauto.
  - intros Hr. apply Res_bind_Ok in Hr as (i2 & Hi & [= <-]).
    destruct (hashInputs_complete _ n IH _ _ _ _ Hst Hi) as (st' & Hrun & Hst').
    exists st'. split; [|assumption].
    rewrite (M_bind_run _ _ _ _ _ Hrun). reflexivity.
Qed.

Lemma drvHashes_index_inv p st h0 s1 :
  drvHashes_index p st = (h0, s1) ->
  (st !! p = None /\ h0 = Ok Hash_default /\ s1 = <[p := Hash_default]> st) \/
  (exists h, st !! p = Some h /\ h0 = Ok h /\ s1 = st).
Proof.
  unfold drvHashes_index. destruct (st !! p) as [h|]; intros [= <- <-]; eauto.
Qed.

Lemma hashInputs_step_sound (self : Derivation -> M (gmap string Hash) Hash)
    p h st st' :
  (forall d h st st', cache_ok_spec st -> self d st = (Ok h, st') ->
     (exists m, hashDerivationModulo_spec m d = Ok h) /\ cache_ok_spec st') ->
  cache_ok_spec st ->
  (h0 ← drvHashes_index p;
   if decide (htype h0 = htUnknown) then
     drv2 ← liftRes (derivationFromPath p);
     h ← self drv2;
     _ ← drvHashes_assign p h;
     mret h
   else mret h0) st = (Ok h, st') ->
  (exists d m, derivationFromPath p = Ok d /\
               hashDerivationModulo_spec m d = Ok h) /\ cache_ok_spec st'.
Proof.
  intros Hself Hst Hrun.
  apply M_bind_Ok in Hrun as (h0 & s1 & Hidx & Hrun).
  assert (Hs1 : cache_ok_spec s1).
  { apply drvHashes_index_inv in Hidx as [(_ & _ & ->)|(? & _ & _ & ->)];
      [|assumption].
    apply cache_ok_spec_insert; [assumption|]. intros Hty. contradiction Hty.
    reflexivity. }
  destruct (decide (htype h0 = htUnknown)) as [Hty|Hty].
  - apply M_bind_Ok in Hrun as (d & s2 & Hd & Hrun).
    unfold liftRes in Hd. injection Hd as Hd <-.
    apply M_bind_Ok in Hrun as (h1 & s3 & Hh1 & Hrun).
    apply M_bind_Ok in Hrun as ([] & s4 & Hset & Hrun).
    injection Hset as <-. injection Hrun as <- <-.
    destruct (Hself _ _ _ _ Hs1 Hh1) as ((m & Hm) & Hs3).
    split; [eauto|]. apply cache_ok_spec_insert; eauto.
  - injection Hrun as <- <-. split; [|assumption].
    apply drvHashes_index_inv in Hidx as [(_ & [= ->] & _)|(h1 & Hl & [= <-] & _)].
    + contradiction Hty. reflexivity.
    + exact (Hst _ _ Hl Hty).
Qed.

Lemma hashInputs_sound (self : Derivation -> M (gmap string Hash) Hash) :
  (forall d h st st', cache_ok_spec st -> self d st = (Ok h, st') ->
     (exists m, hashDerivationModulo_spec m d = Ok h) /\ cache_ok_spec st') ->
  forall inputs acc r st st',
    cache_ok_spec st ->
    hashInputs self inputs acc st = (Ok r, st') ->
    (exists m, hashInputs_spec (hashDerivationModulo_spec m) inputs acc = Ok r)
    /\ cache_ok_spec st'.
Proof.
  intros Hself inputs.
  induction inputs as [|[p outs] rest IH]; intros acc r st st' Hst; simpl.
  - intros [= <- <-]. split; [exists 0; reflexivity | assumption].
  - intros Hrun.
    rewrite <- (M_bind_assoc (drvHashes_index p) _
      (fun h => hashInputs self rest (StdMap.set (printHash h) outs acc))) in Hrun.
    apply M_bind_Ok in Hrun as (h & s1 & Hstep & Hrest).
    destruct (hashInputs_step_sound self p h st s1 Hself Hst Hstep)
      as ((d & m1 & Hd & Hm1) & Hs1).
    destruct (IH _ _ _ _ Hs1 Hrest) as ((m2 & Hm2) & Hst').
    split; [|assumption]. exists (Nat.max m1 m2). rewrite Hd. simpl.
    rewrite (hashDerivationModulo_spec_mono m1 (Nat.max m1 m2) d h) by (lia || auto).
    simpl. apply (hashInputs_spec_mono (hashDerivationModulo_spec m2)); [|assumption].
    intros d' h'. apply hashDerivationModulo_spec_mono. lia.
Qed.

Lemma hashDerivationModulo_sound n :
  forall d h st st', cache_ok_spec st -> hashDerivationModulo n d st = (Ok h, st') ->
    (exists m, hashDerivationModulo_spec m d = Ok h) /\ cache_ok_spec st'.
Proof.
  induction n as [|n IH]; intros d h st st' Hst; [discriminate|].
  rewrite hashDerivationModulo_eq.
  destruct (isFixedOutput d) eqn:Hfix.
  - intros Hrun. split.
    + exists 1. rewrite hashDerivationModulo_spec_eq, Hfix.
      destruct (outputs d) as [|[k o] ?]; injection Hrun as <- _; reflexivity.
    + destruct (outputs d) as [|[k o] ?]; injection Hrun as _ <-; assumption.
  - intros Hrun. apply M_bind_Ok in Hrun as (i2 & s1 & Hi & [= <- <-]).
    destruct (hashInputs_sound _ IH _ _ _ _ _ Hst Hi) as ((m & Hm) & Hs1).
    split; [|assumption]. exists (S m).
    rewrite hashDerivationModulo_spec_eq, Hfix, Hm. reflexivity.
Qed.

(** The two notions of a correct cache agree. *)
Lemma cache_ok_iff st : cache_ok st <-> cache_ok_spec st.
Proof.
  split; intros Hst p h Hp Hty; destruct (Hst p h Hp Hty) as (d & n & Hrest).
  - destruct Hrest as (st' & Hd & Hrun).
    destruct (hashDerivationModulo_sound _ _ _ _ _ cache_ok_spec_empty Hrun)
      as ((m & Hm) & _). eauto.
  - destruct Hrest as (Hd & Hn).
    destruct (hashDerivationModulo_complete _ _ _ _ cache_ok_spec_empty Hn)
      as (st' & Hrun & _). eauto.
Qed.

(** *** Termination *)

Lemma hashInputs_spec_total :
  forall inputs : list (Path * StringSet),
    (forall q, q ∈ StdMap.keys inputs ->
       exists d n h, derivationFromPath q = Ok d /\
                     hashDerivationModulo_spec n d = Ok h) ->
    forall acc, exists n r,
      hashInputs_spec (hashDerivationModulo_spec n) inputs acc = Ok r.
Proof.
  induction inputs as [|[p outs] rest IH]; intros Hall acc; simpl.
  - exists 0. eauto.
  - destruct (Hall p) as (d & n1 & h & Hd & Hh); [left|].
    destruct (IH (fun q Hq => Hall q (list_elem_of_further _ _ _ Hq))
                 (StdMap.set (printHash h) outs acc)) as (n2 & r & Hr).
    exists (Nat.max n1 n2), r. rewrite Hd. simpl.
    rewrite (hashDerivationModulo_spec_mono n1 (Nat.max n1 n2) d h) by (lia || auto).
    simpl. apply (hashInputs_spec_mono (hashDerivationModulo_spec n2)); [|assumption].
    intros d' h'. apply hashDerivationModulo_spec_mono. lia.
Qed.

Lemma hashDerivationModulo_spec_total drv :
  hashable drv -> exists n h, hashDerivationModulo_spec n drv = Ok h.
Proof.
  induction 1 as [drv Hfix | drv Hload _ IH].
  - exists 1. rewrite hashDerivationModulo_spec_eq, Hfix.
    destruct (outputs drv) as [|[k o] ?]; eauto.
  - destruct (hashInputs_spec_total (inputDrvs drv)) with (acc := @nil (string * StdSet.t))
      as (n & r & Hr).
    { intros q Hq. destruct (Hload q Hq) as (d & Hd).
      destruct (IH q d Hq Hd) as (n & h & Hh). eauto. }
    exists (S n). rewrite hashDerivationModulo_spec_eq, Hr.
    destruct (isFixedOutput drv); [destruct (outputs drv) as [|[k o] ?]|]; eauto.
Qed.

(** The loop replaces the keys one by one. *)
Lemma hashInputs_spec_replaceKeys (self : Derivation -> Res Hash) :
  forall inputs acc r,
    hashInputs_spec self inputs acc = Ok r ->
    exists hs,
      Forall2 (fun i hi => exists d, derivationFromPath i.1 = Ok d /\ self d = Ok hi)
              inputs hs
      /\ r = replaceKeys inputs hs acc.
Proof.
  induction inputs as [|[p outs] rest IH]; intros acc r; simpl.
  - intros [= <-]. exists []. split; [constructor | reflexivity].
  - intros Hr. apply Res_bind_Ok in Hr as (d & Hd & Hr).
    apply Res_bind_Ok in Hr as (h & Hh & Hr).
    destruct (IH _ _ Hr) as (hs & Hall & ->).
    exists (h :: hs). split; [|reflexivity].
    constructor; [simpl; eauto | assumption].
Qed.

(** C2. For a derivation that is not fixed-output and whose input closure
    is in the store, there are hashes [hs], one per entry of [inputDrvs]
    and each the [hashDerivationModulo] of the derivation stored at that
    entry's key, such that [hashDerivationModulo] returns the hash of the
    serialisation of the derivation whose [inputDrvs] are the old ones
    with those keys replaced by [printHash] of the hashes, and whose other
    fields are those of the derivation. With enough fuel the call
    returns, and it returns that same hash from the empty cache and from
    every correct cache (and leaves the cache correct). *)
Theorem hashDerivationModulo_modulo_inputs :
  forall drv : Derivation,
    isFixedOutput drv = false ->
    hashable drv ->
    exists (hs : list Hash) (h : Hash),
      Forall2 (fun i hi => exists d n st',
                 derivationFromPath i.1 = Ok d /\
                 hashDerivationModulo n d ∅ = (Ok hi, st'))
              (inputDrvs drv) hs
      /\ h = hashTerm (unparseDerivation
                         (mkDerivation (outputs drv)
                            (replaceKeys (inputDrvs drv) hs [])
                            (inputSrcs drv) (platform drv) (builder drv)
                            (args drv) (env drv)))
      /\ (exists n, forall m st, n <= m -> cache_ok st ->
            exists st', hashDerivationModulo m drv st = (Ok h, st') /\ cache_ok st')
      /\ (exists n st', hashDerivationModulo n drv ∅ = (Ok h, st'))
      /\ (forall n st h' st', cache_ok st ->
            hashDerivationModulo n drv st = (Ok h', st') -> h' = h).
Proof.
  intros drv Hfix Hable.
  destruct (hashDerivationModulo_spec_total drv Hable) as ([|n] & h & Hh);
    [discriminate|].
  assert (Hh' := Hh). rewrite hashDerivationModulo_spec_eq, Hfix in Hh'.
  apply Res_bind_Ok in Hh' as (i2 & Hi & [= <-]).
  destruct (hashInputs_spec_replaceKeys _ _ _ _ Hi) as (hs & Hall & ->).
  exists hs, (hashTerm (unparseDerivation
                (set_inputDrvs drv (replaceKeys (inputDrvs drv) hs [])))).
  split; [|split; [unfold set_inputDrvs; reflexivity|split; [|split]]].
  - eapply Forall2_impl; [exact Hall|]. intros i hi (d & Hd & Hhi).
    destruct (hashDerivationModulo_complete _ _ _ _ cache_ok_spec_empty Hhi)
      as (st' & Hrun & _). eauto.
  - exists (S n). intros m st Hle Hst. apply cache_ok_iff in Hst.
    destruct (hashDerivationModulo_complete m drv _ st Hst
                (hashDerivationModulo_spec_mono _ _ _ _ Hle Hh)) as (st' & Hrun & Hst').
    exists st'. split; [assumption|]. apply cache_ok_iff. assumption.
  - destruct (hashDerivationModulo_complete _ _ _ _ cache_ok_spec_empty Hh)
      as (st' & Hrun & _). eauto.
  - intros m st h' st' Hst Hrun. apply cache_ok_iff in Hst.
    destruct (hashDerivationModulo_sound _ _ _ _ _ Hst Hrun) as ((k & Hk) & _).
    exact (hashDerivationModulo_spec_det _ _ _ _ _ Hk Hh).
Qed.

End HasherProperties.

(** ** Ordered maps *)

Lemma String_compare_neq (k k' : string) :
  String.compare k k' <> Eq -> String.eqb k k' = false.
Proof.
  intros Hne. destruct (String.eqb_spec k k') as [->|]; [|reflexivity].
  contradiction Hne. pose proof (String.compare_antisym k' k') as Ha.
  destruct (String.compare k' k'); simpl in Ha; congruence.
Qed.

Lemma StdMap_get_set_eq {V} (k : string) (v : V) (m : StdMap.t V) :
  StdMap.get k (StdMap.set k v m) = Some v.
Proof.
  induction m as [|[k' v'] rest IH]; simpl.
  - rewrite String.eqb_refl. reflexivity.
  - destruct (String.compare k k') eqn:Hc; simpl.
    + rewrite String.eqb_refl. reflexivity.
    + rewrite String.eqb_refl. reflexivity.
    + rewrite String_compare_neq by congruence. exact IH.
Qed.

(** ** Lifting *)

Lemma liftExt_Ok {X A} (m : M X A) (w w' : World X) (a : A) :
  liftExt m w = (Ok a, w') ->
  exists x', m (ext w) = (Ok a, x') /\ w' = set_ext w x'.
Proof.
  unfold liftExt. destruct (m (ext w)) as [r x']. intros [= -> <-]. eauto.
Qed.

Lemma liftExt_run {X A} (m : M X A) (w : World X) r x' :
  m (ext w) = (r, x') -> liftExt m w = (r, set_ext w x').
Proof. unfold liftExt. intros ->. reflexivity. Qed.

Lemma liftHashes_Ok {X A} (m : M (gmap string Hash) A) (w w' : World X) (a : A) :
  liftHashes m w = (Ok a, w') ->
  exists c, m (drvHashes w) = (Ok a, c) /\
            w' = mkWorld (ext w) c (haveWarned w) (stderr w) (trace w).
Proof.
  unfold liftHashes. destruct (m (drvHashes w)) as [r c]. intros [= -> <-]. eauto.
Qed.

(** ** The derivation constructor *)

Section ConstructorProperties.
Context {X : Type} `{HashLib} `{DrvStore} `{Store X} `{Evaluator X}.

(** *** The [args] attribute *)

Lemma coerceArgs_spec (es : list Expr) :
  forall (l : Locals) (w : World X) scs x',
    coerceList es (ext w) = (Ok scs, x') ->
    exists l', coerceArgs es l w = (Ok l', set_ext w x')
               /\ args (drv l') = (args (drv l) ++ map fst scs)%list
               /\ env (drv l') = env (drv l).
Proof.
  induction es as [|e es IH]; intros l w scs x'; simpl.
  - intros [= <- <-]. exists l. destruct w. rewrite app_nil_r. auto.
  - intros Hrun. apply M_bind_Ok in Hrun as ([s c] & x1 & He & Hrun).
    apply M_bind_Ok in Hrun as (scs' & x2 & Hes & [= <- <-]).
    destruct (IH (set_drv (add_context l c) (push_arg s (drv l)))
                 (set_ext w x1) scs' x2 Hes) as (l' & Hl' & Hargs & Henv).
    exists l'. split; [|split].
    + rewrite (M_bind_run _ _ _ _ _ (liftExt_run _ _ _ _ He)). exact Hl'.
    + rewrite Hargs. simpl. rewrite <- app_assoc. reflexivity.
    + rewrite Henv. reflexivity.
Qed.

(** *** Warnings *)

Lemma keeps_ret {A} (a : A) : keepsWarnedOnce (mret a : M (World X) A).
Proof. intros w r w' Hw [= _ <-]. exact Hw. Qed.

Lemma keeps_throw {A} (e : Exn) : keepsWarnedOnce (throw e : M (World X) A).
Proof. intros w r w' Hw [= _ <-]. exact Hw. Qed.

Lemma keeps_bind {A B} (m : M (World X) A) (f : A -> M (World X) B) :
  keepsWarnedOnce m -> (forall a, keepsWarnedOnce (f a)) ->
  keepsWarnedOnce (m ≫= f).
Proof.
  intros Hm Hf w r w' Hw. unfold mbind, M_bind.
  destruct (m w) as [[a|e|] w1] eqn:Hrun.
  - apply (Hf a). exact (Hm _ _ _ Hw Hrun).
  - intros [= _ <-]. exact (Hm _ _ _ Hw Hrun).
  - intros [= _ <-]. exact (Hm _ _ _ Hw Hrun).
Qed.

Lemma keeps_liftExt {A} (m : M X A) : keepsWarnedOnce (liftExt m).
Proof.
  intros w r w' Hw. unfold liftExt. destruct (m (ext w)) as [r' x].
  intros [= _ <-]. exact Hw.
Qed.

Lemma keeps_liftHashes {A} (m : M (gmap string Hash) A) :
  keepsWarnedOnce (X := X) (liftHashes m).
Proof.
  intros w r w' Hw. unfold liftHashes. destruct (m (drvHashes w)) as [r' x].
  intros [= _ <-]. exact Hw.
Qed.

Lemma keeps_liftRes {A} (r : Res A) : keepsWarnedOnce (liftRes r : M (World X) A).
Proof. intros w r' w' Hw [= _ <-]. exact Hw. Qed.

Lemma keeps_withPrefix {A} (f : Exn -> Exn) (m : M (World X) A) :
  keepsWarnedOnce m -> keepsWarnedOnce (withPrefix f m).
Proof.
  intros Hm w r w' Hw. unfold withPrefix.
  destruct (m w) as [[a|e|] w1] eqn:Hrun; intros [= _ <-];
    exact (Hm _ _ _ Hw Hrun).
Qed.

Lemma keeps_warnOnce :
  keepsWarnedOnce (X := X)
    (warnOnce "the `args' attribute should evaluate to a list").
Proof.
  intros w r w' Hw [= _ <-]. unfold warnedOnce, warned in *.
  destruct (haveWarned w) eqn:Hflag; simpl; [rewrite Hflag; exact Hw|].
  rewrite count_occ_app.
  rewrite (count_occ_cons_eq string_dec _ (eq_refl argsWarning)). simpl. lia.
Qed.

Lemma keeps_at0 (p : string) : keepsWarnedOnce (X := X) (at0 p).
Proof. destruct p; [apply keeps_throw | apply keeps_ret]. Qed.

Create HintDb keeps.
#[local] Hint Resolve keeps_ret keeps_throw keeps_liftExt keeps_liftHashes
  keeps_liftRes keeps_withPrefix keeps_warnOnce keeps_at0 : keeps.

Ltac keeps_step :=
  first
    [ apply keeps_bind; [|intros ?]
    | apply keeps_withPrefix
    | progress auto with keeps
    | match goal with
      | |- keepsWarnedOnce (if ?b then _ else _) => destruct b
      | |- keepsWarnedOnce (match ?o with Some _ => _ | None => _ end) => destruct o
      | |- keepsWarnedOnce (match ?p with (_, _) => _ end) => destruct p
      | |- keepsWarnedOnce (let '(_, _) := ?p in _) => destruct p
      end ].

Lemma keeps_coerceArgs es : forall l, keepsWarnedOnce (coerceArgs es l).
Proof.
  induction es as [|e es IH]; intros l; simpl; [auto with keeps|].
  apply keeps_bind; [auto with keeps|]. intros [s c]. apply IH.
Qed.

Lemma keeps_processAttr pos binding l : keepsWarnedOnce (processAttr pos binding l).
Proof.
  destruct binding as [key [value p]]. unfold processAttr.
  apply keeps_withPrefix. destruct (String.eqb key "args").
  - unfold processArgs. apply keeps_bind; [auto with keeps|]. intros v.
    apply keeps_bind; [|intros es; apply keeps_coerceArgs].
    destruct (matchList v); repeat keeps_step.
  - unfold processEnv. repeat keeps_step.
Qed.

Lemma keeps_processAttrs pos attrs : forall l, keepsWarnedOnce (processAttrs pos attrs l).
Proof.
  induction attrs as [|b rest IH]; intros l; simpl; [auto with keeps|].
  apply keeps_bind; [apply keeps_processAttr | intros l'; apply IH].
Qed.

Lemma keeps_processContext paths : forall d, keepsWarnedOnce (processContext paths d).
Proof.
  induction paths as [|p rest IH]; intros d; simpl; [auto with keeps|].
  apply keeps_bind; [|intros d'; apply IH].
  unfold processContextPath. repeat keeps_step.
Qed.

Lemma keeps_instantiate fuel l : keepsWarnedOnce (instantiate fuel l).
Proof.
  unfold instantiate. apply keeps_bind; [apply keeps_processContext|].
  intros d. unfold checkOutputHash, drvHashes_assign. repeat keeps_step.
Qed.

Lemma keeps_prim_derivationStrict fuel args0 :
  keepsWarnedOnce (prim_derivationStrict fuel args0).
Proof.
  unfold prim_derivationStrict, queryAllAttrs.
  apply keeps_bind; [auto with keeps|]. intros e.
  apply keeps_bind; [destruct e; auto with keeps|]. intros attrs.
  destruct (ATermMap.get "name" attrs) as [[eName pos]|]; [|auto with keeps].
  apply keeps_bind; [auto with keeps|]. intros name.
  apply keeps_bind; [apply keeps_processAttrs|]. intros l.
  apply keeps_instantiate.
Qed.

Lemma keeps_runCalls calls :
  forall w, warnedOnce w -> warnedOnce (runCalls calls w).
Proof.
  induction calls as [|[fuel args0] rest IH]; intros w Hw; simpl; [exact Hw|].
  apply IH. destruct (prim_derivationStrict fuel args0 w) as [r w'] eqn:Hrun.
  exact (keeps_prim_derivationStrict fuel args0 w r w' Hw Hrun).
Qed.


(** *** The result of the constructor *)

Lemma checkOutputHash_Ok l (w w' : World X) outPath algo hash_ :
  checkOutputHash l w = (Ok (outPath, algo, hash_), w') ->
  outputHash l <> "" ->
  let ht := parseHashType (outputHashAlgo l) in
  ht <> htUnknown /\
  exists h,
    (if Nat.eqb (String.length (outputHash l)) (hashSize (Hash_of_type ht) * 2)
     then parseHash ht (outputHash l)
     else parseHash32 ht (outputHash l)) = Ok h
    /\ (String.length (outputHash l) = hashSize (Hash_of_type ht) * 2 \/
        String.length (outputHash l) = hashLength32 (Hash_of_type ht))
    /\ outPath = makeFixedOutputPath (outputHashRecursive l) ht h (drvName l)
    /\ hash_ = printHash h
    /\ algo = (if outputHashRecursive l then "r:" ++ outputHashAlgo l
               else outputHashAlgo l).
Proof.
  unfold checkOutputHash. intros Hrun Hne.
  destruct (String.eqb_spec (outputHash l) ""); [contradiction|].
  simpl. destruct (decide (parseHashType (outputHashAlgo l) = htUnknown)) as [|Hht];
    [discriminate|].
  split; [assumption|].
  apply M_bind_Ok in Hrun as (h & w1 & Hh & [= <- <- <- <-]).
  exists h.
  destruct (Nat.eqb_spec (String.length (outputHash l))
              (hashSize (Hash_of_type (parseHashType (outputHashAlgo l))) * 2)).
  - unfold liftRes in Hh. injection Hh as Hh _. auto 6.
  - destruct (Nat.eqb_spec (String.length (outputHash l))
                (hashLength32 (Hash_of_type (parseHashType (outputHashAlgo l)))));
      [|discriminate].
    unfold liftRes in Hh. injection Hh as Hh _. auto 6.
Qed.

Lemma withPrefix_Ok {S A} (f : Exn -> Exn) (m : M S A) (s s' : S) (a : A) :
  withPrefix f m s = (Ok a, s') -> m s = (Ok a, s').
Proof.
  unfold withPrefix. destruct (m s) as [[a'|e|] s1]; intros Hr;
    try discriminate; exact Hr.
Qed.

(** Setting a key twice is setting it to the second value. *)
Lemma StdMap_set_set {V} (k : string) (v v' : V) (m : StdMap.t V) :
  StdMap.set k v (StdMap.set k v' m) = StdMap.set k v m.
Proof.
  assert (Hrefl : String.compare k k = Eq).
  { pose proof (String.compare_antisym k k) as Ha.
    destruct (String.compare k k); simpl in Ha; congruence. }
  induction m as [|[k0 v0] rest IH]; simpl.
  - rewrite Hrefl. reflexivity.
  - destruct (String.compare k k0) eqn:Hc; simpl.
    + rewrite Hrefl. reflexivity.
    + rewrite Hrefl. reflexivity.
    + rewrite Hc, IH. reflexivity.
Qed.

Lemma withOut_masked (d : Derivation) (algo hash_ : string) :
  set_output "out" (mkDerivationOutput "" algo hash_) (set_env "out" "" d)
  = withOut d "" algo hash_.
Proof. reflexivity. Qed.

Lemma withOut_final (d : Derivation) (outPath algo hash_ : string) :
  set_output "out" (mkDerivationOutput outPath algo hash_)
    (set_env "out" outPath
       (set_output "out" (mkDerivationOutput "" algo hash_) (set_env "out" "" d)))
  = withOut d outPath algo hash_.
Proof.
  unfold set_output, set_env, withOut. simpl. rewrite !StdMap_set_set. reflexivity.
Qed.

Lemma withOut_again (d : Derivation) (outPath algo hash_ : string) :
  set_output "out" (mkDerivationOutput outPath algo hash_)
    (set_env "out" outPath (withOut d "" algo hash_))
  = withOut d outPath algo hash_.
Proof. rewrite <- withOut_masked. apply withOut_final. Qed.

Lemma checkOutputHash_state l (w w' : World X) r :
  checkOutputHash l w = (r, w') -> w' = w.
Proof.
  unfold checkOutputHash.
  destruct (String.eqb (outputHash l) ""); [intros [= _ <-]; reflexivity|].
  destruct (decide (parseHashType (outputHashAlgo l) = htUnknown));
    [intros [= _ <-]; reflexivity|].
  unfold mbind, M_bind, liftRes, throw.
  destruct (Nat.eqb _ _).
  - destruct (parseHash _ _); intros [= _ <-]; reflexivity.
  - destruct (Nat.eqb _ _).
    + destruct (parseHash32 _ _); intros [= _ <-]; reflexivity.
    + intros [= _ <-]. reflexivity.
Qed.

(** Everything a successful run of the part after the attribute loop has
    gone through, with the states it went through. *)
Lemma instantiate_inv fuel l (w w' : World X) v :
  instantiate fuel l w = (Ok v, w') ->
  exists d0 w1 outPath0 algo hash_ outPath c1 drvPath x' h c2,
    processContext (context l) (drv l) w = (Ok d0, w1)
    /\ builder d0 <> "" /\ platform d0 <> ""
    /\ checkOutputHash l w1 = (Ok (outPath0, algo, hash_), w1)
    /\ checkStoreName (drvName l) = Ok tt
    /\ isDerivation (drvName l) = false
    /\ (if String.eqb outPath0 "" then
          exists h0,
            hashDerivationModulo fuel (withOut d0 "" algo hash_) (drvHashes w1)
              = (Ok h0, c1)
            /\ outPath = makeStorePath "output:out" h0 (drvName l)
        else outPath = outPath0 /\ c1 = drvHashes w1)
    /\ writeDerivation (withOut d0 outPath algo hash_) (drvName l) (ext w1)
       = (Ok drvPath, x')
    /\ hashDerivationModulo fuel (withOut d0 outPath algo hash_) c1 = (Ok h, c2)
    /\ w' = mkWorld x' (<[drvPath := h]> c2) (haveWarned w1) (stderr w1) (trace w1)
    /\ v = Attrs [("outPath", (Str outPath [drvPath], NoPos));
                  ("drvPath", (Str drvPath ["=" ++ drvPath], NoPos))].
Proof.
  unfold instantiate. intros Hrun.
  apply M_bind_Ok in Hrun as (d0 & w1 & Hctx & Hrun).
  destruct (String.eqb_spec (builder d0) "") as [|Hb]; [discriminate|].
  destruct (String.eqb_spec (platform d0) "") as [|Hp]; [discriminate|].
  apply M_bind_Ok in Hrun as ([[outPath0 algo] hash_] & w2 & Hcheck & Hrun).
  assert (w2 = w1) as -> by exact (checkOutputHash_state _ _ _ _ Hcheck).
  apply M_bind_Ok in Hrun as ([] & w3 & Hname & Hrun).
  unfold liftRes in Hname. injection Hname as Hname <-.
  destruct (isDerivation (drvName l)) eqn:Hdrv; [discriminate|].
  rewrite withOut_masked in Hrun.
  apply M_bind_Ok in Hrun as (outPath & w4 & Hout & Hrun).
  cbv beta zeta in Hrun. rewrite withOut_again in Hrun.
  apply M_bind_Ok in Hrun as (drvPath & w5 & Hwrite & Hrun).
  apply M_bind_Ok in Hrun as (h & w6 & Hh & Hrun).
  apply M_bind_Ok in Hrun as ([] & w7 & Hset & [= <- <-]).
  apply liftExt_Ok in Hwrite as (x' & Hwrite & ->).
  apply liftHashes_Ok in Hh as (c2 & Hh & ->).
  apply liftHashes_Ok in Hset as (c3 & Hset & ->).
  injection Hset as <-. simpl in *.
  exists d0, w1, outPath0, algo, hash_, outPath, (drvHashes w4), drvPath, x', h, c2.
  split; [exact Hctx|]. split; [exact Hb|]. split; [exact Hp|].
  split; [exact Hcheck|]. split; [exact Hname|]. split; [reflexivity|].
  destruct (String.eqb outPath0 "").
  - apply M_bind_Ok in Hout as (h0 & w8 & Hh0 & [= <- <-]).
    apply liftHashes_Ok in Hh0 as (c1 & Hh0 & ->). simpl in *.
    split; [exists h0; split; [exact Hh0 | reflexivity]|].
    split; [exact Hwrite|]. split; [exact Hh|]. split; reflexivity.
  - injection Hout as <- <-.
    split; [split; reflexivity|].
    split; [exact Hwrite|]. split; [exact Hh|]. split; reflexivity.
Qed.

(** A successful call has left the attribute loop and gone through the
    rest. *)
Lemma prim_derivationStrict_inv fuel args0 (w w' : World X) v :
  prim_derivationStrict fuel args0 w = (Ok v, w') ->
  exists l w1, attributesDone args0 w l w1 /\ instantiate fuel l w1 = (Ok v, w').
Proof.
  unfold prim_derivationStrict. intros Hrun.
  apply M_bind_Ok in Hrun as (e & w1 & Hev & Hrun).
  apply liftExt_Ok in Hev as (x1 & Hev & ->).
  apply M_bind_Ok in Hrun as (attrs & w2 & Hq & Hrun).
  assert (e = Attrs attrs /\ w2 = set_ext w x1) as [-> ->].
  { destruct e; try discriminate Hq. injection Hq as <- <-. auto. }
  destruct (ATermMap.get "name" attrs) as [[eName pos]|] eqn:Hname; [|discriminate].
  apply M_bind_Ok in Hrun as (name & w3 & Hn & Hrun).
  apply withPrefix_Ok in Hn. apply liftExt_Ok in Hn as (x2 & Hn & ->).
  apply M_bind_Ok in Hrun as (l & w4 & Hloop & Hrun).
  exists l, w4. split; [|exact Hrun].
  exists attrs, x1, eName, pos, name, x2. auto.
Qed.

(** C4, as the code has it. A successful call of the constructor has left
    the attribute loop with local variables [l], the context loop with a
    derivation [d0], and the check of the output hash with a path
    [outPath0], an algorithm and a hash. The computed output path
    [outPath] is [outPath0] if that is not empty, and otherwise
    [makeStorePath] of "output:out", of the hash-modulo of [d0] masked,
    and of the name. The call has handed [d0] with the output and the
    variable "out" set to [outPath] to [writeDerivation], which returned
    [drvPath]. The value returned is the attribute set with exactly the
    attributes [outPath] and [drvPath]: the string [outPath] with the
    context {[drvPath]} (the derivation file, not the output path), and
    the string [drvPath] with the context {"=" ++ [drvPath]}. *)
Theorem derivationStrict_result_contexts :
  forall fuel args0 (w w' : World X) v,
    prim_derivationStrict fuel args0 w = (Ok v, w') ->
    exists l w1 d0 w2 outPath0 algo hash_ outPath drvPath,
      attributesDone args0 w l w1
      /\ processContext (context l) (drv l) w1 = (Ok d0, w2)
      /\ checkOutputHash l w2 = (Ok (outPath0, algo, hash_), w2)
      /\ (if String.eqb outPath0 "" then
            exists h0 c1,
              hashDerivationModulo fuel (withOut d0 "" algo hash_) (drvHashes w2)
                = (Ok h0, c1)
              /\ outPath = makeStorePath "output:out" h0 (drvName l)
          else outPath = outPath0)
      /\ writeDerivation (withOut d0 outPath algo hash_) (drvName l) (ext w2)
         = (Ok drvPath, ext w')
      /\ v = Attrs [("outPath", (Str outPath [drvPath], NoPos));
                    ("drvPath", (Str drvPath ["=" ++ drvPath], NoPos))].
Proof.
  intros fuel args0 w w' v Hrun.
  apply prim_derivationStrict_inv in Hrun as (l & w1 & Hdone & Hrun).
  apply instantiate_inv in Hrun
    as (d0 & w2 & outPath0 & algo & hash_ & outPath & c1 & drvPath & x' & h & c2
        & Hctx & _ & _ & Hcheck & _ & _ & Hout & Hwrite & _ & -> & ->).
  exists l, w1, d0, w2, outPath0, algo, hash_, outPath, drvPath.
  split; [exact Hdone|]. split; [exact Hctx|]. split; [exact Hcheck|].
  split; [|split; [exact Hwrite | reflexivity]].
  destruct (String.eqb outPath0 "").
  - destruct Hout as (h0 & Hh0 & ->). exists h0, c1. auto.
  - exact (proj1 Hout).
Qed.

(** *** Fixed-output derivations *)

Lemma coerceArgs_controls es :
  forall l (w w' : World X) l',
    coerceArgs es l w = (Ok l', w') -> controls l' = controls l.
Proof.
  induction es as [|e es IH]; intros l w w' l'; simpl.
  - intros [= <- _]. reflexivity.
  - intros Hrun. apply M_bind_Ok in Hrun as ([s c] & w1 & _ & Hrun).
    rewrite (IH _ _ _ _ Hrun). reflexivity.
Qed.

Lemma withPrefix_run {S A} (f : Exn -> Exn) (m : M S A) (s s' : S) (a : A) :
  m s = (Ok a, s') -> withPrefix f m s = (Ok a, s').
Proof. unfold withPrefix. intros ->. reflexivity. Qed.

(** A call that has left the attribute loop goes on with the rest. *)
Lemma prim_derivationStrict_run fuel args0 (w : World X) l w1 :
  attributesDone args0 w l w1 ->
  prim_derivationStrict fuel args0 w = instantiate fuel l w1.
Proof.
  intros (attrs & x1 & eName & pos & name & x2 & Hev & Hname & Hn & Hloop).
  unfold prim_derivationStrict.
  rewrite (M_bind_run _ _ _ _ _ (liftExt_run _ _ _ _ Hev)).
  assert (Hq : queryAllAttrs (X := X) (Attrs attrs) (set_ext w x1)
               = (Ok attrs, set_ext w x1)) by reflexivity.
  rewrite (M_bind_run _ _ _ _ _ Hq). rewrite Hname.
  assert (Hn' : liftExt (evalStringNoCtx eName) (set_ext w x1) = (Ok name, set_ext w x2)).
  { apply (liftExt_run (evalStringNoCtx eName) (set_ext w x1)). exact Hn. }
  rewrite (M_bind_run _ _ _ _ _ (withPrefix_run _ _ _ _ _ Hn')).
  rewrite (M_bind_run _ _ _ _ _ Hloop). reflexivity.
Qed.

(** The check of the output hash, when it fails. *)
Lemma checkOutputHash_unknown l (w : World X) :
  outputHash l <> "" ->
  parseHashType (outputHashAlgo l) = htUnknown ->
  checkOutputHash l w =
    (Throw (mkError EvalError ("unknown hash algorithm `" ++ outputHashAlgo l ++ "'")),
     w).
Proof.
  intros Hne Hht. unfold checkOutputHash.
  destruct (String.eqb_spec (outputHash l) ""); [contradiction|].
  destruct (decide (parseHashType (outputHashAlgo l) = htUnknown)); [|contradiction].
  reflexivity.
Qed.

Lemma checkOutputHash_wrong_length l (w : World X) :
  outputHash l <> "" ->
  parseHashType (outputHashAlgo l) <> htUnknown ->
  String.length (outputHash l)
    <> hashSize (Hash_of_type (parseHashType (outputHashAlgo l))) * 2 ->
  String.length (outputHash l)
    <> hashLength32 (Hash_of_type (parseHashType (outputHashAlgo l))) ->
  checkOutputHash l w =
    (Throw (mkError Error
              ("hash `" ++ outputHash l ++ "' has wrong length for hash type `"
               ++ outputHashAlgo l ++ "'")), w).
Proof.
  intros Hne Hht Hhex H32. unfold checkOutputHash.
  destruct (String.eqb_spec (outputHash l) ""); [contradiction|].
  destruct (decide (parseHashType (outputHashAlgo l) = htUnknown)); [contradiction|].
  destruct (Nat.eqb_spec (String.length (outputHash l))
              (hashSize (Hash_of_type (parseHashType (outputHashAlgo l))) * 2));
    [contradiction|].
  destruct (Nat.eqb_spec (String.length (outputHash l))
              (hashLength32 (Hash_of_type (parseHashType (outputHashAlgo l)))));
    [contradiction|].
  reflexivity.
Qed.

(** C3 fails on the code: the exception for an output hash of the wrong
    length is not an [EvalError]. Let a call of the constructor have left
    the attribute loop with a non-empty [outputHash], and let the context
    loop have run through and have left a builder and a platform. If the
    algorithm is not a known one, the call ends with the [EvalError]
    "unknown hash algorithm `<algo>'". If it is a known one and the hash
    has neither the hexadecimal nor the base-32 length for it, the call
    ends, in the same world, with "hash `<hash>' has wrong length for hash
    type `<algo>'", and this exception is of the class [Error]. *)
Theorem wrong_length_hash_is_Error :
  forall fuel args0 (w : World X) l w1 d w2,
    attributesDone args0 w l w1 ->
    processContext (context l) (drv l) w1 = (Ok d, w2) ->
    builder d <> "" -> platform d <> "" ->
    outputHash l <> "" ->
    (parseHashType (outputHashAlgo l) = htUnknown ->
     prim_derivationStrict fuel args0 w =
       (Throw (mkError EvalError
                 ("unknown hash algorithm `" ++ outputHashAlgo l ++ "'")), w2))
    /\ (parseHashType (outputHashAlgo l) <> htUnknown ->
        String.length (outputHash l)
          <> hashSize (Hash_of_type (parseHashType (outputHashAlgo l))) * 2 ->
        String.length (outputHash l)
          <> hashLength32 (Hash_of_type (parseHashType (outputHashAlgo l))) ->
        exists e,
          prim_derivationStrict fuel args0 w = (Throw e, w2)
          /\ kind e = Error
          /\ kind e <> EvalError
          /\ msg e = "hash `" ++ outputHash l ++ "' has wrong length for hash type `"
                     ++ outputHashAlgo l ++ "'"
          /\ prefix_ e = "").
Proof.
  intros fuel args0 w l w1 d w2 Hdone Hctx Hb Hp Hne.
  rewrite (prim_derivationStrict_run fuel _ _ _ _ Hdone).
  unfold instantiate. rewrite (M_bind_run _ _ _ _ _ Hctx).
  destruct (String.eqb_spec (builder d) ""); [contradiction|].
  destruct (String.eqb_spec (platform d) ""); [contradiction|].
  split.
  - intros Hht. unfold mbind at 1, M_bind at 1.
    rewrite (checkOutputHash_unknown l w2 Hne Hht). reflexivity.
  - intros Hht Hhex H32. unfold mbind at 1, M_bind at 1.
    rewrite (checkOutputHash_wrong_length l w2 Hne Hht Hhex H32).
    eexists. split; [reflexivity|]. split; [reflexivity|].
    split; [discriminate|]. split; reflexivity.
Qed.

End ConstructorProperties.

(** ** Import, paths and strings *)

Section PrimitivesProperties.
Context {X : Type} `{Store X} `{Evaluator X}.

(** One turn of the loop of [prim_import] for a path that is in order. *)
Lemma importContext_step path i rest (w : World X) x1 x2 :
  isStorePath i = true ->
  isValidPath i (ext w) = (Ok true, x1) ->
  (if isDerivation i
   then buildDerivations (StdSet.singleton i) x1 = (Ok tt, x2)
   else x2 = x1) ->
  exists w2,
    ext w2 = x2
    /\ importContext path (i :: rest) w = importContext path rest w2.
Proof.
  intros Hstore Hvalid Hbuild. simpl. rewrite Hstore. simpl.
  rewrite (M_bind_run _ _ _ _ _ (liftExt_run _ _ _ _ Hvalid)).
  unfold mbind at 1, M_bind at 1, logEvent at 1, modifyState at 1. simpl.
  destruct (isDerivation i).
  - unfold mbind at 1, M_bind at 1. unfold mbind at 1, M_bind at 1.
    unfold logEvent at 1, modifyState at 1, liftExt at 1. simpl.
    rewrite Hbuild. eexists. split; [|reflexivity]. reflexivity.
  - subst x2. unfold mbind at 1, M_bind at 1. simpl.
    eexists. split; [|reflexivity]. reflexivity.
Qed.

(** The loop runs through the paths of a walk. *)
Lemma importContext_walk path before :
  forall x xk,
    contextWalk before x xk ->
    forall rest (w : World X),
      ext w = x ->
      exists wk,
        ext wk = xk
        /\ importContext path (before ++ rest)%list w = importContext path rest wk.
Proof.
  intros x xk Hwalk.
  induction Hwalk as [x|i rest0 x x1 x2 x3 Hstore Hvalid Hbuild Hwalk IH];
    intros rest w Hw.
  - exists w. auto.
  - subst x.
    destruct (importContext_step path i (rest0 ++ rest)%list w x1 x2 Hstore Hvalid Hbuild)
      as (w2 & Hw2 & Hstep).
    destruct (IH rest w2 Hw2) as (wk & Hwk & Hrest).
    exists wk. split; [exact Hwk|].
    change ((i :: rest0) ++ rest)%list with (i :: (rest0 ++ rest))%list.
    rewrite Hstep. exact Hrest.
Qed.

(** A loop that has run through has walked the whole context. *)
Lemma importContext_Ok path context :
  forall (w w' : World X),
    importContext path context w = (Ok tt, w') ->
    contextWalk context (ext w) (ext w').
Proof.
  induction context as [|i rest IH]; intros w w'; simpl.
  - intros [= <-]. constructor.
  - destruct (isStorePath i) eqn:Hstore; simpl; [|discriminate].
    intros Hrun. apply M_bind_Ok in Hrun as (valid & w1 & Hvalid & Hrun).
    apply liftExt_Ok in Hvalid as (x1 & Hvalid & ->).
    apply M_bind_Ok in Hrun as ([] & w2 & Hlog & Hrun).
    injection Hlog as <-.
    destruct valid; simpl in Hrun; [|discriminate].
    apply M_bind_Ok in Hrun as ([] & w3 & Hbuild & Hrun).
    apply IH in Hrun.
    destruct (isDerivation i) eqn:Hdrv.
    + apply M_bind_Ok in Hbuild as ([] & w4 & Hlog & Hbuild).
      injection Hlog as <-.
      apply liftExt_Ok in Hbuild as (x2 & Hbuild & ->).
      apply (contextWalk_cons i rest (ext w) x1 x2 _ Hstore Hvalid);
        [rewrite Hdrv; exact Hbuild | exact Hrun].
    + injection Hbuild as <-.
      apply (contextWalk_cons i rest (ext w) x1 x1 _ Hstore Hvalid);
        [rewrite Hdrv; reflexivity | exact Hrun].
Qed.

(** C10, as the code has it. Let the argument of [import] coerce to the
    path [path] with the context [context]. (1) If the store answers for a
    path [p] of the context that it is not valid, and every path before
    it in the context was a store path, was answered to be valid and,
    being a derivation, was built without an exception, then the call
    ends with the [EvalError] "cannot import `<path>', since path `<p>' is
    not valid", and the store and the evaluator are in the state that
    answer left: no build was requested for [p] and the file was not
    evaluated. (2) A call returns a value only after every path of the
    context, in turn, was answered to be valid and then, being a
    derivation, was built; the value is what [evalFile] returns after
    that. (3) And after such a walk the call does evaluate the file. In
    the walk the validity of a path is asked before its build is
    requested. *)
Theorem import_checks_validity :
  forall args0 (w : World X) path context x0,
    EvalState_coerceToPath args0 (ext w) = (Ok (path, context), x0) ->
    (forall before p after xk x',
       context = (before ++ p :: after)%list ->
       contextWalk before x0 xk ->
       isStorePath p = true ->
       isValidPath p xk = (Ok false, x') ->
       exists w',
         prim_import args0 w =
           (Throw (mkError EvalError
                     ("cannot import `" ++ path ++ "', since path `" ++ p
                      ++ "' is not valid")), w')
         /\ ext w' = x')
    /\ (forall v w',
          prim_import args0 w = (Ok v, w') ->
          exists x1,
            contextWalk context x0 x1
            /\ EvalState_evalFile path x1 = (Ok v, ext w'))
    /\ (forall x1 r x2,
          contextWalk context x0 x1 ->
          EvalState_evalFile path x1 = (r, x2) ->
          exists w', prim_import args0 w = (r, w') /\ ext w' = x2).
Proof.
  intros args0 w path context x0 Hco. unfold prim_import.
  rewrite (M_bind_run _ _ _ _ _ (liftExt_run _ _ _ _ Hco)).
  split; [|split].
  - intros before p after xk x' -> Hwalk Hstore Hvalid.
    destruct (importContext_walk path before x0 xk Hwalk (p :: after) (set_ext w x0)
                eq_refl) as (wk & Hwk & Hloop).
    unfold mbind at 1, M_bind at 1. rewrite Hloop. simpl. rewrite Hstore. simpl.
    subst xk. rewrite (M_bind_run _ _ _ _ _ (liftExt_run _ _ _ _ Hvalid)).
    eexists. split; reflexivity.
  - intros v w' Hrun.
    apply M_bind_Ok in Hrun as ([] & w1 & Hloop & Hrun).
    apply importContext_Ok in Hloop.
    apply M_bind_Ok in Hrun as ([] & w2 & Hlog & Hrun). injection Hlog as <-.
    apply liftExt_Ok in Hrun as (x2 & Hrun & ->).
    exists (ext w1). split; [exact Hloop | exact Hrun].
  - intros x1 r x2 Hwalk Hfile.
    destruct (importContext_walk path context x0 x1 Hwalk [] (set_ext w x0) eq_refl)
      as (wk & Hwk & Hloop).
    rewrite app_nil_r in Hloop. unfold mbind at 1, M_bind at 1. rewrite Hloop. simpl.
    unfold mbind, M_bind, logEvent, modifyState, liftExt. simpl.
    subst x1. rewrite Hfile. eexists. split; reflexivity.
Qed.

(** C6. Let the argument coerce to the path [path] with the context
    [context]. If the context is not empty, [pathExists] and [readFile]
    throw the [EvalError] "string `<path>' cannot refer to other paths",
    and the world is as the coercion left it: nothing was asked of the
    file system. If the context is empty, they go on to ask the file
    system about [path]. *)
Theorem path_primitives_reject_context :
  forall args0 (w : World X) path context x',
    coerceToPath args0 (ext w) = (Ok (path, context), x') ->
    (context <> [] ->
       let e := mkError EvalError
                  ("string `" ++ path ++ "' cannot refer to other paths") in
       prim_pathExists args0 w = (Throw e, set_ext w x')
       /\ prim_readFile args0 w = (Throw e, set_ext w x')
       /\ trace (set_ext w x') = trace w)
    /\ (context = [] ->
          prim_pathExists args0 w =
            (b ← liftExt (pathExists path); mret (makeBool b))
              (addEvent (EvPathExists path) (set_ext w x'))
          /\ prim_readFile args0 w =
               (s ← liftExt (readFile path); mret (makeStr s []))
                 (addEvent (EvReadFile path) (set_ext w x'))).
Proof.
  intros args0 w path context x' Hco.
  unfold prim_pathExists, prim_readFile.
  rewrite !(M_bind_run _ _ _ _ _ (liftExt_run _ _ _ _ Hco)).
  split.
  - intros Hne. destruct context as [|p rest]; [contradiction|]. simpl. auto.
  - intros ->. simpl. split; reflexivity.
Qed.

(** [toString] returns the text of its argument as a string without
    context, whatever context the coercion has collected. *)
Lemma prim_toString_drops_context args0 (w : World X) s context x' :
  EvalState_coerceToString args0 true false (ext w) = (Ok (s, context), x') ->
  prim_toString args0 w = (Ok (VString s []), set_ext w x').
Proof.
  intros Hco. unfold prim_toString.
  rewrite (M_bind_run _ _ _ _ _ (liftExt_run _ _ _ _ Hco)). reflexivity.
Qed.

End PrimitivesProperties.

(** ** Lists *)

Section ListsProperties.
Context `{Forcer}.

Lemma EvalState_forceValue_run a m r h :
  forceValue a (heap m) = (r, h) ->
  EvalState_forceValue a m = (r, mkMemory h (forced m ++ [a])).
Proof. unfold EvalState_forceValue. intros ->. reflexivity. Qed.

Lemma readCell_run a m x :
  cells (heap m) !! a = Some x -> readCell a m = (Ok x, m).
Proof. unfold readCell. intros ->. reflexivity. Qed.

Lemma readList_run a m elems len :
  cells (heap m) !! a = Some (VList elems len) ->
  readList a m = (Ok (elems, len), m).
Proof.
  intros Ha. unfold readList. rewrite (M_bind_run _ _ _ _ _ (readCell_run _ _ _ Ha)).
  reflexivity.
Qed.

Lemma EvalState_forceList_run a m h1 elems len :
  forceValue a (heap m) = (Ok tt, h1) ->
  cells h1 !! a = Some (VList elems len) ->
  EvalState_forceList a m = (Ok tt, mkMemory h1 (forced m ++ [a])).
Proof.
  intros Hf Ha. unfold EvalState_forceList.
  rewrite (M_bind_run _ _ _ _ _ (EvalState_forceValue_run _ _ _ _ Hf)).
  rewrite (M_bind_run _ _ _ _ _ (readCell_run _ (mkMemory h1 _) _ Ha)).
  reflexivity.
Qed.

Lemma EvalState_forceFunction_run a m h1 code :
  forceValue a (heap m) = (Ok tt, h1) ->
  cells h1 !! a = Some (VLambda code) ->
  EvalState_forceFunction a m = (Ok tt, mkMemory h1 (forced m ++ [a])).
Proof.
  intros Hf Ha. unfold EvalState_forceFunction.
  rewrite (M_bind_run _ _ _ _ _ (EvalState_forceValue_run _ _ _ _ Hf)).
  rewrite (M_bind_run _ _ _ _ _ (readCell_run _ (mkMemory h1 _) _ Ha)).
  reflexivity.
Qed.

(** [head] and [tail] of the empty list. *)
Lemma prim_head_empty args0 v m h1 elems :
  forceValue args0 (heap m) = (Ok tt, h1) ->
  cells h1 !! args0 = Some (VList elems 0) ->
  prim_head args0 v m =
    (Throw (mkError Error "`head' called on an empty list"),
     mkMemory h1 (forced m ++ [args0])).
Proof.
  intros Hf Ha. unfold prim_head.
  rewrite (M_bind_run _ _ _ _ _ (EvalState_forceList_run _ _ _ _ _ Hf Ha)).
  rewrite (M_bind_run _ _ _ _ _ (readList_run _ (mkMemory h1 _) _ _ Ha)).
  reflexivity.
Qed.

Lemma prim_tail_empty args0 v m h1 elems :
  forceValue args0 (heap m) = (Ok tt, h1) ->
  cells h1 !! args0 = Some (VList elems 0) ->
  prim_tail args0 v m =
    (Throw (mkError Error "`tail' called on an empty list"),
     mkMemory h1 (forced m ++ [args0])).
Proof.
  intros Hf Ha. unfold prim_tail.
  rewrite (M_bind_run _ _ _ _ _ (EvalState_forceList_run _ _ _ _ _ Hf Ha)).
  rewrite (M_bind_run _ _ _ _ _ (readList_run _ (mkMemory h1 _) _ _ Ha)).
  reflexivity.
Qed.

(** [head] of a list that is not empty: the memory it leaves. *)
Lemma prim_head_run args0 v m h1 elems len h2 elems2 len2 x :
  forceValue args0 (heap m) = (Ok tt, h1) ->
  cells h1 !! args0 = Some (VList elems len) ->
  len <> 0 ->
  forceValue elems h1 = (Ok tt, h2) ->
  cells h2 !! args0 = Some (VList elems2 len2) ->
  cells h2 !! elems2 = Some x ->
  prim_head args0 v m =
    (Ok tt, mkMemory (mkHeap (<[v := x]> (cells h2)) (brk h2))
                     (forced m ++ [args0; elems])).
Proof.
  intros Hf Ha Hlen Hf2 Ha2 Hx. unfold prim_head.
  rewrite (M_bind_run _ _ _ _ _ (EvalState_forceList_run _ _ _ _ _ Hf Ha)).
  rewrite (M_bind_run _ _ _ _ _ (readList_run _ (mkMemory h1 _) _ _ Ha)).
  destruct (Nat.eqb_spec len 0); [contradiction|].
  rewrite Nat.add_0_r.
  rewrite (M_bind_run _ _ _ _ _
             (EvalState_forceValue_run elems (mkMemory h1 _) _ _ Hf2)).
  rewrite (M_bind_run _ _ _ _ _ (readList_run _ (mkMemory h2 _) _ _ Ha2)).
  rewrite Nat.add_0_r.
  rewrite (M_bind_run _ _ _ _ _ (readCell_run _ (mkMemory h2 _) _ Hx)).
  unfold writeCell, modifyState. simpl. rewrite <- app_assoc. reflexivity.
Qed.

(** The copying loop of [tail]. *)
Lemma tailLoop_spec args0 v velems vlen elems len :
  forall count n m,
    cells (heap m) !! v = Some (VList velems vlen) ->
    cells (heap m) !! args0 = Some (VList elems len) ->
    v < velems -> args0 < velems -> elems + len <= velems ->
    n + count < len ->
    (forall j, j < len -> is_Some (cells (heap m) !! (elems + j))) ->
    exists m',
      tailLoop args0 v count n m = (Ok tt, m')
      /\ forced m' = forced m
      /\ brk (heap m') = brk (heap m)
      /\ (forall j, n <= j < n + count ->
            cells (heap m') !! (velems + j) = cells (heap m) !! (elems + (j + 1)))
      /\ (forall b, b < velems + n \/ velems + n + count <= b ->
            cells (heap m') !! b = cells (heap m) !! b).
Proof.
  induction count as [|count IH]; intros n m Hv Ha Hvlt Halt Hel Hn Hsome; simpl.
  - exists m. repeat split; auto. intros j Hj. lia.
  - destruct (Hsome (n + 1)) as [x Hx]; [lia|].
    rewrite (M_bind_run _ _ _ _ _ (readList_run _ _ _ _ Hv)).
    rewrite (M_bind_run _ _ _ _ _ (readList_run _ _ _ _ Ha)).
    rewrite (M_bind_run _ _ _ _ _ (readCell_run _ _ _ Hx)).
    unfold mbind at 1, M_bind at 1, writeCell at 1, modifyState at 1.
    set (m1 := mkMemory (mkHeap (<[velems + n := x]> (cells (heap m))) (brk (heap m)))
                        (forced m)).
    assert (Hold : forall b, b < velems ->
              cells (heap m1) !! b = cells (heap m) !! b).
    { intros b Hb. simpl. apply lookup_insert_ne. lia. }
    destruct (IH (n + 1) m1) as (m' & Hrun & Hfor & Hbrk & Hcopy & Hframe);
      try assumption; try lia.
    { rewrite Hold by lia. exact Hv. }
    { rewrite Hold by lia. exact Ha. }
    { intros j Hj. rewrite Hold by lia. auto. }
    exists m'. split; [exact Hrun|]. split; [exact Hfor|]. split; [exact Hbrk|].
    split.
    + intros j Hj. destruct (decide (j = n)) as [->|Hne].
      * rewrite Hframe by lia. simpl. rewrite lookup_insert_eq. symmetry. exact Hx.
      * rewrite Hcopy by lia. apply Hold. lia.
    + intros b Hb. rewrite Hframe by lia. simpl. apply lookup_insert_ne. lia.
Qed.

(** [tail] of a list that is not empty. The list value, the result cell
    and the elements lie below [brk], where [mkList] takes the cells of
    the result from. *)
Lemma prim_tail_run args0 v m h1 elems len :
  forceValue args0 (heap m) = (Ok tt, h1) ->
  cells h1 !! args0 = Some (VList elems len) ->
  len <> 0 ->
  v <> args0 -> v < brk h1 -> args0 < brk h1 -> elems + len <= brk h1 ->
  (forall j, j < len -> elems + j <> v /\ is_Some (cells h1 !! (elems + j))) ->
  exists m',
    prim_tail args0 v m = (Ok tt, m')
    /\ forced m' = (forced m ++ [args0])%list
    /\ cells (heap m') !! v = Some (VList (brk h1) (len - 1))
    /\ (forall n, n < len - 1 ->
          cells (heap m') !! (brk h1 + n) = cells h1 !! (elems + (n + 1)))
    /\ (forall b, b < brk h1 -> b <> v -> cells (heap m') !! b = cells h1 !! b).
Proof.
  intros Hf Ha Hlen Hva Hv Hargs Hel Hsome. unfold prim_tail.
  rewrite (M_bind_run _ _ _ _ _ (EvalState_forceList_run _ _ _ _ _ Hf Ha)).
  rewrite (M_bind_run _ _ _ _ _ (readList_run _ (mkMemory h1 _) _ _ Ha)).
  destruct (Nat.eqb_spec len 0); [contradiction|].
  unfold mbind at 1, M_bind at 1, EvalState_mkList at 1. simpl.
  set (m2 := mkMemory (mkHeap (<[v := VList (brk h1) (len - 1)]> (cells h1))
                              (brk h1 + (len - 1)))
                      (forced m ++ [args0])).
  assert (Hv2 : cells (heap m2) !! v = Some (VList (brk h1) (len - 1)))
    by apply lookup_insert_eq.
  assert (Hold : forall b, b <> v -> cells (heap m2) !! b = cells h1 !! b).
  { intros b Hb. simpl. apply lookup_insert_ne. congruence. }
  rewrite (M_bind_run _ _ _ _ _ (readList_run _ m2 _ _ Hv2)).
  destruct (tailLoop_spec args0 v (brk h1) (len - 1) elems len (len - 1) 0 m2)
    as (m' & Hrun & Hfor & Hbrk & Hcopy & Hframe); try assumption; try lia.
  { rewrite Hold by congruence. exact Ha. }
  { intros j Hj. destruct (Hsome j Hj) as [Hne Hs]. rewrite Hold by exact Hne.
    exact Hs. }
  exists m'. split; [exact Hrun|]. split; [exact Hfor|]. split; [|split].
  - rewrite Hframe by lia. exact Hv2.
  - intros n1 Hn1. rewrite Hcopy by lia. apply Hold.
    destruct (Hsome (n1 + 1)) as [Hne _]; [lia | exact Hne].
  - intros b Hb Hne. rewrite Hframe by lia. apply Hold. exact Hne.
Qed.

(** The loop of [map]. *)
Lemma mapLoop_spec args0 args1 v velems vlen elems len :
  forall count n m,
    cells (heap m) !! v = Some (VList velems vlen) ->
    cells (heap m) !! args1 = Some (VList elems len) ->
    v < velems -> args1 < velems ->
    exists m',
      mapLoop args0 args1 v count n m = (Ok tt, m')
      /\ forced m' = forced m
      /\ (forall j, n <= j < n + count ->
            cells (heap m') !! (velems + j) = Some (VApp args0 (elems + j)))
      /\ (forall b, b < velems + n \/ velems + n + count <= b ->
            cells (heap m') !! b = cells (heap m) !! b).
Proof.
  induction count as [|count IH]; intros n m Hv Ha Hvlt Halt; simpl.
  - exists m. repeat split; auto. intros j Hj. lia.
  - rewrite (M_bind_run _ _ _ _ _ (readList_run _ _ _ _ Hv)).
    rewrite (M_bind_run _ _ _ _ _ (readList_run _ _ _ _ Ha)).
    unfold mbind at 1, M_bind at 1, writeCell at 1, modifyState at 1.
    set (m1 := mkMemory (mkHeap (<[velems + n := VApp args0 (elems + n)]>
                                   (cells (heap m))) (brk (heap m)))
                        (forced m)).
    assert (Hold : forall b, b < velems ->
              cells (heap m1) !! b = cells (heap m) !! b).
    { intros b Hb. simpl. apply lookup_insert_ne. lia. }
    destruct (IH (n + 1) m1) as (m' & Hrun & Hfor & Hcopy & Hframe);
      try assumption.
    { rewrite Hold by lia. exact Hv. }
    { rewrite Hold by lia. exact Ha. }
    exists m'. split; [exact Hrun|]. split; [exact Hfor|]. split.
    + intros j Hj. destruct (decide (j = n)) as [->|Hne].
      * rewrite Hframe by lia. simpl. apply lookup_insert_eq.
      * apply Hcopy. lia.
    + intros b Hb. rewrite Hframe by lia. simpl. apply lookup_insert_ne. lia.
Qed.

Lemma prim_map_run args0 args1 v m h1 code h2 elems len :
  forceValue args0 (heap m) = (Ok tt, h1) ->
  cells h1 !! args0 = Some (VLambda code) ->
  forceValue args1 h1 = (Ok tt, h2) ->
  cells h2 !! args1 = Some (VList elems len) ->
  v <> args1 -> v < brk h2 -> args1 < brk h2 ->
  exists m',
    prim_map args0 args1 v m = (Ok tt, m')
    /\ forced m' = (forced m ++ [args0; args1])%list
    /\ cells (heap m') !! v = Some (VList (brk h2) len)
    /\ (forall n, n < len ->
          cells (heap m') !! (brk h2 + n) = Some (VApp args0 (elems + n)))
    /\ (forall b, b < brk h2 -> b <> v -> cells (heap m') !! b = cells h2 !! b).
Proof.
  intros Hf Hfn Hf2 Ha Hva Hv Hargs. unfold prim_map.
  rewrite (M_bind_run _ _ _ _ _ (EvalState_forceFunction_run _ _ _ _ Hf Hfn)).
  rewrite (M_bind_run _ _ _ _ _
             (EvalState_forceList_run args1 (mkMemory h1 _) _ _ _ Hf2 Ha)).
  rewrite (M_bind_run _ _ _ _ _ (readList_run _ (mkMemory h2 _) _ _ Ha)).
  unfold mbind at 1, M_bind at 1, EvalState_mkList at 1. simpl.
  set (m2 := mkMemory (mkHeap (<[v := VList (brk h2) len]> (cells h2))
                              (brk h2 + len))
                      ((forced m ++ [args0]) ++ [args1])).
  assert (Hv2 : cells (heap m2) !! v = Some (VList (brk h2) len))
    by apply lookup_insert_eq.
  assert (Hold : forall b, b <> v -> cells (heap m2) !! b = cells h2 !! b).
  { intros b Hb. simpl. apply lookup_insert_ne. congruence. }
  rewrite (M_bind_run _ _ _ _ _ (readList_run _ m2 _ _ Hv2)).
  destruct (mapLoop_spec args0 args1 v (brk h2) len elems len len 0 m2)
    as (m' & Hrun & Hfor & Hcopy & Hframe); try assumption.
  { rewrite Hold by congruence. exact Ha. }
  exists m'. split; [exact Hrun|]. split; [|split; [|split]].
  - rewrite Hfor. simpl. rewrite <- app_assoc. reflexivity.
  - rewrite Hframe by lia. exact Hv2.
  - intros n1 Hn1. apply Hcopy. lia.
  - intros b Hb Hne. rewrite Hframe by lia. apply Hold. exact Hne.
Qed.


(** C8. (1) [head] and [tail] of the empty list throw the [Error] "`head'
    called on an empty list" and "`tail' called on an empty list". (2)
    [head] of a non-empty list puts into the result cell the value of the
    first element, forced. (3) [tail] of a list of length n puts into the
    result cell a list of length n - 1 whose element number k is element
    number k + 1 of the argument. *)
Theorem head_tail_results :
  (forall args0 v m h1 elems,
     forceValue args0 (heap m) = (Ok tt, h1) ->
     cells h1 !! args0 = Some (VList elems 0) ->
     exists e1 e2 m',
       prim_head args0 v m = (Throw e1, m')
       /\ prim_tail args0 v m = (Throw e2, m')
       /\ kind e1 = Error /\ msg e1 = "`head' called on an " ++ "empty list"
       /\ kind e2 = Error /\ msg e2 = "`tail' called on an " ++ "empty list")
  /\ (forall args0 v m h1 elems len h2 x,
        forceValue args0 (heap m) = (Ok tt, h1) ->
        cells h1 !! args0 = Some (VList elems len) ->
        len <> 0 ->
        forceValue elems h1 = (Ok tt, h2) ->
        cells h2 !! args0 = Some (VList elems len) ->
        cells h2 !! elems = Some x ->
        exists m',
          prim_head args0 v m = (Ok tt, m')
          /\ cells (heap m') !! v = Some x)
  /\ (forall args0 v m h1 elems len,
        forceValue args0 (heap m) = (Ok tt, h1) ->
        cells h1 !! args0 = Some (VList elems len) ->
        len <> 0 ->
        v <> args0 -> v < brk h1 -> args0 < brk h1 -> elems + len <= brk h1 ->
        (forall j, j < len -> elems + j <> v /\ is_Some (cells h1 !! (elems + j))) ->
        exists m' elems',
          prim_tail args0 v m = (Ok tt, m')
          /\ cells (heap m') !! v = Some (VList elems' (len - 1))
          /\ (forall k, k < len - 1 ->
                cells (heap m') !! (elems' + k) = cells h1 !! (elems + (k + 1)))).
Proof.
  split; [|split].
  - intros args0 v m h1 elems Hf Ha.
    eexists _, _, _. split; [exact (prim_head_empty _ v _ _ _ Hf Ha)|].
    split; [exact (prim_tail_empty _ v _ _ _ Hf Ha)|]. auto.
  - intros args0 v m h1 elems len h2 x Hf Ha Hlen Hf2 Ha2 Hx.
    eexists. split; [exact (prim_head_run _ v _ _ _ _ _ _ _ _ Hf Ha Hlen Hf2 Ha2 Hx)|].
    simpl. apply lookup_insert_eq.
  - intros args0 v m h1 elems len Hf Ha Hlen Hva Hv Hargs Hel Hsome.
    destruct (prim_tail_run _ _ _ _ _ _ Hf Ha Hlen Hva Hv Hargs Hel Hsome)
      as (m' & Hrun & _ & Hres & Hcopy & _).
    exists m', (brk h1). auto.
Qed.

End ListsProperties.

(** C5 fails on the code. The string "/nix/store/out-x" with the context
    {"/nix/store/x.drv"}, which is what the [outPath] of a derivation
    looks like, goes through [toString] of the sample evaluator, whose
    coercion hands the context on: the result has the text and an empty
    context. *)
Theorem toString_loses_context :
  exists w',
    prim_toString (VString "/nix/store/out-x" ["/nix/store/x.drv"]) Sample.world0
      = (Ok (VString "/nix/store/out-x" []), w')
    /\ EvalState_coerceToString (VString "/nix/store/out-x" ["/nix/store/x.drv"])
         true false (ext Sample.world0)
       = (Ok ("/nix/store/out-x", ["/nix/store/x.drv"]), ext Sample.world0).
Proof.
  eexists. split; [|reflexivity].
  apply (prim_toString_drops_context _ _ _ ["/nix/store/x.drv"]). reflexivity.
Qed.

(** * The properties on the sample instance *)

Lemma hashDerivationModulo_fixed_output_witness :
  outputs Sample.fetch = [("out", mkDerivationOutput "/nix/store/src" "sha256" "abcd")]
  /\ outputs Sample.fetch' = [("out", mkDerivationOutput "/nix/store/src" "sha256" "abcd")]
  /\ hashDerivationModulo 1 Sample.fetch ∅ =
       (Ok (hashString htSHA256 "fixed:out:sha256:abcd:/nix/store/src"), ∅)
  /\ (hashDerivationModulo 1 Sample.fetch ∅).1 =
     (hashDerivationModulo 1 Sample.fetch' {[ "/nix/store/pkg.drv" := Hash_default ]}).1.
Proof.
  split; [reflexivity|]. split; [reflexivity|].
  apply (hashDerivationModulo_fixed_output Sample.fetch Sample.fetch'
           (mkDerivationOutput "/nix/store/src" "sha256" "abcd")
           (mkDerivationOutput "/nix/store/src" "sha256" "abcd"));
    first [reflexivity | discriminate].
Defined.

Lemma Sample_pkg_hashable : hashable Sample.pkg.
Proof.
  apply hashable_inputs.
  - intros q Hq. apply list_elem_of_singleton in Hq. subst q.
    exists Sample.fetch. reflexivity.
  - intros q drv2 Hq Hload. apply list_elem_of_singleton in Hq. subst q.
    injection Hload as <-. apply hashable_fixed. reflexivity.
Qed.

Lemma hashDerivationModulo_modulo_inputs_witness :
  let fetched := hashString htSHA256 "fixed:out:sha256:abcd:/nix/store/src" in
  let text := "Derive(out;fixed:out:sha256:abcd:/nix/store/src;x86_64-linux;/bin/sh;)" in
  isFixedOutput Sample.pkg = false
  /\ unparseDerivation Sample.pkg = "Derive(out;/nix/store/fetch.drv;x86_64-linux;/bin/sh;)"
  /\ hashDerivationModulo 2 Sample.pkg ∅
     = (Ok (hashTerm text), {[ "/nix/store/fetch.drv" := fetched ]})
  /\ exists hs : list Hash,
       Forall2 (fun i hi => exists d n st',
                  derivationFromPath i.1 = Ok d /\
                  hashDerivationModulo n d ∅ = (Ok hi, st'))
               (inputDrvs Sample.pkg) hs
       /\ hashTerm text =
            hashTerm (unparseDerivation
                        (mkDerivation (outputs Sample.pkg)
                           (replaceKeys (inputDrvs Sample.pkg) hs [])
                           (inputSrcs Sample.pkg) (platform Sample.pkg)
                           (builder Sample.pkg) (args Sample.pkg) (env Sample.pkg)))
       /\ (exists n, forall m st, n <= m -> cache_ok st ->
             exists st', hashDerivationModulo m Sample.pkg st = (Ok (hashTerm text), st')
                         /\ cache_ok st')
       /\ (forall n st h' st', cache_ok st ->
             hashDerivationModulo n Sample.pkg st = (Ok h', st') -> h' = hashTerm text).
Proof.
  intros fetched text.
  assert (Hrun : hashDerivationModulo 2 Sample.pkg ∅
                 = (Ok (hashTerm text), {[ "/nix/store/fetch.drv" := fetched ]}))
    by (vm_compute; reflexivity).
  split; [reflexivity|]. split; [reflexivity|]. split; [exact Hrun|].
  destruct (hashDerivationModulo_modulo_inputs Sample.pkg eq_refl Sample_pkg_hashable)
    as (hs & h & Hall & Hh & Hn & _ & Hdet).
  assert (Hempty : cache_ok (∅ : gmap string Hash)).
  { intros p h0 Hp. rewrite lookup_empty in Hp. discriminate Hp. }
  assert (Heq : hashTerm text = h) by exact (Hdet 2 ∅ _ _ Hempty Hrun).
  exists hs. split; [exact Hall|].
  split; [rewrite Heq; exact Hh|]. rewrite Heq. split; [exact Hn | exact Hdet].
Defined.

(** The description of the specification's scenario with the hash "abc"
    for sha256, whose length is neither 64 nor 52, and the same with an
    algorithm that does not exist. *)
Lemma wrong_length_hash_is_Error_witness :
  let wrong := Sample.drvAttrs [Sample.binding "outputHash" (Str "abc" []);
                                Sample.binding "outputHashAlgo" (Str "sha256" [])] in
  let unknown := Sample.drvAttrs [Sample.binding "outputHash" (Str "abc" []);
                                  Sample.binding "outputHashAlgo" (Str "sha3" [])] in
  prim_derivationStrict 1 wrong Sample.world0 =
    (Throw (mkError Error "hash `abc' has wrong length for hash type `sha256'"),
     Sample.world0)
  /\ prim_derivationStrict 1 unknown Sample.world0 =
       (Throw (mkError EvalError "unknown hash algorithm `sha3'"), Sample.world0).
Proof.
  intros wrong unknown.
  assert (Hdone : forall algo,
    exists l,
      attributesDone
        (Sample.drvAttrs [Sample.binding "outputHash" (Str "abc" []);
                          Sample.binding "outputHashAlgo" (Str algo [])])
        Sample.world0 l Sample.world0
      /\ drv l = mkDerivation [] [] [] "x86_64-linux" "/bin/sh" [] (env (drv l))
      /\ context l = [] /\ outputHash l = "abc" /\ outputHashAlgo l = algo).
  { intros algo. eexists. split.
    - eexists _, _, _, _, _, _. split; [reflexivity|]. split; [reflexivity|].
      split; reflexivity.
    - simpl. auto. }
  split.
  - destruct (Hdone "sha256") as (l & Hl & Hdrv & Hc & Hh & Ha).
    destruct (@wrong_length_hash_is_Error Sample.Ext Sample.hashLib Sample.drvStore
                Sample.store Sample.evaluator 1 wrong Sample.world0 l Sample.world0
                (drv l) Sample.world0 Hl) as [_ Hwrong].
    + rewrite Hc. reflexivity.
    + rewrite Hdrv. discriminate.
    + rewrite Hdrv. discriminate.
    + rewrite Hh. discriminate.
    + destruct Hwrong as ([k p m] & Hrun & Hk & _ & Hm & Hp).
      * rewrite Ha. discriminate.
      * rewrite Hh, Ha. vm_compute. lia.
      * rewrite Hh, Ha. vm_compute. lia.
      * simpl in Hk, Hm, Hp. rewrite Hh, Ha in Hm. subst k p m. exact Hrun.
  - destruct (Hdone "sha3") as (l & Hl & Hdrv & Hc & Hh & Ha).
    destruct (@wrong_length_hash_is_Error Sample.Ext Sample.hashLib Sample.drvStore
                Sample.store Sample.evaluator 1 unknown Sample.world0 l Sample.world0
                (drv l) Sample.world0 Hl) as [Hunknown _].
    + rewrite Hc. reflexivity.
    + rewrite Hdrv. discriminate.
    + rewrite Hdrv. discriminate.
    + rewrite Hh. discriminate.
    + rewrite Ha in Hunknown. exact (Hunknown eq_refl).
Defined.

(** The [outPath] of the derivation "x": its context is the derivation
    file, not the output path. *)
Lemma outPath_context_is_drvPath :
  exists v w' outPath c,
    prim_derivationStrict 1 (Sample.drvAttrs []) Sample.world0 = (Ok v, w')
    /\ stringAttr "outPath" v = Some (outPath, c)
    /\ c <> StdSet.singleton outPath.
Proof.
  eexists _, _, _, _. split; [vm_compute; reflexivity|].
  split; [reflexivity|]. discriminate.
Defined.

Lemma derivationStrict_result_contexts_witness :
  let final :=
    mkDerivation [("out", mkDerivationOutput "/nix/store/output:out-x" "" "")]
      [] [] "x86_64-linux" "/bin/sh" []
      [("builder", "/bin/sh"); ("name", "x"); ("out", "/nix/store/output:out-x");
       ("system", "x86_64-linux")] in
  let v :=
    Attrs [("outPath", (Str "/nix/store/output:out-x" ["/nix/store/x.drv"], NoPos));
           ("drvPath", (Str "/nix/store/x.drv" ["=/nix/store/x.drv"], NoPos))] in
  exists w',
    prim_derivationStrict 1 (Sample.drvAttrs []) Sample.world0 = (Ok v, w')
    /\ writeDerivation final "x" (ext Sample.world0) = (Ok "/nix/store/x.drv", ext w')
    /\ exists l w1 d0 w2 outPath0 algo hash_ outPath drvPath,
         attributesDone (Sample.drvAttrs []) Sample.world0 l w1
         /\ processContext (context l) (drv l) w1 = (Ok d0, w2)
         /\ checkOutputHash l w2 = (Ok (outPath0, algo, hash_), w2)
         /\ (if String.eqb outPath0 "" then
               exists h0 c1,
                 hashDerivationModulo 1 (withOut d0 "" algo hash_) (drvHashes w2)
                   = (Ok h0, c1)
                 /\ outPath = makeStorePath "output:out" h0 (drvName l)
             else outPath = outPath0)
         /\ writeDerivation (withOut d0 outPath algo hash_) (drvName l) (ext w2)
            = (Ok drvPath, ext w')
         /\ v = Attrs [("outPath", (Str outPath [drvPath], NoPos));
                       ("drvPath", (Str drvPath ["=" ++ drvPath], NoPos))].
Proof.
  intros final v.
  exists (prim_derivationStrict 1 (Sample.drvAttrs []) Sample.world0).2.
  assert (Hrun : prim_derivationStrict 1 (Sample.drvAttrs []) Sample.world0
                 = (Ok v, (prim_derivationStrict 1 (Sample.drvAttrs []) Sample.world0).2))
    by (vm_compute; reflexivity).
  split; [exact Hrun|]. split; [vm_compute; reflexivity|].
  exact (derivationStrict_result_contexts 1 (Sample.drvAttrs []) Sample.world0 _ v Hrun).
Defined.


Lemma path_primitives_reject_context_witness :
  let e := mkError EvalError "string `/etc/motd' cannot refer to other paths" in
  (prim_pathExists (Str "/etc/motd" ["/nix/store/fetch.drv"]) Sample.world0
     = (Throw e, Sample.world0)
   /\ prim_readFile (Str "/etc/motd" ["/nix/store/fetch.drv"]) Sample.world0
      = (Throw e, Sample.world0))
  /\ (exists w1 w2,
        prim_pathExists (Str "/etc/motd" []) Sample.world0 = (Ok (Bool true), w1)
        /\ trace w1 = [EvPathExists "/etc/motd"]
        /\ prim_readFile (Str "/etc/motd" []) Sample.world0 = (Ok (Str "hello" []), w2)
        /\ trace w2 = [EvReadFile "/etc/motd"]).
Proof.
  intros e. split.
  - destruct (@path_primitives_reject_context Sample.Ext Sample.store Sample.evaluator
                (Str "/etc/motd" ["/nix/store/fetch.drv"]) Sample.world0
                "/etc/motd" ["/nix/store/fetch.drv"] (ext Sample.world0) eq_refl)
      as [Hctx _].
    destruct (Hctx ltac:(discriminate)) as (Hp & Hr & _). split; [exact Hp | exact Hr].
  - destruct (@path_primitives_reject_context Sample.Ext Sample.store Sample.evaluator
                (Str "/etc/motd" []) Sample.world0
                "/etc/motd" [] (ext Sample.world0) eq_refl) as [_ Hempty].
    destruct (Hempty eq_refl) as (Hp & Hr). eexists _, _.
    split; [rewrite Hp; vm_compute; reflexivity|]. split; [reflexivity|].
    split; [rewrite Hr; vm_compute; reflexivity|]. reflexivity.
Defined.

(** The claim as it was written fails where a build fails: the context
    holds a path that the store reports as not valid, and the call ends
    with the exception of the build of the path before it. *)
Lemma import_can_fail_otherwise :
  let args0 := VString "/nix/store/a/default.nix"
                 ["/nix/store/fetch.drv"; "/nix/store/zzz"] in
  @isValidPath _ SampleMore.brokenBuilds "/nix/store/zzz" (ext Sample.world0)
    = (Ok false, ext Sample.world0)
  /\ exists e w',
       @prim_import _ SampleMore.brokenBuilds Sample.evaluator args0 Sample.world0
         = (Throw e, w')
       /\ e = mkError Error "build failed"
       /\ kind e <> EvalError.
Proof.
  simpl. split; [reflexivity|]. eexists _, _.
  split; [vm_compute; reflexivity|]. split; [reflexivity | discriminate].
Defined.

Lemma import_checks_validity_witness :
  (exists w',
     prim_import (VString "/nix/store/a/default.nix"
                    ["/nix/store/fetch.drv"; "/nix/store/zzz"]) Sample.world0
       = (Throw (mkError EvalError
                   "cannot import `/nix/store/a/default.nix', since path `/nix/store/zzz' is not valid"),
          w')
     /\ ext w' = ext Sample.world0)
  /\ (exists w',
        prim_import (VString "/nix/store/a/default.nix" ["/nix/store/fetch.drv"])
          Sample.world0 = (Ok VNull, w')
        /\ contextWalk ["/nix/store/fetch.drv"] (ext Sample.world0) (ext w')).
Proof.
  assert (Hwalk : contextWalk (H := Sample.store) ["/nix/store/fetch.drv"]
                    (ext Sample.world0) (ext Sample.world0)).
  { apply (contextWalk_cons (H := Sample.store) "/nix/store/fetch.drv" []
             (ext Sample.world0) (ext Sample.world0) (ext Sample.world0));
      [reflexivity | reflexivity | reflexivity | constructor]. }
  split.
  - destruct (@import_checks_validity Sample.Ext Sample.store Sample.evaluator
                (VString "/nix/store/a/default.nix"
                   ["/nix/store/fetch.drv"; "/nix/store/zzz"])
                Sample.world0 _ _ (ext Sample.world0) eq_refl) as (Hbad & _ & _).
    exact (Hbad ["/nix/store/fetch.drv"] "/nix/store/zzz" [] _ _
             eq_refl Hwalk eq_refl eq_refl).
  - destruct (@import_checks_validity Sample.Ext Sample.store Sample.evaluator
                (VString "/nix/store/a/default.nix" ["/nix/store/fetch.drv"])
                Sample.world0 _ _ (ext Sample.world0) eq_refl) as (_ & Hok & Hgo).
    destruct (Hgo (ext Sample.world0) (Ok VNull) (ext Sample.world0) Hwalk eq_refl)
      as (w' & Hrun & Hw').
    exists w'. split; [exact Hrun|].
    destruct (Hok VNull w' Hrun) as (x1 & Hwalk' & _). rewrite Hw'. exact Hwalk.
Defined.

Lemma Sample_forcer_in_place : @forcesInPlace Sample.forcer.
Proof.
  intros a h h'. unfold forceValue, Sample.forcer.
  destruct (cells h !! a) as [[]|]; intros [= <-]; intros a' Hne;
    try reflexivity.
  simpl. apply lookup_insert_ne. congruence.
Qed.

(** The allocating forcer does not work in place. *)
Lemma lazyLists_not_in_place : ~ @forcesInPlace SampleMore.lazyLists.
Proof.
  intros Hplace.
  specialize (Hplace 1 (heap SampleMore.memoryThunk) _ eq_refl 6 ltac:(lia)).
  discriminate Hplace.
Qed.

Lemma lazyLists_keeps_other_cells : @keepsOtherCells SampleMore.lazyLists.
Proof.
  intros a h h'. unfold forceValue, SampleMore.lazyLists.
  destruct (cells h !! a) as [[]|]; intros [= <-]; simpl;
    try (split; [lia | reflexivity]).
  split; [lia|]. intros b Hb Hlt.
  rewrite lookup_insert_ne by lia. apply lookup_insert_ne. congruence.
Qed.


Lemma head_tail_results_witness :
  (exists m',
     prim_head 1 5 Sample.memoryNil
       = (Throw (mkError Error "`head' called on an empty list"), m')
     /\ prim_tail 1 5 Sample.memoryNil
        = (Throw (mkError Error "`tail' called on an empty list"), m'))
  /\ (exists m',
        prim_head 1 5 Sample.memory0 = (Ok tt, m')
        /\ cells (heap m') !! 5 = Some (VInt 1))
  /\ (exists m' elems',
        prim_tail 1 5 Sample.memory0 = (Ok tt, m')
        /\ cells (heap m') !! 5 = Some (VList elems' 2)
        /\ cells (heap m') !! (elems' + 0) = Some (VThunk "bb")
        /\ cells (heap m') !! (elems' + 1) = Some (VThunk "ccc")).
Proof.
  destruct (@head_tail_results Sample.forcer) as (Hnil & Hhead & Htail).
  split; [|split].
  - destruct (Hnil 1 5 Sample.memoryNil (heap Sample.memoryNil) 2 eq_refl eq_refl)
      as ([k1 p1 m1] & [k2 p2 m2] & m' & Hh & Ht & Hk1 & Hm1 & Hk2 & Hm2).
    exists m'. simpl in *.
    assert (p1 = "") by (vm_compute in Hh; congruence).
    assert (p2 = "") by (vm_compute in Ht; congruence).
    subst. split; [exact Hh | exact Ht].
  - exact (Hhead 1 5 Sample.memory0 (heap Sample.memory0) 2 3
             (mkHeap (<[2 := VInt 1]> (cells (heap Sample.memory0))) 6) (VInt 1)
             eq_refl eq_refl ltac:(lia) eq_refl eq_refl eq_refl).
  - destruct (Htail 1 5 Sample.memory0 (heap Sample.memory0) 2 3
                eq_refl eq_refl ltac:(lia) ltac:(lia) ltac:(simpl; lia)
                ltac:(simpl; lia) ltac:(simpl; lia))
      as (m' & elems' & Hrun & Hres & Hcopy).
    { intros j Hj. split; [lia|].
      destruct j as [|[|[|j]]]; [eexists; reflexivity ..|lia]. }
    exists m', elems'. split; [exact Hrun|]. split; [exact Hres|].
    split; [exact (Hcopy 0 ltac:(lia)) | exact (Hcopy 1 ltac:(lia))].
Defined.

(** * Further properties *)

Lemma M_bind_inv {S A B} (m : M S A) (f : A -> M S B) (s s' : S) (r : Res B) :
  (m ≫= f) s = (r, s') ->
  (exists a s1, m s = (Ok a, s1) /\ f a s1 = (r, s'))
  \/ (exists e, m s = (Throw e, s') /\ r = Throw e)
  \/ (m s = (OutOfFuel, s') /\ r = OutOfFuel).
Proof.
  unfold mbind, M_bind. destruct (m s) as [[a|e|] s1]; intros Hr.
  - left. eauto.
  - injection Hr as <- <-. right. left. eauto.
  - injection Hr as <- <-. right. right. auto.
Qed.

(** ** The hash cache *)

Section CacheProperties.
Context `{HashLib} `{DrvStore}.

Lemma keepsKnown_refl st : keepsKnown st st.
Proof. intros p h Hp _. exact Hp. Qed.

Lemma keepsKnown_trans st1 st2 st3 :
  keepsKnown st1 st2 -> keepsKnown st2 st3 -> keepsKnown st1 st3.
Proof. intros H12 H23 p h Hp Hty. apply H23; [|exact Hty]. apply H12; assumption. Qed.

Lemma keepsKnown_insert st p h :
  (forall h0, st !! p = Some h0 -> htype h0 = htUnknown) ->
  keepsKnown st (<[p := h]> st).
Proof.
  intros Hp q h' Hq Hty. destruct (decide (p = q)) as [->|Hne].
  - contradiction Hty. exact (Hp _ Hq).
  - rewrite lookup_insert_ne by exact Hne. exact Hq.
Qed.

Lemma hashInputs_keepsKnown (self : Derivation -> M (gmap string Hash) Hash) :
  (forall d st r st', self d st = (r, st') -> keepsKnown st st') ->
  forall inputs acc st r st',
    hashInputs self inputs acc st = (r, st') -> keepsKnown st st'.
Proof.
  intros Hself inputs.
  induction inputs as [|[p outs] rest IH]; intros acc st r st'; simpl.
  - intros [= _ <-]. apply keepsKnown_refl.
  - intros Hrun.
    apply M_bind_inv in Hrun as [(h0 & s0 & Hidx & Hrun)|[(e & Hidx & _)|(Hidx & _)]];
      try (unfold drvHashes_index in Hidx; destruct (st !! p); discriminate Hidx).
    assert (Hs0 : keepsKnown st s0 /\
                  (htype h0 = htUnknown ->
                   forall h1, s0 !! p = Some h1 -> htype h1 = htUnknown)).
    { apply drvHashes_index_inv in Hidx as [(Hnone & [= ->] & ->)|(h1 & Hl & [= <-] & ->)].
      - split.
        + apply keepsKnown_insert. intros h1 Hh1. congruence.
        + intros _ h1. rewrite lookup_insert_eq. intros [= <-]. reflexivity.
      - split; [apply keepsKnown_refl|]. intros Hty h2 Hh2. congruence. }
    destruct Hs0 as [Hs0 Hp].
    apply M_bind_inv in Hrun as [(h & s1 & Hstep & Hrun)|[(e & Hstep & _)|(Hstep & _)]].
    + apply (keepsKnown_trans _ _ _ Hs0).
      apply (keepsKnown_trans _ s1); [|exact (IH _ _ _ _ Hrun)].
      destruct (decide (htype h0 = htUnknown)) as [Hty|Hty];
        [|injection Hstep as _ <-; apply keepsKnown_refl].
      apply M_bind_Ok in Hstep as (d & s2 & Hd & Hstep).
      unfold liftRes in Hd. injection Hd as _ <-.
      apply M_bind_Ok in Hstep as (h1 & s3 & Hh1 & Hstep).
      apply M_bind_Ok in Hstep as ([] & s4 & Hset & [= _ <-]).
      injection Hset as <-.
      intros q h' Hq Hqty. destruct (decide (p = q)) as [->|Hne].
      * contradiction Hqty. exact (Hp Hty _ Hq).
      * rewrite lookup_insert_ne by exact Hne. exact (Hself _ _ _ _ Hh1 q h' Hq Hqty).
    + apply (keepsKnown_trans _ _ _ Hs0).
      destruct (decide (htype h0 = htUnknown)) as [Hty|Hty]; [|discriminate Hstep].
      apply M_bind_inv in Hstep as [(d & s2 & Hd & Hstep)|[(e' & Hd & _)|(Hd & _)]];
        try (unfold liftRes in Hd; injection Hd as _ <-; apply keepsKnown_refl).
      unfold liftRes in Hd. injection Hd as _ <-.
      apply M_bind_inv in Hstep as [(h1 & s3 & Hh1 & Hstep)|[(e' & Hh1 & _)|(Hh1 & _)]];
        try exact (Hself _ _ _ _ Hh1).
      apply M_bind_inv in Hstep as [([] & s4 & Hset & Hstep)|[(e' & Hset & _)|(Hset & _)]];
        discriminate.
    + apply (keepsKnown_trans _ _ _ Hs0).
      destruct (decide (htype h0 = htUnknown)) as [Hty|Hty]; [|discriminate Hstep].
      apply M_bind_inv in Hstep as [(d & s2 & Hd & Hstep)|[(e' & Hd & _)|(Hd & _)]];
        try (unfold liftRes in Hd; injection Hd as _ <-; apply keepsKnown_refl).
      unfold liftRes in Hd. injection Hd as _ <-.
      apply M_bind_inv in Hstep as [(h1 & s3 & Hh1 & Hstep)|[(e' & Hh1 & _)|(Hh1 & _)]];
        try exact (Hself _ _ _ _ Hh1).
      apply M_bind_inv in Hstep as [([] & s4 & Hset & Hstep)|[(e' & Hset & _)|(Hset & _)]];
        discriminate.
Qed.

(** X1. Whatever [hashDerivationModulo] returns or throws, an entry of
    the cache whose type is known is the same afterwards: the cache is
    written once per key. *)
Theorem hashDerivationModulo_write_once :
  forall fuel drv (st : gmap string Hash) r (st' : gmap string Hash),
    hashDerivationModulo fuel drv st = (r, st') ->
    forall p h, st !! p = Some h -> htype h <> htUnknown -> st' !! p = Some h.
Proof.
  induction fuel as [|fuel IH]; intros drv st r st'.
  - intros [= _ <-]. apply keepsKnown_refl.
  - rewrite hashDerivationModulo_eq. destruct (isFixedOutput drv).
    + destruct (outputs drv) as [|[k o] ?]; intros [= _ <-]; apply keepsKnown_refl.
    + intros Hrun.
      apply M_bind_inv in Hrun as [(i2 & s1 & Hi & [= _ <-])|[(e & Hi & _)|(Hi & _)]];
        exact (hashInputs_keepsKnown _ IH _ _ _ _ _ Hi).
Qed.

(** When every input has an entry of known type, the loop reads the
    cache and nothing else. *)
Lemma hashInputs_cached (self : Derivation -> M (gmap string Hash) Hash) :
  forall inputs hs acc st,
    Forall2 (fun i h => st !! i.1 = Some h /\ htype h <> htUnknown) inputs hs ->
    hashInputs self inputs acc st = (Ok (replaceKeys inputs hs acc), st).
Proof.
  induction inputs as [|[p outs] rest IH]; intros hs acc st Hall.
  - inversion Hall. reflexivity.
  - inversion Hall as [|i h rest' hs' [Hp Hty] Hrest]; subst. simpl in Hp.
    cbn [hashInputs]. unfold mbind at 1, M_bind at 1, drvHashes_index.
    rewrite Hp. unfold mbind at 1, M_bind at 1.
    destruct (decide (htype h = htUnknown)); [contradiction|].
    cbn. apply IH. exact Hrest.
Qed.

(** X2. A derivation that is not fixed-output and whose inputs all have
    an entry of known type in the cache is hashed from the cache alone:
    with fuel 1, for every store (also one that cannot load any
    derivation), the call returns the hash of the derivation with its
    input keys replaced by the printed cached hashes, and the cache is as
    it was. *)
Theorem hashDerivationModulo_from_cache :
  forall drv (st : gmap string Hash) (hs : list Hash) fuel,
    isFixedOutput drv = false ->
    Forall2 (fun i h => st !! i.1 = Some h /\ htype h <> htUnknown)
            (inputDrvs drv) hs ->
    hashDerivationModulo (S fuel) drv st =
      (Ok (hashTerm (unparseDerivation
                       (mkDerivation (outputs drv)
                          (replaceKeys (inputDrvs drv) hs [])
                          (inputSrcs drv) (platform drv) (builder drv)
                          (args drv) (env drv)))),
       st).
Proof.
  intros drv st hs fuel Hfix Hall.
  rewrite hashDerivationModulo_eq, Hfix.
  rewrite (M_bind_run _ _ _ _ _ (hashInputs_cached _ _ _ [] _ Hall)).
  reflexivity.
Qed.

End CacheProperties.

(** ** Ordered sets and maps *)

Lemma StdSet_insert_elem (k x : string) (s : StdSet.t) :
  x ∈ StdSet.insert k s <-> x = k \/ x ∈ s.
Proof.
  induction s as [|k' rest IH]; simpl.
  - rewrite list_elem_of_singleton. split; [auto|]. intros [?|Hin]; [auto|inversion Hin].
  - destruct (String.compare k k') eqn:Hc.
    + apply String.compare_eq_iff in Hc. subst k'. rewrite elem_of_cons. tauto.
    + rewrite !elem_of_cons. tauto.
    + rewrite !elem_of_cons, IH. tauto.
Qed.

Lemma StdMap_set_keys {V} (k x : string) (v : V) (m : StdMap.t V) :
  x ∈ StdMap.keys (StdMap.set k v m) <-> x = k \/ x ∈ StdMap.keys m.
Proof.
  unfold StdMap.keys. induction m as [|[k' v'] rest IH]; simpl.
  - rewrite list_elem_of_singleton. split; [auto|]. intros [?|Hin]; [auto|inversion Hin].
  - destruct (String.compare k k') eqn:Hc; simpl.
    + apply String.compare_eq_iff in Hc. subst k'. rewrite !elem_of_cons. tauto.
    + rewrite !elem_of_cons. tauto.
    + rewrite !elem_of_cons, IH. tauto.
Qed.

(** ** The context of a derivation *)

Section ContextProperties.
Context {X : Type} `{HashLib} `{DrvStore} `{Store X} `{Evaluator X}.

Lemma extendsInputs_refl d : extendsInputs d d.
Proof. unfold extendsInputs. auto 10. Qed.

Lemma extendsInputs_trans d1 d2 d3 :
  extendsInputs d1 d2 -> extendsInputs d2 d3 -> extendsInputs d1 d3.
Proof.
  intros (Ho & Hp & Hb & Ha & He & Hs & Hd) (Ho' & Hp' & Hb' & Ha' & He' & Hs' & Hd').
  unfold extendsInputs. repeat split; try congruence; auto.
Qed.

Lemma extendsInputs_add_inputSrc p d : extendsInputs d (add_inputSrc p d).
Proof.
  unfold extendsInputs. simpl. repeat split; auto.
  intros q Hq. apply StdSet_insert_elem. auto.
Qed.

Lemma extendsInputs_add_inputDrv p d : extendsInputs d (add_inputDrv p d).
Proof.
  unfold extendsInputs. simpl. repeat split; auto.
  intros q Hq. apply StdMap_set_keys. auto.
Qed.

Lemma extendsInputs_addClosure refs : forall d, extendsInputs d (addClosure refs d).
Proof.
  unfold addClosure. induction refs as [|j rest IH]; intros d; simpl.
  - apply extendsInputs_refl.
  - eapply extendsInputs_trans; [|apply IH].
    destruct (isDerivation j).
    + eapply extendsInputs_trans;
        [apply extendsInputs_add_inputSrc | apply extendsInputs_add_inputDrv].
    + apply extendsInputs_add_inputSrc.
Qed.

Lemma processContextPath_Ok path d (w w' : World X) d' :
  processContextPath path d w = (Ok d', w') ->
  extendsInputs d d'
  /\ isStorePath (contextTarget path) = true
  /\ (contextTarget path ∈ inputSrcs d'
      \/ contextTarget path ∈ StdMap.keys (inputDrvs d')).
Proof.
  unfold processContextPath. intros Hrun.
  apply M_bind_Ok in Hrun as (c & w1 & Hc & Hrun).
  destruct path as [|c0 rest]; [discriminate Hc|]. injection Hc as <- <-.
  apply M_bind_Ok in Hrun as ([path1 d1] & w2 & Hstep & Hrun).
  assert (Hd1 : extendsInputs d d1 /\ path1 = stripEq (String c0 rest)).
  { simpl. destruct (Ascii.eqb c0 "=").
    - apply M_bind_Ok in Hstep as (refs & w3 & _ & [= <- <- _]).
      split; [apply extendsInputs_addClosure | reflexivity].
    - injection Hstep as <- <- _. split; [apply extendsInputs_refl | reflexivity]. }
  destruct Hd1 as [Hd1 Hpath1].
  apply M_bind_Ok in Hrun as (c2 & w3 & Hc2 & Hrun).
  unfold contextTarget. rewrite <- Hpath1.
  destruct path1 as [|c1 rest1]; [discriminate Hc2|]. injection Hc2 as <- <-.
  destruct (Ascii.eqb c1 "~"); simpl in Hrun.
  - destruct (isStorePath rest1); [|discriminate Hrun]. simpl in Hrun.
    injection Hrun as <- _. split; [|split; [reflexivity|]].
    + eapply extendsInputs_trans; [exact Hd1 | apply extendsInputs_add_inputSrc].
    + left. simpl. apply StdSet_insert_elem. auto.
  - destruct (isStorePath (String c1 rest1)); [|discriminate Hrun]. simpl in Hrun.
    destruct (isDerivation (String c1 rest1)); injection Hrun as <- _.
    + split; [|split; [reflexivity|]].
      * eapply extendsInputs_trans; [exact Hd1 | apply extendsInputs_add_inputDrv].
      * right. simpl. apply StdMap_set_keys. auto.
    + split; [|split; [reflexivity|]].
      * eapply extendsInputs_trans; [exact Hd1 | apply extendsInputs_add_inputSrc].
      * left. simpl. apply StdSet_insert_elem. auto.
Qed.

Lemma processContext_extends paths :
  forall d (w w' : World X) d',
    processContext paths d w = (Ok d', w') -> extendsInputs d d'.
Proof.
  induction paths as [|i rest IH]; intros d w w' d'; simpl.
  - intros [= <- _]. apply extendsInputs_refl.
  - intros Hrun. apply M_bind_Ok in Hrun as (d1 & w1 & Hstep & Hrun).
    apply processContextPath_Ok in Hstep as (Hd1 & _).
    exact (extendsInputs_trans _ _ _ Hd1 (IH _ _ _ _ Hrun)).
Qed.

(** X3. When the loop over the context of a derivation has run through,
    every path of the context, its marks [=] and [~] taken off, is a store
    path and is an input source or an input derivation of the result; the
    inputs there were before are still there, and the outputs, the
    platform, the builder, the arguments and the environment are as
    before. *)
Theorem processContext_inputs :
  forall paths d (w w' : World X) d',
    processContext paths d w = (Ok d', w') ->
    extendsInputs d d'
    /\ forall p, p ∈ paths ->
         isStorePath (contextTarget p) = true
         /\ (contextTarget p ∈ inputSrcs d'
             \/ contextTarget p ∈ StdMap.keys (inputDrvs d')).
Proof.
  induction paths as [|i rest IH]; intros d w w' d'; simpl.
  - intros [= <- _]. split; [apply extendsInputs_refl|]. intros p Hp. inversion Hp.
  - intros Hrun. apply M_bind_Ok in Hrun as (d1 & w1 & Hstep & Hrun).
    apply processContextPath_Ok in Hstep as (Hd1 & Hstore & Hin).
    apply IH in Hrun as (Hd' & Hrest).
    split; [exact (extendsInputs_trans _ _ _ Hd1 Hd')|].
    intros p Hp. apply elem_of_cons in Hp as [->|Hp]; [|exact (Hrest p Hp)].
    split; [exact Hstore|].
    destruct Hd' as (_ & _ & _ & _ & _ & Hs & Hd). destruct Hin; auto.
Qed.


End ContextProperties.

(** ** More on the derivation constructor *)

Section ConstructorMore.
Context {X : Type} `{HashLib} `{DrvStore} `{Store X} `{Evaluator X}.

Lemma withPrefix_Throw {S A} (f : Exn -> Exn) (m : M S A) (s s' : S) (e : Exn) :
  withPrefix f m s = (Throw e, s') ->
  exists e0, m s = (Throw e0, s') /\ e = f e0.
Proof.
  unfold withPrefix. destruct (m s) as [[a|e0|] s1]; intros Hr;
    try discriminate. injection Hr as <- <-. eauto.
Qed.


Lemma coerceArgs_frame es :
  forall l (w w' : World X) l',
    coerceArgs es l w = (Ok l', w') ->
    builder (drv l') = builder (drv l) /\ platform (drv l') = platform (drv l).
Proof.
  induction es as [|e es IH]; intros l w w' l'; simpl.
  - intros [= <- _]. auto.
  - intros Hrun. apply M_bind_Ok in Hrun as ([s c] & w1 & _ & Hrun).
    destruct (IH _ _ _ _ Hrun) as [-> ->]. auto.
Qed.

Lemma processAttrs_frame pos attrs :
  forall l (w w' : World X) l',
    processAttrs pos attrs l w = (Ok l', w') ->
    ("builder" ∉ map fst attrs -> builder (drv l') = builder (drv l))
    /\ ("system" ∉ map fst attrs -> platform (drv l') = platform (drv l)).
Proof.
  induction attrs as [|[key [value p]] rest IH]; intros l w w' l'; simpl.
  - intros [= <- _]. auto.
  - intros Hrun. apply M_bind_Ok in Hrun as (l1 & w1 & Hstep & Hrun).
    destruct (IH _ _ _ _ Hrun) as [Hb Hs].
    unfold processAttr in Hstep. apply withPrefix_Ok in Hstep.
    assert (Hstep' : (key <> "builder" -> builder (drv l1) = builder (drv l))
                     /\ (key <> "system" -> platform (drv l1) = platform (drv l))).
    { destruct (String.eqb key "args").
      - unfold processArgs in Hstep.
        apply M_bind_Ok in Hstep as (v & w2 & _ & Hstep).
        apply M_bind_Ok in Hstep as (es & w3 & _ & Hstep).
        destruct (coerceArgs_frame _ _ _ _ _ Hstep). auto.
      - unfold processEnv in Hstep.
        apply M_bind_Ok in Hstep as ([s c] & w2 & _ & Hstep).
        destruct (String.eqb_spec key "builder").
        { injection Hstep as <- _. split; [contradiction | reflexivity]. }
        destruct (String.eqb_spec key "system").
        { injection Hstep as <- _. split; [reflexivity | contradiction]. }
        destruct (String.eqb key "name"); [injection Hstep as <- _; auto|].
        destruct (String.eqb key "outputHash"); [injection Hstep as <- _; auto|].
        destruct (String.eqb key "outputHashAlgo"); [injection Hstep as <- _; auto|].
        destruct (String.eqb key "outputHashMode"); [|injection Hstep as <- _; auto].
        destruct (String.eqb s "recursive"); [injection Hstep as <- _; auto|].
        destruct (String.eqb s "flat"); [injection Hstep as <- _; auto|].
        discriminate Hstep. }
    destruct Hstep' as [Hb1 Hs1]. split; intros Hnot;
      apply not_elem_of_cons in Hnot as [Hne Hnot].
    + rewrite (Hb Hnot). apply Hb1. simpl in Hne. congruence.
    + rewrite (Hs Hnot). apply Hs1. simpl in Hne. congruence.
Qed.

(** X6. (1) A description without [name] is refused with the [EvalError]
    "required attribute `name' missing" as soon as it has been evaluated
    to an attribute set: no attribute is evaluated. (2) The loop over the
    attributes leaves the builder as it was when the set has no attribute
    [builder], and the platform when it has no [system]. (3) After the
    context loop, an empty builder is refused with "required attribute
    `builder' missing", and, the builder being there, an empty platform
    with "required attribute `system' missing"; both before the output
    hash and the name are looked at. *)
Theorem required_attributes :
  (forall fuel args0 (w : World X) attrs x1,
     evalExpr args0 (ext w) = (Ok (Attrs attrs), x1) ->
     ATermMap.get "name" attrs = None ->
     prim_derivationStrict fuel args0 w =
       (Throw (mkError EvalError "required attribute `name' missing"), set_ext w x1))
  /\ (forall pos attrs l (w w' : World X) l',
        processAttrs pos attrs l w = (Ok l', w') ->
        ("builder" ∉ map fst attrs -> builder (drv l') = builder (drv l))
        /\ ("system" ∉ map fst attrs -> platform (drv l') = platform (drv l)))
  /\ (forall fuel l (w w1 : World X) d,
        processContext (context l) (drv l) w = (Ok d, w1) ->
        (builder (drv l) = "" ->
         instantiate fuel l w =
           (Throw (mkError EvalError "required attribute `builder' missing"), w1))
        /\ (builder (drv l) <> "" -> platform (drv l) = "" ->
            instantiate fuel l w =
              (Throw (mkError EvalError "required attribute `system' missing"), w1))).
Proof.
  split; [|split].
  - intros fuel args0 w attrs x1 Hev Hname. unfold prim_derivationStrict.
    rewrite (M_bind_run _ _ _ _ _ (liftExt_run _ _ _ _ Hev)).
    unfold queryAllAttrs. unfold mbind, M_bind, mret, M_ret. rewrite Hname. reflexivity.
  - exact processAttrs_frame.
  - intros fuel l w w1 d Hctx.
    destruct (processContext_extends _ _ _ _ _ Hctx) as (_ & Hp & Hb & _).
    unfold instantiate. rewrite (M_bind_run _ _ _ _ _ Hctx). rewrite Hb, Hp.
    split.
    + intros ->. reflexivity.
    + intros Hne ->. destruct (String.eqb_spec (builder (drv l)) ""); [contradiction|].
      reflexivity.
Qed.

(** What a successful run of the part after the attribute loop has done
    to the cache. *)
Lemma instantiate_cache fuel l (w w' : World X) v :
  instantiate fuel l w = (Ok v, w') ->
  exists d0 w1 outPath0 algo hash_ outPath drvPath x x' c h c',
    processContext (context l) (drv l) w = (Ok d0, w1)
    /\ checkOutputHash l w1 = (Ok (outPath0, algo, hash_), w1)
    /\ (outPath0 = "" ->
        exists h0 c0,
          hashDerivationModulo fuel
            (set_output "out" (mkDerivationOutput "" algo hash_) (set_env "out" "" d0))
            (drvHashes w1) = (Ok h0, c0)
          /\ outPath = makeStorePath "output:out" h0 (drvName l))
    /\ writeDerivation
         (set_output "out" (mkDerivationOutput outPath algo hash_)
            (set_env "out" outPath
               (set_output "out" (mkDerivationOutput "" algo hash_)
                  (set_env "out" "" d0))))
         (drvName l) x = (Ok drvPath, x')
    /\ hashDerivationModulo fuel
         (set_output "out" (mkDerivationOutput outPath algo hash_)
            (set_env "out" outPath
               (set_output "out" (mkDerivationOutput "" algo hash_)
                  (set_env "out" "" d0))))
         c = (Ok h, c')
    /\ drvHashes w' = <[drvPath := h]> c'
    /\ v = makeAttrs
             [("outPath", makeAttrRHS (makeStr outPath (StdSet.singleton drvPath)) NoPos);
              ("drvPath", makeAttrRHS (makeStr drvPath (StdSet.singleton ("=" ++ drvPath)))
                            NoPos)].
Proof.
  unfold instantiate. intros Hrun.
  apply M_bind_Ok in Hrun as (d0 & w1 & Hctx & Hrun).
  destruct (String.eqb (builder d0) ""); [discriminate|].
  destruct (String.eqb (platform d0) ""); [discriminate|].
  apply M_bind_Ok in Hrun as ([[outPath0 algo] hash_] & w2 & Hcheck & Hrun).
  assert (w2 = w1) as ->.
  { unfold checkOutputHash in Hcheck.
    destruct (String.eqb (outputHash l) ""); [injection Hcheck as _ _ _ <-; reflexivity|].
    destruct (decide (parseHashType (outputHashAlgo l) = htUnknown)); [discriminate|].
    apply M_bind_Ok in Hcheck as (h & w3 & Hh & [= _ _ _ <-]).
    destruct (Nat.eqb _ _); [injection Hh as _ <-; reflexivity|].
    destruct (Nat.eqb _ _); [injection Hh as _ <-; reflexivity | discriminate]. }
  apply M_bind_Ok in Hrun as ([] & w3 & Hname & Hrun).
  unfold liftRes in Hname. injection Hname as _ <-.
  destruct (isDerivation (drvName l)); [discriminate|].
  apply M_bind_Ok in Hrun as (outPath & w4 & Hout & Hrun).
  apply M_bind_Ok in Hrun as (drvPath & w5 & Hwrite & Hrun).
  apply M_bind_Ok in Hrun as (h & w6 & Hh & Hrun).
  apply M_bind_Ok in Hrun as ([] & w7 & Hset & [= <- <-]).
  apply liftExt_Ok in Hwrite as (x' & Hwrite & ->).
  apply liftHashes_Ok in Hh as (c' & Hh & ->).
  apply liftHashes_Ok in Hset as (c'' & Hset & ->).
  injection Hset as <-.
  exists d0, w1, outPath0, algo, hash_, outPath, drvPath, (ext w4), x',
    (drvHashes w4), h, c'.
  split; [exact Hctx|]. split; [exact Hcheck|]. split.
  { intros ->. simpl in Hout.
    apply M_bind_Ok in Hout as (h0 & w8 & Hh0 & [= <- _]).
    apply liftHashes_Ok in Hh0 as (c0 & Hh0 & _). eauto. }
  split; [exact Hwrite|]. split; [exact Hh|]. split; reflexivity.
Qed.

(** X7. A successful call of the constructor has left the attribute loop
    with local variables [l], the context loop with a derivation [d0] in
    a world [w2], and the check of the output hash with [outPath0], [algo]
    and [hash_]. Let [final] be [d0] with the output and the variable
    "out" set to the output path returned, and let [c1] be the cache
    after the output path was computed: the cache of [w2] after hashing
    the masked derivation, or the cache of [w2] itself if the output path
    came from the output hash. Then [final] was written under the
    [drvPath] returned, [hashDerivationModulo] was run on [final] in
    [c1], and the cache after the call is the cache that run left, with
    the hash it returned at [drvPath]. *)
Theorem derivationStrict_fills_cache :
  forall fuel args0 (w w' : World X) v,
    prim_derivationStrict fuel args0 w = (Ok v, w') ->
    exists l w1 d0 w2 outPath0 algo hash_ outPath drvPath c1 h c2,
      attributesDone args0 w l w1
      /\ processContext (context l) (drv l) w1 = (Ok d0, w2)
      /\ checkOutputHash l w2 = (Ok (outPath0, algo, hash_), w2)
      /\ stringAttr "outPath" v = Some (outPath, [drvPath])
      /\ stringAttr "drvPath" v = Some (drvPath, ["=" ++ drvPath])
      /\ (if String.eqb outPath0 "" then
            exists h0,
              hashDerivationModulo fuel (withOut d0 "" algo hash_) (drvHashes w2)
                = (Ok h0, c1)
          else c1 = drvHashes w2)
      /\ writeDerivation (withOut d0 outPath algo hash_) (drvName l) (ext w2)
         = (Ok drvPath, ext w')
      /\ hashDerivationModulo fuel (withOut d0 outPath algo hash_) c1 = (Ok h, c2)
      /\ drvHashes w' = <[drvPath := h]> c2.
Proof.
  intros fuel args0 w w' v Hrun.
  apply prim_derivationStrict_inv in Hrun as (l & w1 & Hdone & Hrun).
  apply instantiate_inv in Hrun
    as (d0 & w2 & outPath0 & algo & hash_ & outPath & c1 & drvPath & x' & h & c2
        & Hctx & _ & _ & Hcheck & _ & _ & Hout & Hwrite & Hh & -> & ->).
  exists l, w1, d0, w2, outPath0, algo, hash_, outPath, drvPath, c1, h, c2.
  split; [exact Hdone|]. split; [exact Hctx|]. split; [exact Hcheck|].
  split; [reflexivity|]. split; [reflexivity|].
  split; [|split; [exact Hwrite | split; [exact Hh | reflexivity]]].
  destruct (String.eqb outPath0 "").
  - destruct Hout as (h0 & Hh0 & _). exists h0. exact Hh0.
  - exact (proj2 Hout).
Qed.

(** X8. Without an output hash (whatever [outputHashAlgo] says), the
    output path of a derivation is [makeStorePath] of "output:out", of the
    hash-modulo of the masked derivation, and of the name; the masked
    derivation is the one the context loop returns with the environment
    variable "out" empty and the output "out" without path, algorithm and
    hash. *)
Theorem output_path_of_masked_derivation :
  forall fuel l (w w' : World X) v,
    outputHash l = "" ->
    instantiate fuel l w = (Ok v, w') ->
    exists d0 w1 h c',
      processContext (context l) (drv l) w = (Ok d0, w1)
      /\ hashDerivationModulo fuel
           (set_output "out" (mkDerivationOutput "" "" "") (set_env "out" "" d0))
           (drvHashes w1) = (Ok h, c')
      /\ exists drvPath,
           stringAttr "outPath" v =
             Some (makeStorePath "output:out" h (drvName l), StdSet.singleton drvPath).
Proof.
  intros fuel l w w' v Hempty Hrun.
  apply instantiate_cache in Hrun
    as (d0 & w1 & outPath0 & algo & hash_ & outPath & drvPath & x & x' & c & h & c'
        & Hctx & Hcheck & Hout & _ & _ & _ & ->).
  unfold checkOutputHash in Hcheck. rewrite Hempty in Hcheck. simpl in Hcheck.
  injection Hcheck as <- <- <-.
  destruct (Hout eq_refl) as (h0 & c0 & Hh0 & ->).
  exists d0, w1, h0, c0. split; [exact Hctx|]. split; [exact Hh0|].
  exists drvPath. reflexivity.
Qed.

End ConstructorMore.

(** ** Further primitives on terms *)

Lemma compare_Lt_trans (a b c : string) :
  String.compare a b = Lt -> String.compare b c = Lt -> String.compare a c = Lt.
Proof.
  intros Hab Hbc. apply OrderedTypeEx.String_as_OT.cmp_lt.
  apply (OrderedTypeEx.String_as_OT.lt_trans a b c);
    apply OrderedTypeEx.String_as_OT.cmp_lt; assumption.
Qed.

Lemma compare_Gt_Lt (a b : string) :
  String.compare a b = Gt -> String.compare b a = Lt.
Proof.
  intros Hab. rewrite String.compare_antisym, Hab. reflexivity.
Qed.

Lemma StdSet_insert_ascending (k : string) (s : StdSet.t) :
  ascending s -> ascending (StdSet.insert k s).
Proof.
  unfold ascending. induction s as [|k' rest IH]; intros Hs; simpl.
  - constructor; constructor.
  - apply Sorted.StronglySorted_inv in Hs as [Hrest Hall].
    destruct (String.compare k k') eqn:Hc.
    + constructor; assumption.
    + constructor; [constructor; assumption|].
      constructor; [exact Hc|].
      eapply Forall_impl; [exact Hall|]. intros x Hx.
      exact (compare_Lt_trans _ _ _ Hc Hx).
    + constructor; [exact (IH Hrest)|].
      apply Forall_forall. intros x Hx. apply StdSet_insert_elem in Hx as [->|Hx].
      * exact (compare_Gt_Lt _ _ Hc).
      * rewrite Forall_forall in Hall. exact (Hall x Hx).
Qed.

Lemma substring_length (s : string) :
  forall n m, n + m <= String.length s ->
    String.length (String.substring n m s) = m.
Proof.
  induction s as [|c s IH]; intros n m Hle; simpl in Hle.
  - assert (n = 0) by lia. assert (m = 0) by lia. subst. reflexivity.
  - destruct n as [|n]; destruct m as [|m]; simpl; try reflexivity.
    + f_equal. apply IH. lia.
    + apply IH. lia.
    + apply IH. lia.
Qed.

Lemma ATermMap_get_remove (k k' : string) (m : ATermMap.t) :
  ATermMap.get k (ATermMap_remove k' m) =
    if String.eqb k' k then None else ATermMap.get k m.
Proof.
  unfold ATermMap_remove. induction m as [|[k0 rhs] rest IH]; simpl.
  - destruct (String.eqb k' k); reflexivity.
  - destruct (String.eqb_spec k' k0) as [->|Hne0]; simpl.
    + rewrite IH. rewrite (String.eqb_sym k k0).
      destruct (String.eqb k0 k); reflexivity.
    + rewrite IH. destruct (String.eqb_spec k k0) as [->|Hne].
      * destruct (String.eqb_spec k' k0); [contradiction | reflexivity].
      * reflexivity.
Qed.

Lemma ATermMap_get_set (k k' : string) rhs (m : ATermMap.t) :
  ATermMap.get k (ATermMap.set k' rhs m) =
    if String.eqb k k' then Some rhs else ATermMap.get k m.
Proof.
  induction m as [|[k0 rhs0] rest IH]; simpl.
  - reflexivity.
  - destruct (String.eqb_spec k' k0) as [->|Hne0]; simpl.
    + destruct (String.eqb k k0); reflexivity.
    + rewrite IH. destruct (String.eqb_spec k k0) as [->|Hne].
      * destruct (String.eqb_spec k0 k'); [congruence | reflexivity].
      * reflexivity.
Qed.

Lemma discardOutput_no_eq (p rest : string) : discardOutput p <> String "=" rest.
Proof.
  destruct p as [|c r]; simpl; [discriminate|].
  destruct (Ascii.eqb_spec c "="); [discriminate|]. congruence.
Qed.

Section TermProperties.
Context {X : Type} `{Store X} `{Evaluator X} `{TermEvaluator X} `{TextStore X}.

Lemma discardLoop_step c r rest context2 (w : World X) :
  discardLoop (String c r :: rest) context2 w
  = discardLoop rest (StdSet.insert (discardOutput (String c r)) context2) w.
Proof.
  simpl. unfold mbind, M_bind, at0, mret, M_ret. simpl.
  destruct (Ascii.eqb c "="); reflexivity.
Qed.

Lemma discardLoop_empty context :
  forall context2 (w : World X),
    "" ∈ context ->
    discardLoop context context2 w
      = (Throw (mkError StdException "basic_string::at"), w).
Proof.
  induction context as [|i rest IH]; intros context2 w Hin; [inversion Hin|].
  destruct i as [|c r]; [reflexivity|].
  apply elem_of_cons in Hin as [Hin|Hin]; [discriminate Hin|].
  rewrite discardLoop_step. exact (IH _ w Hin).
Qed.

Lemma discardLoop_spec context :
  forall context2 (w : World X),
    "" ∉ context ->
    exists c2,
      discardLoop context context2 w = (Ok c2, w)
      /\ forall q, q ∈ c2 <-> q ∈ context2 \/ exists p, p ∈ context /\ q = discardOutput p.
Proof.
  induction context as [|i rest IH]; intros context2 w Hne.
  - exists context2. split; [reflexivity|]. intros q. split; [auto|].
    intros [Hq|(p & Hp & _)]; [exact Hq | inversion Hp].
  - apply not_elem_of_cons in Hne as [Hi Hne].
    destruct i as [|c r]; [contradiction Hi; reflexivity|].
    destruct (IH (StdSet.insert (discardOutput (String c r)) context2) w Hne)
      as (c2 & Hrun & Hmem).
    exists c2. split.
    + rewrite discardLoop_step. exact Hrun.
    + intros q. rewrite Hmem, StdSet_insert_elem. split.
      * intros [[->|Hq]|(p & Hp & ->)]; [right|left|right]; try assumption.
        -- exists (String c r). split; [left | reflexivity].
        -- exists p. split; [right; exact Hp | reflexivity].
      * intros [Hq|(p & Hp & ->)]; [left; right; exact Hq|].
        apply elem_of_cons in Hp as [->|Hp]; [left; left; reflexivity|].
        right. exists p. auto.
Qed.

(** X9. Let the argument coerce to the text [s] with the context
    [context]. If no path of the context is empty,
    [unsafeDiscardOutputDependency] returns [s] with the context that
    holds, for each path of [context], the path with a leading [=]
    turned into [~], and nothing else; no path of the result begins with
    [=]. An empty path in the context ends the call with
    [std::out_of_range]. *)
Theorem unsafeDiscardOutputDependency_context :
  forall args0 (w : World X) s context x',
    coerceToString args0 false true (ext w) = (Ok (s, context), x') ->
    ("" ∈ context ->
     prim_unsafeDiscardOutputDependency args0 w
       = (Throw (mkError StdException "basic_string::at"), set_ext w x'))
    /\ ("" ∉ context ->
        exists c2,
          prim_unsafeDiscardOutputDependency args0 w = (Ok (makeStr s c2), set_ext w x')
          /\ (forall q, q ∈ c2 <-> exists p, p ∈ context /\ q = discardOutput p)
          /\ (forall q rest, q ∈ c2 -> q <> String "=" rest)).
Proof.
  intros args0 w s context x' Hco. unfold prim_unsafeDiscardOutputDependency.
  rewrite (M_bind_run _ _ _ _ _ (liftExt_run _ _ _ _ Hco)). split.
  - intros Hin. unfold mbind, M_bind.
    rewrite (discardLoop_empty context [] _ Hin). reflexivity.
  - intros Hne. destruct (discardLoop_spec context [] (set_ext w x') Hne)
      as (c2 & Hrun & Hmem).
    exists c2. split; [rewrite (M_bind_run _ _ _ _ _ Hrun); reflexivity|].
    assert (Hmem' : forall q, q ∈ c2 <-> exists p, p ∈ context /\ q = discardOutput p).
    { intros q. rewrite Hmem. split; [|auto]. intros [Hq|Hq]; [inversion Hq | exact Hq]. }
    split; [exact Hmem'|]. intros q rest Hq.
    apply Hmem' in Hq as (p & _ & ->). apply discardOutput_no_eq.
Qed.

Lemma toFileRefs_spec name context :
  forall refs (w : World X),
    "" ∉ context ->
    ((exists p, p ∈ context /\ isDerivation (stripEq p) = true) ->
     toFileRefs name context refs w =
       (Throw (mkError EvalError
                 ("in `toFile': the file `" ++ name
                  ++ "' cannot refer to derivation outputs")), w))
    /\ ((forall p, p ∈ context -> isDerivation (stripEq p) = false) ->
        exists refs',
          toFileRefs name context refs w = (Ok refs', w)
          /\ forall q, q ∈ refs' <-> q ∈ refs \/ exists p, p ∈ context /\ q = stripEq p).
Proof.
  induction context as [|i rest IH]; intros refs w Hne.
  - split; [intros (p & Hp & _); inversion Hp|]. intros _. exists refs.
    split; [reflexivity|]. intros q. split; [auto|].
    intros [Hq|(p & Hp & _)]; [exact Hq | inversion Hp].
  - apply not_elem_of_cons in Hne as [Hi Hne].
    destruct i as [|c r]; [contradiction Hi; reflexivity|].
    assert (Hstep : toFileRefs name (String c r :: rest) refs w =
              if isDerivation (stripEq (String c r)) then
                (Throw (mkError EvalError
                          ("in `toFile': the file `" ++ name
                           ++ "' cannot refer to derivation outputs")), w)
              else toFileRefs name rest (StdSet.insert (stripEq (String c r)) refs) w).
    { simpl. unfold mbind, M_bind, at0, mret, M_ret. simpl.
      destruct (Ascii.eqb c "="); simpl;
        match goal with |- context [isDerivation ?p] => destruct (isDerivation p) end;
        reflexivity. }
    rewrite Hstep.
    destruct (IH (StdSet.insert (stripEq (String c r)) refs) w Hne) as [Hbad Hgood].
    split.
    + intros (p & Hp & Hd). destruct (isDerivation (stripEq (String c r))) eqn:Hd0;
        [reflexivity|].
      apply elem_of_cons in Hp as [->|Hp]; [congruence|]. apply Hbad. eauto.
    + intros Hall. rewrite (Hall (String c r)) by left.
      destruct Hgood as (refs' & Hrun & Hmem); [intros p Hp; apply Hall; right; exact Hp|].
      exists refs'. split; [exact Hrun|].
      intros q. rewrite Hmem, StdSet_insert_elem. split.
      * intros [[->|Hq]|(p & Hp & ->)]; [right|left|right]; try assumption.
        -- exists (String c r). split; [left | reflexivity].
        -- exists p. split; [right; exact Hp | reflexivity].
      * intros [Hq|(p & Hp & ->)]; [left; right; exact Hq|].
        apply elem_of_cons in Hp as [->|Hp]; [left; left; reflexivity|].
        right. exists p. auto.
Qed.

(** X10. Let the arguments of [toFile] evaluate to the name [name] and to
    the contents [contents] with the context [context], no path of which
    is empty. If a path of the context, a leading [=] taken off, is a
    derivation, the call ends with the [EvalError] "in `toFile': the file
    `<name>' cannot refer to derivation outputs", and the store has not
    been called. If none is, the references handed to the store are those
    paths, and the result is the store path as a string whose context is
    that path alone; in read-only mode the path is computed and nothing
    is added to the store. *)
Theorem toFile_references :
  forall args0 args1 (w : World X) name contents context x1 x2,
    evalStringNoCtx args0 (ext w) = (Ok name, x1) ->
    evalString args1 x1 = (Ok (contents, context), x2) ->
    "" ∉ context ->
    ((exists p, p ∈ context /\ isDerivation (stripEq p) = true) ->
     prim_toFile args0 args1 w =
       (Throw (mkError EvalError
                 ("in `toFile': the file `" ++ name
                  ++ "' cannot refer to derivation outputs")), set_ext w x2))
    /\ ((forall p, p ∈ context -> isDerivation (stripEq p) = false) ->
        exists refs,
          (forall q, q ∈ refs <-> exists p, p ∈ context /\ q = stripEq p)
          /\ prim_toFile args0 args1 w =
               (storePath ← (if readOnlyMode
                             then mret (computeStorePathForText name contents refs)
                             else liftExt (addTextToStore name contents refs));
                mret (makeStr storePath (StdSet.singleton storePath))) (set_ext w x2)
          /\ (readOnlyMode = true ->
              prim_toFile args0 args1 w =
                (Ok (makeStr (computeStorePathForText name contents refs)
                       [computeStorePathForText name contents refs]),
                 set_ext w x2))).
Proof.
  intros args0 args1 w name contents context x1 x2 Hname Hstr Hne.
  unfold prim_toFile.
  rewrite (M_bind_run _ _ _ _ _ (liftExt_run _ _ _ _ Hname)).
  assert (Hstr' : liftExt (evalString args1) (set_ext w x1)
                  = (Ok (contents, context), set_ext w x2)).
  { apply (liftExt_run (evalString args1) (set_ext w x1)). exact Hstr. }
  rewrite (M_bind_run _ _ _ _ _ Hstr').
  destruct (toFileRefs_spec name context [] (set_ext w x2) Hne) as [Hbad Hgood].
  split.
  - intros Hex. unfold mbind at 1, M_bind at 1. rewrite (Hbad Hex). reflexivity.
  - intros Hall. destruct (Hgood Hall) as (refs & Hrun & Hmem).
    exists refs. split.
    { intros q. rewrite Hmem. split; [|auto]. intros [Hq|Hq]; [inversion Hq | exact Hq]. }
    rewrite (M_bind_run _ _ _ _ _ Hrun). split; [reflexivity|].
    intros ->. reflexivity.
Qed.

(** X11. Let the arguments of [substring] evaluate to [start], [len] and
    the string [s] with context [context]. A negative [start] gives the
    [EvalError] "negative start position in `substring'" (after all three
    arguments were evaluated); a [start] beyond the end of [s] gives
    [std::out_of_range]; otherwise the result is the part of [s] from
    [start] on, of [len] characters or as many as are left if that is
    fewer or [len] is negative, and it has the context of [s]. *)
Theorem substring_bounds :
  forall args0 args1 args2 (w : World X) start len s context x1 x2 x3,
    evalInt args0 (ext w) = (Ok start, x1) ->
    evalInt args1 x1 = (Ok len, x2) ->
    coerceToString args2 false true x2 = (Ok (s, context), x3) ->
    ((start < 0)%Z ->
     prim_substring args0 args1 args2 w =
       (Throw (mkError EvalError "negative start position in `substring'"),
        set_ext w x3))
    /\ ((Z.of_nat (String.length s) < start)%Z ->
        prim_substring args0 args1 args2 w =
          (Throw (mkError StdException "basic_string::basic_string"), set_ext w x3))
    /\ ((0 <= start <= Z.of_nat (String.length s))%Z ->
        let avail := String.length s - Z.to_nat start in
        let k := if Z.ltb len 0 then avail else Nat.min (Z.to_nat len) avail in
        prim_substring args0 args1 args2 w =
          (Ok (makeStr (String.substring (Z.to_nat start) k s) context), set_ext w x3)
        /\ String.length (String.substring (Z.to_nat start) k s) = k).
Proof.
  intros args0 args1 args2 w start len s context x1 x2 x3 Hstart Hlen Hco.
  unfold prim_substring.
  rewrite (M_bind_run _ _ _ _ _ (liftExt_run _ _ _ _ Hstart)).
  assert (Hlen' : liftExt (evalInt args1) (set_ext w x1) = (Ok len, set_ext w x2))
    by (apply (liftExt_run (evalInt args1) (set_ext w x1)); exact Hlen).
  rewrite (M_bind_run _ _ _ _ _ Hlen').
  assert (Hco' : liftExt (coerceToString args2 false true) (set_ext w x2)
                 = (Ok (s, context), set_ext w x3))
    by (apply (liftExt_run (coerceToString args2 false true) (set_ext w x2)); exact Hco).
  rewrite (M_bind_run _ _ _ _ _ Hco').
  split; [|split].
  - intros Hneg. destruct (Z.ltb_spec start 0); [reflexivity | lia].
  - intros Hbig. destruct (Z.ltb_spec start 0); [lia|].
    unfold string_sub. destruct (Nat.ltb_spec (String.length s) (Z.to_nat start)); [|lia].
    reflexivity.
  - intros Hin. cbv zeta. destruct (Z.ltb_spec start 0); [lia|].
    unfold string_sub. destruct (Nat.ltb_spec (String.length s) (Z.to_nat start)); [lia|].
    split; [reflexivity|]. apply substring_length.
    destruct (Z.ltb len 0); lia.
Qed.

Lemma attrNameSet_spec attrs :
  ascending (attrNameSet attrs)
  /\ forall k, k ∈ attrNameSet attrs <-> k ∈ map fst attrs.
Proof.
  unfold attrNameSet.
  assert (Hgen : forall names,
    ascending names ->
    ascending (fold_left (fun names b => StdSet.insert b.1 names) attrs names)
    /\ forall k, k ∈ fold_left (fun names b => StdSet.insert b.1 names) attrs names
                 <-> k ∈ names \/ k ∈ map fst attrs).
  { induction attrs as [|[k0 rhs] rest IH]; intros names Hnames; simpl.
    - split; [exact Hnames|]. intros k. split; [auto|].
      intros [Hk|Hk]; [exact Hk | inversion Hk].
    - destruct (IH _ (StdSet_insert_ascending k0 names Hnames)) as [Hasc Hmem].
      split; [exact Hasc|]. intros k. rewrite Hmem, StdSet_insert_elem, elem_of_cons.
      tauto. }
  destruct (Hgen [] ltac:(constructor)) as [Hasc Hmem]. split; [exact Hasc|].
  intros k. rewrite Hmem. split; [|auto]. intros [Hk|Hk]; [inversion Hk | exact Hk].
Qed.

Lemma fold_left_cons_rev {A B} (f : A -> B) (l : list A) :
  fold_left (fun acc i => f i :: acc) (rev l) [] = map f l.
Proof.
  assert (Hgen : forall xs acc,
            fold_left (fun acc i => f i :: acc) xs acc = (rev (map f xs) ++ acc)%list).
  { induction xs as [|x xs IH]; intros acc; simpl; [reflexivity|].
    rewrite IH, <- app_assoc. reflexivity. }
  rewrite Hgen, app_nil_r, map_rev, rev_involutive. reflexivity.
Qed.

(** X12. For an argument that evaluates to an attribute set, [attrNames]
    returns the list of its attribute names, each once, as strings
    without context, in strictly ascending order. *)
Theorem attrNames_sorted :
  forall args0 (w : World X) attrs x1,
    evalExpr args0 (ext w) = (Ok (Attrs attrs), x1) ->
    exists names,
      prim_attrNames args0 w =
        (Ok (makeList (map (fun n => makeStr n []) names)), set_ext w x1)
      /\ ascending names
      /\ forall k, k ∈ names <-> k ∈ map fst attrs.
Proof.
  intros args0 w attrs x1 Hev. exists (attrNameSet attrs).
  destruct (attrNameSet_spec attrs) as [Hasc Hmem].
  split; [|split; assumption].
  unfold prim_attrNames. rewrite (M_bind_run _ _ _ _ _ (liftExt_run _ _ _ _ Hev)).
  unfold queryAllAttrs, mbind, M_bind, mret, M_ret.
  rewrite fold_left_cons_rev. reflexivity.
Qed.

Lemma removeLoop_spec list :
  forall attrs (w : World X) names x',
    evalNames list (ext w) = (Ok names, x') ->
    exists attrs',
      removeLoop list attrs w = (Ok attrs', set_ext w x')
      /\ forall k, ATermMap.get k attrs' =
                   if bool_decide (k ∈ names) then None else ATermMap.get k attrs.
Proof.
  induction list as [|i rest IH]; intros attrs w names x'; simpl.
  - intros [= <- <-]. exists attrs. destruct w. split; [reflexivity|].
    intros k. rewrite bool_decide_eq_false_2; [reflexivity|]. intros Hin. inversion Hin.
  - intros Hrun. apply M_bind_Ok in Hrun as (k0 & x1 & Hk0 & Hrun).
    apply M_bind_Ok in Hrun as (ks & x2 & Hks & [= <- <-]).
    destruct (IH (ATermMap_remove k0 attrs) (set_ext w x1) ks x2 Hks)
      as (attrs' & Hloop & Hget).
    exists attrs'. split.
    + rewrite (M_bind_run _ _ _ _ _ (liftExt_run _ _ _ _ Hk0)). exact Hloop.
    + intros k. rewrite Hget, ATermMap_get_remove.
      destruct (String.eqb_spec k0 k) as [->|Hne].
      * rewrite (bool_decide_eq_true_2 (k ∈ k :: ks)) by left.
        destruct (bool_decide (k ∈ ks)); reflexivity.
      * destruct (decide (k ∈ ks)) as [Hin|Hnin].
        -- rewrite !bool_decide_eq_true_2; [reflexivity | right; exact Hin | exact Hin].
        -- rewrite !bool_decide_eq_false_2; [reflexivity| |exact Hnin].
           intros Hin. apply elem_of_cons in Hin as [Heq|Hin]; [congruence|contradiction].
Qed.

(** X13. Let the first argument of [removeAttrs] evaluate to an attribute
    set and the second to a list whose elements evaluate to the names
    [names]. The call returns an attribute set in which no name of
    [names] is bound and every other name is bound as in the argument; a
    name of the list that is not bound in the argument is no error. *)
Theorem removeAttrs_lookup :
  forall args0 args1 (w : World X) attrs list names x1 x2 x3,
    evalExpr args0 (ext w) = (Ok (Attrs attrs), x1) ->
    evalList args1 x1 = (Ok list, x2) ->
    evalNames list x2 = (Ok names, x3) ->
    exists attrs',
      prim_removeAttrs args0 args1 w = (Ok (makeAttrs attrs'), set_ext w x3)
      /\ forall k, ATermMap.get k attrs' =
                   if bool_decide (k ∈ names) then None else ATermMap.get k attrs.
Proof.
  intros args0 args1 w attrs list names x1 x2 x3 Hev Hlist Hnames.
  destruct (removeLoop_spec list attrs (set_ext w x2) names x3 Hnames)
    as (attrs' & Hloop & Hget).
  exists attrs'. split; [|exact Hget].
  unfold prim_removeAttrs. rewrite (M_bind_run _ _ _ _ _ (liftExt_run _ _ _ _ Hev)).
  assert (Hq : queryAllAttrs (X := X) (Attrs attrs) (set_ext w x1)
               = (Ok attrs, set_ext w x1)) by reflexivity.
  rewrite (M_bind_run _ _ _ _ _ Hq).
  assert (Hlist' : liftExt (evalList args1) (set_ext w x1) = (Ok list, set_ext w x2))
    by (apply (liftExt_run (evalList args1) (set_ext w x1)); exact Hlist).
  rewrite (M_bind_run _ _ _ _ _ Hlist').
  rewrite (M_bind_run _ _ _ _ _ Hloop). reflexivity.
Qed.

Lemma intersectLoop_spec as1 as2 :
  NoDup (map fst as2) ->
  forall k, ATermMap.get k (intersectLoop as1 as2) =
            match ATermMap.get k as1 with
            | Some _ => ATermMap.get k as2
            | None => None
            end.
Proof.
  unfold intersectLoop. intros Hnd.
  assert (Hgen : forall res k,
    ATermMap.get k
      (fold_left (fun res i =>
                    match ATermMap.get i.1 as1 with
                    | Some _ => ATermMap.set i.1 i.2 res
                    | None => res
                    end) as2 res) =
    match ATermMap.get k as2, ATermMap.get k as1 with
    | Some rhs, Some _ => Some rhs
    | _, _ => ATermMap.get k res
    end).
  { induction as2 as [|[k0 rhs] rest IH]; intros res k; simpl; [reflexivity|].
    apply NoDup_cons in Hnd as [Hk0 Hnd]. rewrite (IH Hnd). simpl.
    destruct (String.eqb_spec k k0) as [->|Hne].
    - assert (Hrest : ATermMap.get k0 rest = None).
      { clear -Hk0. induction rest as [|[k1 r1] rest IH]; simpl; [reflexivity|].
        apply not_elem_of_cons in Hk0 as [Hne Hk0]. simpl in Hne.
        destruct (String.eqb_spec k0 k1); [contradiction|]. exact (IH Hk0). }
      rewrite Hrest. destruct (ATermMap.get k0 as1); [|reflexivity].
      rewrite ATermMap_get_set, String.eqb_refl. reflexivity.
    - destruct (ATermMap.get k rest) as [rhs'|] eqn:Hk.
      + destruct (ATermMap.get k as1); [reflexivity|].
        destruct (ATermMap.get k0 as1); [|reflexivity].
        rewrite ATermMap_get_set. destruct (String.eqb_spec k k0); [contradiction|].
        reflexivity.
      + destruct (ATermMap.get k0 as1); [|reflexivity].
        rewrite ATermMap_get_set. destruct (String.eqb_spec k k0); [contradiction|].
        reflexivity. }
  intros k. rewrite Hgen. simpl.
  destruct (ATermMap.get k as2), (ATermMap.get k as1); reflexivity.
Qed.

(** X14. Let the arguments of [intersectAttrs] evaluate to the attribute
    sets [as1] and [as2], the names of [as2] being distinct. The call
    returns the attribute set that binds a name if and only if both sets
    bind it, and binds it as [as2] does. *)
Theorem intersectAttrs_lookup :
  forall args0 args1 (w : World X) as1 as2 x1 x2,
    evalExpr args0 (ext w) = (Ok (Attrs as1), x1) ->
    evalExpr args1 x1 = (Ok (Attrs as2), x2) ->
    NoDup (map fst as2) ->
    exists res,
      prim_intersectAttrs args0 args1 w = (Ok (makeAttrs res), set_ext w x2)
      /\ forall k, ATermMap.get k res =
                   match ATermMap.get k as1 with
                   | Some _ => ATermMap.get k as2
                   | None => None
                   end.
Proof.
  intros args0 args1 w as1 as2 x1 x2 Hev1 Hev2 Hnd.
  exists (intersectLoop as1 as2). split; [|exact (intersectLoop_spec as1 as2 Hnd)].
  unfold prim_intersectAttrs.
  rewrite (M_bind_run _ _ _ _ _ (liftExt_run _ _ _ _ Hev1)).
  assert (Hq : queryAllAttrs (X := X) (Attrs as1) (set_ext w x1)
               = (Ok as1, set_ext w x1)) by reflexivity.
  rewrite (M_bind_run _ _ _ _ _ Hq).
  assert (Hev2' : liftExt (evalExpr args1) (set_ext w x1) = (Ok (Attrs as2), set_ext w x2))
    by (apply (liftExt_run (evalExpr args1) (set_ext w x1)); exact Hev2).
  rewrite (M_bind_run _ _ _ _ _ Hev2'). reflexivity.
Qed.

End TermProperties.

(** ** Lists: the tail is a copy *)

Section ListsMore.
Context `{Forcer}.

(** X15. [tail] copies the cells of the elements, so the elements of its
    result are not shared with the list it was given. Taking the [head] of
    the [tail] of a list of two elements or more hands to [forceValue] the
    list, the result of [tail] and the first cell of that result, a fresh
    cell: no element of the list that was given is handed to
    [forceValue], whatever the forcer does. [tail] has left those elements
    as it found them, and [head] writes its result cell only, so they are
    afterwards as the two calls of [forceValue] by [head] left them; with
    a forcer that works in place they are as [tail] found them, the second
    one too. *)
Theorem head_of_tail_forces_copy :
  forall args0 v v2 m h1 elems len m1 h3 h4 elems4 len4 x,
    forceValue args0 (heap m) = (Ok tt, h1) ->
    cells h1 !! args0 = Some (VList elems len) ->
    2 <= len ->
    v <> args0 -> v < brk h1 -> args0 < brk h1 -> elems + len <= brk h1 ->
    (forall j, j < len -> elems + j <> v /\ is_Some (cells h1 !! (elems + j))) ->
    prim_tail args0 v m = (Ok tt, m1) ->
    forceValue v (heap m1) = (Ok tt, h3) ->
    cells h3 !! v = Some (VList (brk h1) (len - 1)) ->
    forceValue (brk h1) h3 = (Ok tt, h4) ->
    cells h4 !! v = Some (VList elems4 len4) ->
    cells h4 !! elems4 = Some x ->
    exists m2,
      prim_head v v2 m1 = (Ok tt, m2)
      /\ forced m2 = (forced m ++ [args0; v; brk h1])%list
      /\ (forall j, j < len -> elems + j <> v /\ elems + j <> brk h1)
      /\ cells (heap m2) !! v2 = Some x
      /\ (forall b, b <> v2 -> cells (heap m2) !! b = cells h4 !! b)
      /\ (forall j, j < len -> cells (heap m1) !! (elems + j) = cells h1 !! (elems + j))
      /\ (forcesInPlace ->
          forall j, j < len -> elems + j <> v2 ->
            cells (heap m2) !! (elems + j) = cells h1 !! (elems + j)).
Proof.
  intros args0 v v2 m h1 elems len m1 h3 h4 elems4 len4 x Hf Ha Hlen Hva Hv Hargs Hel
    Hsome Htail Hf3 Hv3 Hf4 Hv4 Hx.
  destruct (prim_tail_run args0 v m h1 elems len Hf Ha ltac:(lia) Hva Hv Hargs Hel Hsome)
    as (m' & Hrun & Hfor & _ & _ & Hframe).
  rewrite Htail in Hrun. injection Hrun as <-.
  assert (Hold : forall j, j < len ->
            cells (heap m1) !! (elems + j) = cells h1 !! (elems + j)).
  { intros j Hj. apply Hframe; [lia | exact (proj1 (Hsome j Hj))]. }
  eexists. split.
  - exact (prim_head_run v v2 m1 h3 (brk h1) (len - 1) h4 elems4 len4 x
             Hf3 Hv3 ltac:(lia) Hf4 Hv4 Hx).
  - cbn [heap cells forced]. split; [|split; [|split; [|split; [|split]]]].
    + rewrite Hfor, <- app_assoc. reflexivity.
    + intros j Hj. split; [exact (proj1 (Hsome j Hj)) | lia].
    + apply lookup_insert_eq.
    + intros b Hb. apply lookup_insert_ne. congruence.
    + exact Hold.
    + intros Hplace j Hj Hnv2.
      rewrite lookup_insert_ne by congruence.
      transitivity (cells h3 !! (elems + j)); [apply (Hplace _ _ _ Hf4); lia|].
      transitivity (cells (heap m1) !! (elems + j));
        [apply (Hplace _ _ _ Hf3); exact (proj1 (Hsome j Hj))|].
      exact (Hold j Hj).
Qed.

End ListsMore.

(** ** The constructor: from the attributes to the environment *)

Lemma StdSet_union_elem (a b : StdSet.t) (x : string) :
  x ∈ StdSet.union a b <-> x ∈ a \/ x ∈ b.
Proof.
  unfold StdSet.union. induction a as [|k a IH]; simpl.
  - split; [auto|]. intros [Hin|Hin]; [inversion Hin | exact Hin].
  - rewrite StdSet_insert_elem, IH, elem_of_cons. tauto.
Qed.

Lemma StdMap_get_set_ne {V} (k k' : string) (v : V) (m : StdMap.t V) :
  k <> k' -> StdMap.get k (StdMap.set k' v m) = StdMap.get k m.
Proof.
  intros Hne. induction m as [|[k0 v0] rest IH]; simpl.
  - destruct (String.eqb_spec k k'); [contradiction | reflexivity].
  - destruct (String.compare k' k0) eqn:Hc; simpl.
    + apply String.compare_eq_iff in Hc. subst k0.
      destruct (String.eqb_spec k k'); [contradiction | reflexivity].
    + destruct (String.eqb_spec k k'); [contradiction | reflexivity].
    + rewrite IH. reflexivity.
Qed.

Section EnvironmentProperties.
Context {X : Type} `{HashLib} `{DrvStore} `{Store X} `{Evaluator X}.

Lemma coerceArgs_env es :
  forall l (w w' : World X) l',
    coerceArgs es l w = (Ok l', w') ->
    env (drv l') = env (drv l)
    /\ forall q, q ∈ context l -> q ∈ context l'.
Proof.
  induction es as [|e es IH]; intros l w w' l'; simpl.
  - intros [= <- _]. auto.
  - intros Hrun. apply M_bind_Ok in Hrun as ([s c] & w1 & _ & Hrun).
    destruct (IH _ _ _ _ Hrun) as [-> Hctx]. split; [reflexivity|].
    intros q Hq. apply Hctx. simpl. apply StdSet_union_elem. auto.
Qed.

Lemma processEnv_Ok key value l (w w' : World X) l' :
  processEnv key value l w = (Ok l', w') ->
  exists s c x',
    coerceToString value true true (ext w) = (Ok (s, c), x')
    /\ env (drv l') = StdMap.set key s (env (drv l))
    /\ context l' = StdSet.union c (context l).
Proof.
  unfold processEnv. intros Hrun.
  apply M_bind_Ok in Hrun as ([s c] & w1 & Hco & Hrun).
  apply liftExt_Ok in Hco as (x' & Hco & ->).
  exists s, c, x'. split; [exact Hco|].
  destruct (String.eqb key "builder"); [injection Hrun as <- _; auto|].
  destruct (String.eqb key "system"); [injection Hrun as <- _; auto|].
  destruct (String.eqb key "name"); [injection Hrun as <- _; auto|].
  destruct (String.eqb key "outputHash"); [injection Hrun as <- _; auto|].
  destruct (String.eqb key "outputHashAlgo"); [injection Hrun as <- _; auto|].
  destruct (String.eqb key "outputHashMode"); [|injection Hrun as <- _; auto].
  destruct (String.eqb s "recursive"); [injection Hrun as <- _; auto|].
  destruct (String.eqb s "flat"); [injection Hrun as <- _; auto | discriminate].
Qed.

Lemma processAttr_env pos key value p l (w w' : World X) l' :
  processAttr pos (key, (value, p)) l w = (Ok l', w') ->
  (forall q, q ∈ context l -> q ∈ context l')
  /\ (forall k, k <> key -> StdMap.get k (env (drv l')) = StdMap.get k (env (drv l)))
  /\ (key <> "args" ->
      exists s c x x',
        coerceToString value true true x = (Ok (s, c), x')
        /\ StdMap.get key (env (drv l')) = Some s
        /\ forall q, q ∈ c -> q ∈ context l').
Proof.
  unfold processAttr. intros Hrun. apply withPrefix_Ok in Hrun.
  destruct (String.eqb_spec key "args") as [->|Hne].
  - unfold processArgs in Hrun.
    apply M_bind_Ok in Hrun as (v & w2 & _ & Hrun).
    apply M_bind_Ok in Hrun as (es & w3 & _ & Hrun).
    destruct (coerceArgs_env _ _ _ _ _ Hrun) as [Henv Hctx].
    split; [exact Hctx|]. split; [intros k _; rewrite Henv; reflexivity|].
    intros Hne. contradiction Hne. reflexivity.
  - apply processEnv_Ok in Hrun as (s & c & x' & Hco & Henv & Hctx).
    split; [|split].
    + intros q Hq. rewrite Hctx. apply StdSet_union_elem. auto.
    + intros k Hk. rewrite Henv. apply StdMap_get_set_ne. exact Hk.
    + intros _. exists s, c, (ext w), x'. split; [exact Hco|].
      split; [rewrite Henv; apply StdMap_get_set_eq|].
      intros q Hq. rewrite Hctx. apply StdSet_union_elem. auto.
Qed.

(** X16. When the loop over the attributes of a description has run
    through, every attribute other than [args] (also [name], [builder],
    [system] and the three attributes of the output hash) is a variable
    of the environment of the derivation, its value being the string the
    attribute was coerced to, and the context of that string is part of
    the context collected for the derivation; nothing is taken out of the
    context. The attributes of a set have distinct names. *)
Theorem attributes_reach_environment :
  forall pos attrs l (w w' : World X) l',
    processAttrs pos attrs l w = (Ok l', w') ->
    NoDup (map fst attrs) ->
    (forall q, q ∈ context l -> q ∈ context l')
    /\ forall key value p,
         (key, (value, p)) ∈ attrs -> key <> "args" ->
         exists s c x x',
           coerceToString value true true x = (Ok (s, c), x')
           /\ StdMap.get key (env (drv l')) = Some s
           /\ forall q, q ∈ c -> q ∈ context l'.
Proof.
  intros pos attrs. induction attrs as [|[key0 [value0 p0]] rest IH];
    intros l w w' l'; simpl.
  - intros [= <- _] _. split; [auto|]. intros key value p Hin. inversion Hin.
  - intros Hrun Hnd. apply NoDup_cons in Hnd as [Hfresh Hnd].
    apply M_bind_Ok in Hrun as (l1 & w1 & Hstep & Hrun).
    apply processAttr_env in Hstep as (Hctx1 & Hframe1 & Hkey1).
    destruct (IH _ _ _ _ Hrun Hnd) as [Hctx Hrest].
    split; [intros q Hq; apply Hctx, Hctx1, Hq|].
    intros key value p Hin Hne.
    apply elem_of_cons in Hin as [[= -> -> ->]|Hin]; [|exact (Hrest key value p Hin Hne)].
    destruct (Hkey1 Hne) as (s & c & x & x' & Hco & Hget & Hc).
    exists s, c, x, x'. split; [exact Hco|]. split; [|intros q Hq; apply Hctx, Hc, Hq].
    rewrite <- Hget. clear -Hrun Hfresh.
    revert l1 w1 Hrun. induction rest as [|[k1 [v1 p1]] rest IH2]; intros l1 w1; simpl.
    + intros [= <- _]. reflexivity.
    + intros Hrun. apply not_elem_of_cons in Hfresh as [Hne1 Hfresh]. simpl in Hne1.
      apply M_bind_Ok in Hrun as (l2 & w2 & Hstep & Hrun).
      apply processAttr_env in Hstep as (_ & Hframe & _).
      rewrite (IH2 Hfresh _ _ Hrun). apply Hframe. exact Hne1.
Qed.

(** X17. A derivation made with an output hash is one that
    [hashDerivationModulo] takes for fixed-output. Let the part of the
    constructor after the attribute loop succeed for a derivation without
    outputs and a non-empty [outputHash]. Then the hash parses to some
    [h], and if [printHash h] is not empty, the cache has, at the path of
    the derivation file, the SHA-256 hash of
    "fixed:out:<algo>:<printHash h>:<outPath>", where [algo] is the
    algorithm given, after "r:" in recursive mode, and [outPath] is the
    output path returned: the builder, the arguments, the environment and
    the inputs have no part in it. *)
Theorem declared_hash_is_fixed_output :
  forall fuel l (w w' : World X) v,
    outputs (drv l) = [] ->
    outputHash l <> "" ->
    instantiate fuel l w = (Ok v, w') ->
    exists h outPath drvPath,
      (if Nat.eqb (String.length (outputHash l))
                  (hashSize (Hash_of_type (parseHashType (outputHashAlgo l))) * 2)
       then parseHash (parseHashType (outputHashAlgo l)) (outputHash l)
       else parseHash32 (parseHashType (outputHashAlgo l)) (outputHash l)) = Ok h
      /\ stringAttr "outPath" v = Some (outPath, StdSet.singleton drvPath)
      /\ stringAttr "drvPath" v = Some (drvPath, StdSet.singleton ("=" ++ drvPath))
      /\ (printHash h <> "" ->
          drvHashes w' !! drvPath =
            Some (hashString htSHA256
                    ("fixed:out:"
                     ++ (if outputHashRecursive l then "r:" ++ outputHashAlgo l
                         else outputHashAlgo l)
                     ++ ":" ++ printHash h ++ ":" ++ outPath))).
Proof.
  intros fuel l w w' v Hout Hne Hrun.
  apply instantiate_cache in Hrun
    as (d0 & w1 & outPath0 & algo & hash_ & outPath & drvPath & x & x' & c & h' & c'
        & Hctx & Hcheck & _ & _ & Hh & Hcache & ->).
  destruct (checkOutputHash_Ok _ _ _ _ _ _ Hcheck Hne)
    as (_ & h & Hparse & _ & _ & -> & ->).
  exists h, outPath, drvPath. split; [exact Hparse|].
  split; [reflexivity|]. split; [reflexivity|].
  intros Hprint. rewrite Hcache, lookup_insert_eq. f_equal.
  apply processContext_extends in Hctx as (Hout0 & _).
  destruct fuel as [|fuel]; [discriminate Hh|].
  rewrite (hashDerivationModulo_fixed _
             (mkDerivationOutput outPath
                (if outputHashRecursive l then "r:" ++ outputHashAlgo l
                 else outputHashAlgo l) (printHash h))) in Hh.
  - injection Hh as <- _. reflexivity.
  - simpl. rewrite Hout0, Hout. reflexivity.
  - exact Hprint.
Qed.

(** X18. A name that ends in the extension of derivation files never
    gives a derivation: the part of the constructor after the attribute
    loop does not succeed, and it ends before anything is hashed, as its
    outcome is the same whatever the bound on the hasher. When the
    context, the builder, the platform, the output hash and
    [checkStoreName] are in order, the outcome is the [EvalError]
    "derivation names are not allowed to end in `<extension>'". *)
Theorem derivation_name_checked :
  forall l (w : World X),
    isDerivation (drvName l) = true ->
    (forall fuel, instantiate fuel l w = instantiate 0 l w)
    /\ (forall fuel v w', instantiate fuel l w <> (Ok v, w'))
    /\ (forall fuel d0 w1 t w2,
          processContext (context l) (drv l) w = (Ok d0, w1) ->
          builder d0 <> "" -> platform d0 <> "" ->
          checkOutputHash l w1 = (Ok t, w2) ->
          checkStoreName (drvName l) = Ok tt ->
          instantiate fuel l w =
            (Throw (mkError EvalError
                      ("derivation names are not allowed to end in `"
                       ++ drvExtension ++ "'")), w2)).
Proof.
  intros l w Hname.
  assert (Hshape : forall fuel,
    instantiate fuel l w =
      (d ← processContext (context l) (drv l);
       if String.eqb (builder d) "" then
         throw (mkError EvalError "required attribute `builder' missing")
       else if String.eqb (platform d) "" then
         throw (mkError EvalError "required attribute `system' missing")
       else
         t ← checkOutputHash l;
         _ ← liftRes (checkStoreName (drvName l));
         throw (mkError EvalError
                  ("derivation names are not allowed to end in `"
                   ++ drvExtension ++ "'"))) w).
  { intros fuel. unfold instantiate, mbind, M_bind.
    destruct (processContext (context l) (drv l) w) as [[d| |] w1]; try reflexivity.
    destruct (String.eqb (builder d) ""); [reflexivity|].
    destruct (String.eqb (platform d) ""); [reflexivity|].
    destruct (checkOutputHash l w1) as [[[[outPath algo] hash_]| |] w2]; try reflexivity.
    unfold liftRes. destruct (checkStoreName (drvName l)) as [[]| |]; try reflexivity.
    rewrite Hname. reflexivity. }
  split; [|split].
  - intros fuel. rewrite (Hshape fuel), (Hshape 0). reflexivity.
  - intros fuel v w'. rewrite Hshape. unfold mbind, M_bind.
    destruct (processContext (context l) (drv l) w) as [[d| |] w1]; try discriminate.
    destruct (String.eqb (builder d) ""); [discriminate|].
    destruct (String.eqb (platform d) ""); [discriminate|].
    destruct (checkOutputHash l w1) as [[t| |] w2]; try discriminate.
    unfold liftRes. destruct (checkStoreName (drvName l)) as [[]| |]; discriminate.
  - intros fuel d0 w1 t w2 Hctx Hb Hp Hcheck Hstore. rewrite Hshape.
    rewrite (M_bind_run _ _ _ _ _ Hctx).
    destruct (String.eqb_spec (builder d0) ""); [contradiction|].
    destruct (String.eqb_spec (platform d0) ""); [contradiction|].
    rewrite (M_bind_run _ _ _ _ _ Hcheck). rewrite Hstore. reflexivity.
Qed.

Ltac in_controlKeys :=
  unfold controlKeys;
  repeat first [apply list_elem_of_here | apply list_elem_of_further].

Lemma processAttr_controlOf pos key value p l (w w' : World X) l' K :
  processAttr pos (key, (value, p)) l w = (Ok l', w') ->
  K ∈ controlKeys ->
  (key <> K -> controlOf K l' = controlOf K l)
  /\ (key = K ->
      exists s c x x',
        coerceToString value true true x = (Ok (s, c), x') /\ controlOf K l' = s).
Proof.
  unfold processAttr. intros Hrun HK. apply withPrefix_Ok in Hrun.
  destruct (String.eqb_spec key "args") as [->|Hargs].
  - unfold processArgs in Hrun.
    apply M_bind_Ok in Hrun as (v & w2 & _ & Hrun).
    apply M_bind_Ok in Hrun as (es & w3 & _ & Hrun).
    apply coerceArgs_controls in Hrun. unfold controls in Hrun.
    injection Hrun as Hh Ha Hr Hn. split.
    + intros _. unfold controlOf. rewrite Hh, Ha, Hr, Hn. reflexivity.
    + intros <-. unfold controlKeys in HK.
      repeat (apply elem_of_cons in HK as [HK|HK]; [discriminate HK|]).
      inversion HK.
  - unfold processEnv in Hrun.
    apply M_bind_Ok in Hrun as ([s c] & w1 & Hco & Hrun).
    apply liftExt_Ok in Hco as (x' & Hco & ->).
    assert (Hfields :
      drvName l' = (if String.eqb key "name" then s else drvName l)
      /\ outputHash l' = (if String.eqb key "outputHash" then s else outputHash l)
      /\ outputHashAlgo l'
         = (if String.eqb key "outputHashAlgo" then s else outputHashAlgo l)
      /\ (if outputHashRecursive l' then "recursive" else "flat")
         = (if String.eqb key "outputHashMode" then s
            else if outputHashRecursive l then "recursive" else "flat")).
    { destruct (String.eqb_spec key "builder") as [->|];
        [injection Hrun as <- _; simpl; auto|].
      destruct (String.eqb_spec key "system") as [->|];
        [injection Hrun as <- _; simpl; auto|].
      destruct (String.eqb_spec key "name") as [->|];
        [injection Hrun as <- _; simpl; auto|].
      destruct (String.eqb_spec key "outputHash") as [->|];
        [injection Hrun as <- _; simpl; auto|].
      destruct (String.eqb_spec key "outputHashAlgo") as [->|];
        [injection Hrun as <- _; simpl; auto|].
      destruct (String.eqb_spec key "outputHashMode") as [->|];
        [|injection Hrun as <- _; simpl; auto].
      destruct (String.eqb_spec s "recursive") as [->|];
        [injection Hrun as <- _; simpl; auto|].
      destruct (String.eqb_spec s "flat") as [->|];
        [injection Hrun as <- _; simpl; auto | discriminate]. }
    destruct Hfields as (Hn & Hh & Ha & Hm).
    assert (Hall : controlOf K l'
                   = if String.eqb key K then s else controlOf K l).
    { unfold controlKeys in HK.
      repeat (apply elem_of_cons in HK as [->|HK]);
        [unfold controlOf; simpl; assumption ..| inversion HK]. }
    split.
    + intros Hne. rewrite Hall. destruct (String.eqb_spec key K); [contradiction|].
      reflexivity.
    + intros ->. exists s, c, (ext w), x'. split; [exact Hco|].
      rewrite Hall, String.eqb_refl. reflexivity.
Qed.

Lemma processAttrs_controlOf pos attrs K :
  K ∈ controlKeys ->
  forall l (w w' : World X) l',
    processAttrs pos attrs l w = (Ok l', w') ->
    NoDup (map fst attrs) ->
    (K ∉ map fst attrs -> controlOf K l' = controlOf K l)
    /\ (forall s, supplies attrs K s -> controlOf K l' = s).
Proof.
  intros HK. induction attrs as [|[key [value p]] rest IH]; intros l w w' l'; simpl.
  - intros [= <- _] _. split; [reflexivity|].
    intros s (e & p & Hin & _). inversion Hin.
  - intros Hrun Hnd. apply NoDup_cons in Hnd as [Hfresh Hnd].
    apply M_bind_Ok in Hrun as (l1 & w1 & Hstep & Hrun).
    destruct (processAttr_controlOf _ _ _ _ _ _ _ _ K Hstep HK) as [Hframe Hset].
    destruct (IH _ _ _ _ Hrun Hnd) as [Habsent Hrest].
    split.
    + intros Hnot. apply not_elem_of_cons in Hnot as [Hne Hnot].
      rewrite (Habsent Hnot). apply Hframe. congruence.
    + intros s (e & p0 & Hin & Hco).
      apply elem_of_cons in Hin as [[= <- <- <-]|Hin].
      * rewrite (Habsent Hfresh).
        destruct (Hset eq_refl) as (s' & c & x & x' & Hrun' & ->).
        destruct (Hco x) as (c0 & x0 & Hrun0). congruence.
      * apply Hrest. exists e, p0. auto.
Qed.

(** X19. The output path of a derivation with a declared hash is a
    function of four attributes only. Let the argument of the constructor
    evaluate to an attribute set (its names distinct) that supplies
    [name], a non-empty [outputHash] and [outputHashAlgo], and whose
    [outputHashMode] is "recursive", or is "flat" or missing. If the call
    succeeds, the algorithm is a known one, the hash has the hexadecimal
    or the base-32 length and parses to some [h], and the [outPath]
    returned is [makeFixedOutputPath] of the mode, the algorithm, [h] and
    the name (the store's fixed-output paths being non-empty): [args] and
    every other attribute have no part in it. *)
Theorem fixed_output_path_of_attributes :
  forall fuel args0 (w w' : World X) v attrs x1 name hash_ algo (recursive : bool),
    evalExpr args0 (ext w) = (Ok (Attrs attrs), x1) ->
    NoDup (map fst attrs) ->
    supplies attrs "name" name ->
    supplies attrs "outputHash" hash_ ->
    hash_ <> "" ->
    supplies attrs "outputHashAlgo" algo ->
    (if recursive then supplies attrs "outputHashMode" "recursive"
     else "outputHashMode" ∉ map fst attrs \/ supplies attrs "outputHashMode" "flat") ->
    prim_derivationStrict fuel args0 w = (Ok v, w') ->
    parseHashType algo <> htUnknown
    /\ exists h,
         (if Nat.eqb (String.length hash_)
                     (hashSize (Hash_of_type (parseHashType algo)) * 2)
          then parseHash (parseHashType algo) hash_
          else parseHash32 (parseHashType algo) hash_) = Ok h
         /\ (String.length hash_ = hashSize (Hash_of_type (parseHashType algo)) * 2
             \/ String.length hash_ = hashLength32 (Hash_of_type (parseHashType algo)))
         /\ (makeFixedOutputPath recursive (parseHashType algo) h name <> "" ->
             exists drvPath,
               stringAttr "outPath" v =
                 Some (makeFixedOutputPath recursive (parseHashType algo) h name,
                       [drvPath])).
Proof.
  intros fuel args0 w w' v attrs x1 name hash_ algo recursive Hev Hnd Hname Hhash Hne
    Halgo Hmode Hrun.
  apply prim_derivationStrict_inv in Hrun as (l & w1 & Hdone & Hrun).
  destruct Hdone as (attrs' & x1' & eName & pos & name0 & x2 & Hev' & _ & _ & Hloop).
  rewrite Hev in Hev'. injection Hev' as <- <-.
  assert (Hctl : forall K, K ∈ controlKeys ->
            (K ∉ map fst attrs ->
             controlOf K l = controlOf K (mkLocals Derivation_empty [] "" "" false name0))
            /\ (forall s, supplies attrs K s -> controlOf K l = s)).
  { intros K HK. exact (processAttrs_controlOf pos attrs K HK _ _ _ _ Hloop Hnd). }
  assert (Hn : drvName l = name).
  { apply (proj2 (Hctl "name" ltac:(in_controlKeys)) name Hname). }
  assert (Hh : outputHash l = hash_).
  { apply (proj2 (Hctl "outputHash" ltac:(in_controlKeys)) hash_ Hhash). }
  assert (Ha : outputHashAlgo l = algo).
  { apply (proj2 (Hctl "outputHashAlgo" ltac:(in_controlKeys))
             algo Halgo). }
  assert (Hr : outputHashRecursive l = recursive).
  { destruct (Hctl "outputHashMode" ltac:(in_controlKeys))
      as [Habsent Hset].
    unfold controlOf in Habsent, Hset. simpl in Habsent, Hset.
    destruct recursive.
    - specialize (Hset _ Hmode). destruct (outputHashRecursive l);
        [reflexivity | discriminate Hset].
    - destruct Hmode as [Hmode|Hmode].
      + specialize (Habsent Hmode). destruct (outputHashRecursive l);
          [discriminate Habsent | reflexivity].
      + specialize (Hset _ Hmode). destruct (outputHashRecursive l);
          [discriminate Hset | reflexivity]. }
  apply instantiate_inv in Hrun
    as (d0 & w2 & outPath0 & algo' & hash' & outPath & c1 & drvPath & x' & h' & c2
        & _ & _ & _ & Hcheck & _ & _ & Hout & _ & _ & _ & ->).
  assert (Hne' : outputHash l <> "") by (rewrite Hh; exact Hne).
  pose proof (checkOutputHash_Ok _ _ _ _ _ _ Hcheck Hne') as Hco.
  cbv zeta in Hco. rewrite Hh, Ha, Hr, Hn in Hco.
  destruct Hco as (Hht & h & Hparse & Hlen & Hpath & _ & _).
  split; [exact Hht|]. exists h. split; [exact Hparse|]. split; [exact Hlen|].
  intros Hnonempty. exists drvPath. simpl. f_equal. f_equal.
  rewrite <- Hpath in Hnonempty.
  destruct (String.eqb_spec outPath0 ""); [contradiction|].
  rewrite <- Hpath. exact (proj1 Hout).
Qed.

End EnvironmentProperties.

(** ** The further properties on the sample instance *)

Lemma not_in_strings_nil (k : string) : k ∉ @nil string.
Proof. intros Hin. inversion Hin. Qed.

(** A stale entry for the fetch, of a known type, survives the hashing of
    the package that depends on it. *)
Lemma hashDerivationModulo_write_once_witness :
  let stale := hashString htMD5 "stale" in
  let st : gmap string Hash := {[ "/nix/store/fetch.drv" := stale ]} in
  exists r st',
    hashDerivationModulo 2 Sample.pkg st = (r, st')
    /\ st' !! "/nix/store/fetch.drv" = Some stale.
Proof.
  intros stale st.
  destruct (hashDerivationModulo 2 Sample.pkg st) as [r st'] eqn:Hrun.
  exists r, st'. split; [reflexivity|].
  apply (hashDerivationModulo_write_once 2 Sample.pkg st r st' Hrun
           "/nix/store/fetch.drv" stale).
  - apply lookup_singleton_eq.
  - discriminate.
Defined.

Lemma hashDerivationModulo_from_cache_witness :
  let h0 := hashString htSHA256 "cached" in
  let st : gmap string Hash := {[ "/nix/store/fetch.drv" := h0 ]} in
  hashDerivationModulo 1 Sample.pkg st =
    (Ok (hashTerm "Derive(out;cached;x86_64-linux;/bin/sh;)"), st).
Proof.
  intros h0 st.
  rewrite (hashDerivationModulo_from_cache Sample.pkg st [h0] 0).
  - f_equal.
  - reflexivity.
  - constructor; [|constructor].
    split; [apply lookup_singleton_eq | discriminate].
Defined.

Lemma derivationStrict_fills_cache_witness :
  exists v w',
    prim_derivationStrict 1 (Sample.drvAttrs []) Sample.world0 = (Ok v, w')
    /\ drvHashes w' =
         {[ "/nix/store/x.drv" := hashTerm "Derive(out;;x86_64-linux;/bin/sh;)" ]}
    /\ exists l w1 d0 w2 outPath0 algo hash_ outPath drvPath c1 h c2,
         attributesDone (Sample.drvAttrs []) Sample.world0 l w1
         /\ processContext (context l) (drv l) w1 = (Ok d0, w2)
         /\ checkOutputHash l w2 = (Ok (outPath0, algo, hash_), w2)
         /\ stringAttr "outPath" v = Some (outPath, [drvPath])
         /\ stringAttr "drvPath" v = Some (drvPath, ["=" ++ drvPath])
         /\ (if String.eqb outPath0 "" then
               exists h0,
                 hashDerivationModulo 1 (withOut d0 "" algo hash_) (drvHashes w2)
                   = (Ok h0, c1)
             else c1 = drvHashes w2)
         /\ writeDerivation (withOut d0 outPath algo hash_) (drvName l) (ext w2)
            = (Ok drvPath, ext w')
         /\ hashDerivationModulo 1 (withOut d0 outPath algo hash_) c1 = (Ok h, c2)
         /\ drvHashes w' = <[drvPath := h]> c2.
Proof.
  destruct (prim_derivationStrict 1 (Sample.drvAttrs []) Sample.world0)
    as [[v| |] w'] eqn:Hrun; try (vm_compute in Hrun; discriminate Hrun).
  exists v, w'. split; [reflexivity|]. split.
  - assert (Hw : w' = (prim_derivationStrict 1 (Sample.drvAttrs []) Sample.world0).2)
      by (rewrite Hrun; reflexivity).
    rewrite Hw. vm_compute. reflexivity.
  - exact (derivationStrict_fills_cache 1 (Sample.drvAttrs []) Sample.world0 w' v Hrun).
Defined.

Lemma output_path_of_masked_derivation_witness :
  let l := mkLocals (mkDerivation [] [] [] "x86_64-linux" "/bin/sh" [] [])
             ["/nix/store/fetch.drv"] "" "sha256" false "x" in
  outputHash l = ""
  /\ exists v w',
       instantiate 2 l Sample.world0 = (Ok v, w')
       /\ exists d0 w1 h c',
            processContext (context l) (drv l) Sample.world0 = (Ok d0, w1)
            /\ hashDerivationModulo 2
                 (set_output "out" (mkDerivationOutput "" "" "") (set_env "out" "" d0))
                 (drvHashes w1) = (Ok h, c')
            /\ exists drvPath,
                 stringAttr "outPath" v =
                   Some (makeStorePath "output:out" h (drvName l),
                         StdSet.singleton drvPath).
Proof.
  intros l. split; [reflexivity|].
  destruct (instantiate 2 l Sample.world0) as [[v| |] w'] eqn:Hrun;
    try (vm_compute in Hrun; discriminate Hrun).
  exists v, w'. split; [reflexivity|].
  exact (output_path_of_masked_derivation 2 l Sample.world0 w' v eq_refl Hrun).
Defined.

Lemma required_attributes_witness :
  let noName := Attrs [Sample.binding "builder" (Str "/bin/sh" []);
                       Sample.binding "system" (Str "x86_64-linux" [])] in
  let l := mkLocals (mkDerivation [] [] [] "" "/bin/old" [] []) [] "" "" false "x" in
  let l0 := mkLocals (mkDerivation [] [] [] "x86_64-linux" "" [] []) [] "" "" false "x" in
  prim_derivationStrict 1 noName Sample.world0 =
    (Throw (mkError EvalError "required attribute `name' missing"), Sample.world0)
  /\ (exists l' w',
        processAttrs NoPos [Sample.binding "system" (Str "i686-linux" [])] l Sample.world0
          = (Ok l', w')
        /\ builder (drv l') = "/bin/old")
  /\ instantiate 1 l0 Sample.world0 =
       (Throw (mkError EvalError "required attribute `builder' missing"), Sample.world0)
  /\ instantiate 1 l Sample.world0 =
       (Throw (mkError EvalError "required attribute `system' missing"), Sample.world0).
Proof.
  intros noName l l0.
  destruct (@required_attributes Sample.Ext Sample.hashLib Sample.drvStore
              Sample.store Sample.evaluator) as (Hname & Hloop & Hreq).
  split; [|split; [|split]].
  - exact (Hname 1 noName Sample.world0 _ (ext Sample.world0) eq_refl eq_refl).
  - destruct (processAttrs NoPos [Sample.binding "system" (Str "i686-linux" [])] l
                Sample.world0) as [[l'| |] w'] eqn:Hrun;
      try (vm_compute in Hrun; discriminate Hrun).
    exists l', w'. split; [reflexivity|].
    destruct (Hloop _ _ _ _ _ _ Hrun) as [Hb _]. apply Hb.
    intros Hin. apply elem_of_cons in Hin as [Hin|Hin]; [discriminate Hin|].
    inversion Hin.
  - destruct (Hreq 1 l0 Sample.world0 Sample.world0 (drv l0) eq_refl) as [Hb _].
    exact (Hb eq_refl).
  - destruct (Hreq 1 l Sample.world0 Sample.world0 (drv l) eq_refl) as [_ Hs].
    apply Hs; [discriminate | reflexivity].
Defined.


Lemma processContext_inputs_witness :
  let paths := ["/nix/store/fetch.drv"; "=/nix/store/src"; "~/nix/store/pkg.drv"] in
  exists d' w',
    processContext paths Sample.fetch Sample.world0 = (Ok d', w')
    /\ extendsInputs Sample.fetch d'
    /\ forall p, p ∈ paths ->
         isStorePath (contextTarget p) = true
         /\ (contextTarget p ∈ inputSrcs d'
             \/ contextTarget p ∈ StdMap.keys (inputDrvs d')).
Proof.
  intros paths.
  destruct (processContext paths Sample.fetch Sample.world0) as [[d'| |] w'] eqn:Hrun;
    try (vm_compute in Hrun; discriminate Hrun).
  exists d', w'. split; [reflexivity|].
  exact (processContext_inputs paths Sample.fetch Sample.world0 w' d' Hrun).
Defined.


Lemma unsafeDiscardOutputDependency_context_witness :
  prim_unsafeDiscardOutputDependency (Str "x" [""]) Sample.world0
    = (Throw (mkError StdException "basic_string::at"), Sample.world0)
  /\ exists c2,
       prim_unsafeDiscardOutputDependency
         (Str "x" ["/nix/store/src"; "=/nix/store/pkg.drv"]) Sample.world0
         = (Ok (makeStr "x" c2), Sample.world0)
       /\ "~/nix/store/pkg.drv" ∈ c2
       /\ "=/nix/store/pkg.drv" ∉ c2.
Proof.
  split.
  - destruct (@unsafeDiscardOutputDependency_context Sample.Ext Sample.evaluator
                (Str "x" [""]) Sample.world0
                "x" [""] (ext Sample.world0) eq_refl) as [Hbad _].
    apply Hbad. apply list_elem_of_here.
  - destruct (@unsafeDiscardOutputDependency_context Sample.Ext Sample.evaluator
                (Str "x" ["/nix/store/src"; "=/nix/store/pkg.drv"]) Sample.world0
                "x" ["/nix/store/src"; "=/nix/store/pkg.drv"] (ext Sample.world0) eq_refl)
      as [_ Hgood].
    destruct Hgood as (c2 & Hrun & Hmem & Hno).
    { intros Hin. repeat (apply elem_of_cons in Hin as [Hin|Hin]; [discriminate Hin|]).
      inversion Hin. }
    exists c2. split; [exact Hrun|]. split.
    + apply Hmem. exists "=/nix/store/pkg.drv".
      split; [apply list_elem_of_further, list_elem_of_here | reflexivity].
    + intros Hin. exact (Hno _ _ Hin eq_refl).
Defined.

Lemma toFile_references_witness :
  prim_toFile (Str "motd" []) (Str "hello" ["=/nix/store/pkg.drv"]) Sample.world0
    = (Throw (mkError EvalError
                "in `toFile': the file `motd' cannot refer to derivation outputs"),
       Sample.world0)
  /\ prim_toFile (Str "motd" []) (Str "hello" ["/nix/store/src"]) Sample.world0
     = (Ok (makeStr "/nix/store/text-motd" ["/nix/store/text-motd"]), Sample.world0).
Proof.
  split.
  - destruct (@toFile_references Sample.Ext Sample.store Sample.evaluator
                SampleTerms.termEvaluator SampleTerms.textStore
                (Str "motd" []) (Str "hello" ["=/nix/store/pkg.drv"])
                Sample.world0 "motd" "hello" ["=/nix/store/pkg.drv"]
                (ext Sample.world0) (ext Sample.world0) eq_refl eq_refl) as [Hbad _].
    { intros Hin. apply elem_of_cons in Hin as [Hin|Hin]; [discriminate Hin|].
      inversion Hin. }
    apply Hbad. exists "=/nix/store/pkg.drv". split; [apply list_elem_of_here | reflexivity].
  - destruct (@toFile_references Sample.Ext Sample.store Sample.evaluator
                SampleTerms.termEvaluator SampleTerms.textStore
                (Str "motd" []) (Str "hello" ["/nix/store/src"])
                Sample.world0 "motd" "hello" ["/nix/store/src"]
                (ext Sample.world0) (ext Sample.world0) eq_refl eq_refl) as [_ Hgood].
    { intros Hin. apply elem_of_cons in Hin as [Hin|Hin]; [discriminate Hin|].
      inversion Hin. }
    destruct Hgood as (refs & _ & _ & Hro).
    { intros p Hp. apply list_elem_of_singleton in Hp. subst p. reflexivity. }
    exact (Hro eq_refl).
Defined.

Lemma substring_bounds_witness :
  let hello := Str "hello" ["/nix/store/src"] in
  prim_substring (Other "-x") (Other "xxx") hello Sample.world0
    = (Throw (mkError EvalError "negative start position in `substring'"),
       Sample.world0)
  /\ prim_substring (Other "xxxxxxx") (Other "xxx") hello Sample.world0
     = (Throw (mkError StdException "basic_string::basic_string"), Sample.world0)
  /\ prim_substring (Other "x") (Other "xxx") hello Sample.world0
     = (Ok (makeStr "ell" ["/nix/store/src"]), Sample.world0)
  /\ prim_substring (Other "xxx") (Other "-x") hello Sample.world0
     = (Ok (makeStr "lo" ["/nix/store/src"]), Sample.world0)
  /\ prim_substring (Other "xxxxx") (Other "xxx") hello Sample.world0
     = (Ok (makeStr "" ["/nix/store/src"]), Sample.world0).
Proof.
  intros hello.
  split; [|split; [|split; [|split]]].
  - destruct (@substring_bounds Sample.Ext Sample.evaluator SampleTerms.termEvaluator
                (Other "-x") (Other "xxx") hello Sample.world0
                (-1)%Z 3%Z "hello" ["/nix/store/src"]
                (ext Sample.world0) (ext Sample.world0) (ext Sample.world0)
                eq_refl eq_refl eq_refl) as (Hneg & _ & _).
    apply Hneg. lia.
  - destruct (@substring_bounds Sample.Ext Sample.evaluator SampleTerms.termEvaluator
                (Other "xxxxxxx") (Other "xxx") hello Sample.world0
                7%Z 3%Z "hello" ["/nix/store/src"]
                (ext Sample.world0) (ext Sample.world0) (ext Sample.world0)
                eq_refl eq_refl eq_refl) as (_ & Hbig & _).
    apply Hbig. simpl. lia.
  - destruct (@substring_bounds Sample.Ext Sample.evaluator SampleTerms.termEvaluator
                (Other "x") (Other "xxx") hello Sample.world0
                1%Z 3%Z "hello" ["/nix/store/src"]
                (ext Sample.world0) (ext Sample.world0) (ext Sample.world0)
                eq_refl eq_refl eq_refl) as (_ & _ & Hin).
    destruct Hin as [Hrun _]; [simpl; lia | exact Hrun].
  - destruct (@substring_bounds Sample.Ext Sample.evaluator SampleTerms.termEvaluator
                (Other "xxx") (Other "-x") hello Sample.world0
                3%Z (-1)%Z "hello" ["/nix/store/src"]
                (ext Sample.world0) (ext Sample.world0) (ext Sample.world0)
                eq_refl eq_refl eq_refl) as (_ & _ & Hin).
    destruct Hin as [Hrun _]; [simpl; lia | exact Hrun].
  - destruct (@substring_bounds Sample.Ext Sample.evaluator SampleTerms.termEvaluator
                (Other "xxxxx") (Other "xxx") hello Sample.world0
                5%Z 3%Z "hello" ["/nix/store/src"]
                (ext Sample.world0) (ext Sample.world0) (ext Sample.world0)
                eq_refl eq_refl eq_refl) as (_ & _ & Hin).
    destruct Hin as [Hrun _]; [simpl; lia | exact Hrun].
Defined.

Lemma attrNames_sorted_witness :
  let set := Attrs [Sample.binding "b" (Str "2" []); Sample.binding "c" (Str "3" []);
                    Sample.binding "a" (Str "1" [])] in
  exists names,
    prim_attrNames set Sample.world0 =
      (Ok (makeList (map (fun n => makeStr n []) names)), Sample.world0)
    /\ ascending names
    /\ "a" ∈ names /\ "d" ∉ names.
Proof.
  intros set.
  destruct (@attrNames_sorted Sample.Ext Sample.evaluator
              set Sample.world0 _ (ext Sample.world0) eq_refl)
    as (names & Hrun & Hasc & Hmem).
  exists names. split; [exact Hrun|]. split; [exact Hasc|]. split.
  - apply Hmem. do 2 apply list_elem_of_further. apply list_elem_of_here.
  - intros Hin. apply Hmem in Hin.
    repeat (apply elem_of_cons in Hin as [Hin|Hin]; [discriminate Hin|]).
    inversion Hin.
Defined.

Lemma removeAttrs_lookup_witness :
  let set := Attrs [Sample.binding "a" (Str "1" []); Sample.binding "b" (Str "2" [])] in
  exists attrs',
    prim_removeAttrs set (List [Str "a" []; Str "zz" []]) Sample.world0
      = (Ok (makeAttrs attrs'), Sample.world0)
    /\ ATermMap.get "a" attrs' = None
    /\ ATermMap.get "b" attrs' = Some (Str "2" [], NoPos).
Proof.
  intros set.
  destruct (@removeAttrs_lookup Sample.Ext Sample.evaluator SampleTerms.termEvaluator
              set (List [Str "a" []; Str "zz" []]) Sample.world0
              _ [Str "a" []; Str "zz" []] ["a"; "zz"]
              (ext Sample.world0) (ext Sample.world0) (ext Sample.world0)
              eq_refl eq_refl eq_refl) as (attrs' & Hrun & Hget).
  exists attrs'. split; [exact Hrun|]. split.
  - rewrite (Hget "a"). rewrite bool_decide_eq_true_2; [reflexivity|].
    apply list_elem_of_here.
  - rewrite (Hget "b"). rewrite bool_decide_eq_false_2; [reflexivity|].
    intros Hin. repeat (apply elem_of_cons in Hin as [Hin|Hin]; [discriminate Hin|]).
    inversion Hin.
Defined.

Lemma intersectAttrs_lookup_witness :
  let as1 := Attrs [Sample.binding "a" (Str "1" []); Sample.binding "b" (Str "2" [])] in
  let as2 := Attrs [Sample.binding "b" (Str "new" []); Sample.binding "c" (Str "3" [])] in
  exists res,
    prim_intersectAttrs as1 as2 Sample.world0 = (Ok (makeAttrs res), Sample.world0)
    /\ ATermMap.get "a" res = None
    /\ ATermMap.get "b" res = Some (Str "new" [], NoPos)
    /\ ATermMap.get "c" res = None.
Proof.
  intros as1 as2.
  destruct (@intersectAttrs_lookup Sample.Ext Sample.evaluator
              as1 as2 Sample.world0 _ _
              (ext Sample.world0) (ext Sample.world0) eq_refl eq_refl)
    as (res & Hrun & Hget).
  { apply NoDup_cons. split.
    - intros Hin. apply elem_of_cons in Hin as [Hin|Hin]; [discriminate Hin|].
      inversion Hin.
    - apply NoDup_cons. split; [apply not_in_strings_nil | apply NoDup_nil_2]. }
  exists res. split; [exact Hrun|].
  split; [|split]; rewrite Hget; reflexivity.
Defined.

Lemma head_of_tail_forces_copy_witness :
  exists m1 m2,
    prim_tail 1 5 Sample.memory0 = (Ok tt, m1)
    /\ prim_head 5 9 m1 = (Ok tt, m2)
    /\ forced m2 = [1; 5; 6]
    /\ cells (heap m2) !! 9 = Some (VInt 2)
    /\ cells (heap m2) !! 6 = Some (VInt 2)
    /\ cells (heap m2) !! 3 = Some (VThunk "bb").
Proof.
  pose (m1 := (prim_tail 1 5 Sample.memory0).2).
  assert (Htail : prim_tail 1 5 Sample.memory0 = (Ok tt, m1)) by reflexivity.
  destruct (@head_of_tail_forces_copy Sample.forcer
              1 5 9 Sample.memory0 (heap Sample.memory0) 2 3 m1
              (heap m1)
              (mkHeap (<[6 := VInt 2]> (cells (heap m1))) (brk (heap m1))) 6 2 (VInt 2)
              eq_refl eq_refl ltac:(lia) ltac:(lia)
              ltac:(simpl; lia) ltac:(simpl; lia) ltac:(simpl; lia))
    as (m2 & Hrun & Hfor & _ & Hres & Hframe & _ & Hplace);
    [| exact Htail | reflexivity | reflexivity | reflexivity | reflexivity | reflexivity |].
  { intros j Hj. split; [lia|].
    destruct j as [|[|[|j]]]; [eexists; reflexivity ..|lia]. }
  exists m1, m2. split; [exact Htail|]. split; [exact Hrun|].
  split; [exact Hfor|]. split; [exact Hres|].
  split; [rewrite Hframe by lia; reflexivity|].
  exact (Hplace Sample_forcer_in_place 1 ltac:(lia) ltac:(lia)).
Defined.

Lemma attributes_reach_environment_witness :
  let attrs := [Sample.binding "name" (Str "x" []);
                Sample.binding "src" (Str "/nix/store/out-src" ["/nix/store/fetch.drv"])] in
  let l := mkLocals Derivation_empty [] "" "" false "x" in
  exists l' w',
    processAttrs NoPos attrs l Sample.world0 = (Ok l', w')
    /\ StdMap.get "src" (env (drv l')) = Some "/nix/store/out-src"
    /\ "/nix/store/fetch.drv" ∈ context l'.
Proof.
  intros attrs l.
  destruct (processAttrs NoPos attrs l Sample.world0) as [[l'| |] w'] eqn:Hrun;
    try (vm_compute in Hrun; discriminate Hrun).
  exists l', w'. split; [reflexivity|].
  destruct (@attributes_reach_environment Sample.Ext Sample.evaluator
              NoPos attrs l Sample.world0 w' l' Hrun)
    as [_ Hattr].
  { apply NoDup_cons. split.
    - intros Hin. apply elem_of_cons in Hin as [Hin|Hin]; [discriminate Hin|].
      inversion Hin.
    - apply NoDup_cons. split; [apply not_in_strings_nil | apply NoDup_nil_2]. }
  destruct (Hattr "src" (Str "/nix/store/out-src" ["/nix/store/fetch.drv"]) NoPos)
    as (s & c & x & x' & Hco & Hget & Hc).
  { apply list_elem_of_further, list_elem_of_here. }
  { discriminate. }
  injection Hco as <- <- _. split; [exact Hget|].
  apply Hc. apply list_elem_of_here.
Defined.

Lemma declared_hash_is_fixed_output_witness :
  let l := mkLocals (mkDerivation [] [] [] "x86_64-linux" "/bin/sh" ["-c"] [("k", "v")])
             [] "0123456789abcdef0123456789abcdef" "md5" true "x" in
  outputs (drv l) = []
  /\ exists v w' outPath drvPath,
       instantiate 1 l Sample.world0 = (Ok v, w')
       /\ stringAttr "outPath" v = Some (outPath, StdSet.singleton drvPath)
       /\ drvHashes w' !! drvPath =
            Some (hashString htSHA256
                    ("fixed:out:r:md5:0123456789abcdef0123456789abcdef:" ++ outPath)).
Proof.
  intros l. split; [reflexivity|].
  destruct (instantiate 1 l Sample.world0) as [[v| |] w'] eqn:Hrun;
    try (vm_compute in Hrun; discriminate Hrun).
  destruct (@declared_hash_is_fixed_output Sample.Ext Sample.hashLib Sample.drvStore
              Sample.store 1 l Sample.world0 w' v eq_refl
              ltac:(discriminate) Hrun)
    as (h & outPath & drvPath & Hparse & Hout & _ & Hcache).
  injection Hparse as <-.
  exists v, w', outPath, drvPath. split; [reflexivity|]. split; [exact Hout|].
  apply Hcache. discriminate.
Defined.

Lemma derivation_name_checked_witness :
  let l := mkLocals (mkDerivation [] [] [] "x86_64-linux" "/bin/sh" [] [])
             [] "" "" false "x.drv" in
  instantiate 3 l Sample.world0 =
    (Throw (mkError EvalError "derivation names are not allowed to end in `.drv'"),
     Sample.world0).
Proof.
  intros l.
  destruct (@derivation_name_checked Sample.Ext Sample.hashLib Sample.drvStore
              Sample.store l Sample.world0 eq_refl) as (_ & _ & Herr).
  apply (Herr 3 (drv l) Sample.world0 ("", "", "") Sample.world0);
    first [reflexivity | discriminate].
Defined.

Ltac distinct_names :=
  repeat (apply NoDup_cons; split;
          [ let Hin := fresh "Hin" in
            intros Hin;
            repeat (apply elem_of_cons in Hin as [Hin|Hin]; [discriminate Hin|]);
            inversion Hin
          | ]);
  apply NoDup_nil_2.

Ltac sample_supplies :=
  eexists _, _; split;
  [ repeat first [apply list_elem_of_here | apply list_elem_of_further]
  | intros ?; eexists _, _; reflexivity ].

(** Two descriptions with the same name and the same declared hash, one
    of them with arguments and a further variable: the same output
    path. *)
Lemma fixed_output_path_of_attributes_witness :
  let hashed more :=
    ([Sample.binding "name" (Str "x" []);
     Sample.binding "builder" (Str "/bin/sh" []);
     Sample.binding "system" (Str "x86_64-linux" []);
     Sample.binding "outputHash" (Str "0123456789abcdef0123456789abcdef" []);
     Sample.binding "outputHashAlgo" (Str "md5" [])] ++ more)%list in
  let more := [Sample.binding "args" (List [Str "-c" []; Str "true" []]);
               Sample.binding "extra" (Str "1" ["/nix/store/fetch.drv"])] in
  let outPath := "/nix/store/md5-0123456789abcdef0123456789abcdef-x" in
  exists v1 w1 v2 w2 d1 d2,
    prim_derivationStrict 2 (Attrs (hashed [])) Sample.world0 = (Ok v1, w1)
    /\ prim_derivationStrict 2 (Attrs (hashed more)) Sample.world0 = (Ok v2, w2)
    /\ stringAttr "outPath" v1 = Some (outPath, [d1])
    /\ stringAttr "outPath" v2 = Some (outPath, [d2]).
Proof.
  intros hashed more outPath.
  destruct (prim_derivationStrict 2 (Attrs (hashed [])) Sample.world0)
    as [[v1| |] w1] eqn:Hrun1; try (vm_compute in Hrun1; discriminate Hrun1).
  destruct (prim_derivationStrict 2 (Attrs (hashed more)) Sample.world0)
    as [[v2| |] w2] eqn:Hrun2; try (vm_compute in Hrun2; discriminate Hrun2).
  destruct (@fixed_output_path_of_attributes Sample.Ext Sample.hashLib Sample.drvStore
              Sample.store Sample.evaluator 2 (Attrs (hashed [])) Sample.world0 w1 v1
              (hashed []) (ext Sample.world0) "x" "0123456789abcdef0123456789abcdef"
              "md5" false eq_refl)
    as (_ & h1 & Hparse1 & _ & Hpath1);
    [distinct_names | sample_supplies | sample_supplies | discriminate
    | sample_supplies
    | left; intros Hin;
      repeat (apply elem_of_cons in Hin as [Hin|Hin]; [discriminate Hin|]);
      inversion Hin
    | exact Hrun1 |].
  destruct (@fixed_output_path_of_attributes Sample.Ext Sample.hashLib Sample.drvStore
              Sample.store Sample.evaluator 2 (Attrs (hashed more)) Sample.world0 w2 v2
              (hashed more) (ext Sample.world0) "x" "0123456789abcdef0123456789abcdef"
              "md5" false eq_refl)
    as (_ & h2 & Hparse2 & _ & Hpath2);
    [distinct_names | sample_supplies | sample_supplies | discriminate
    | sample_supplies
    | left; intros Hin;
      repeat (apply elem_of_cons in Hin as [Hin|Hin]; [discriminate Hin|]);
      inversion Hin
    | exact Hrun2 |].
  injection Hparse1 as <-. injection Hparse2 as <-.
  destruct Hpath1 as (d1 & Hout1); [discriminate|].
  destruct Hpath2 as (d2 & Hout2); [discriminate|].
  exists v1, w1, v2, w2, d1, d2.
  split; [reflexivity|]. split; [reflexivity|]. split; [exact Hout1 | exact Hout2].
Defined.
